(** * gmc forum archiver (gemini.py): shallow embedding and verified properties

    The program crawls an archived forum: an index page, the topic listings
    of every forum, and the posts of every topic.  Python strings are modelled
    as lists of Unicode code points, the parsed markup as a tree whose
    elements carry identities (so that in-place removal can be modelled), and
    the outside world (network, filesystem, clock, console) as a trace of
    events answered by an environment.

    The environment is assumed to be a POSIX system whose filesystem
    encoding is UTF-8, on which writing a line to the console does not
    fail; the relative-URL join of the standard library is a parameter,
    taken as a total function.  The loops of the program are bounded by a
    number of iterations, and a run that needs more ends in [Timeout]. *)

From Stdlib Require Import Ascii String.
From Stdlib Require Import List NArith Bool Lia Arith.
Import ListNotations.
Open Scope list_scope.

Set Implicit Arguments.

(** ** Python [str]: sequences of code points *)

Definition char := N.
Definition str := list char.

(** String literals of the source, as code points. *)
Definition lit (s : string) : str :=
  map N_of_ascii (list_ascii_of_string s).
Arguments lit s%_string_scope.

Definition char_eqb (a b : char) : bool := N.eqb a b.

Fixpoint str_eqb (a b : str) : bool :=
  match a, b with
  | [], [] => true
  | x :: a', y :: b' => char_eqb x y && str_eqb a' b'
  | _, _ => false
  end.

(** [Py_UNICODE_ISSPACE]: the set used by [str.strip()] and, for [str]
    patterns, by the regular-expression class [\s]. *)
Definition isspace (c : char) : bool :=
  ((9 <=? c) && (c <=? 13) || (28 <=? c) && (c <=? 32)
   || (c =? 133) || (c =? 160) || (c =? 5760)
   || (8192 <=? c) && (c <=? 8202)
   || (c =? 8232) || (c =? 8233) || (c =? 8239) || (c =? 8287)
   || (c =? 12288))%N.

Fixpoint lstrip (s : str) : str :=
  match s with
  | [] => []
  | c :: t => if isspace c then lstrip t else s
  end.

Definition rstrip (s : str) : str := rev (lstrip (rev s)).

(** [s.strip()] *)
Definition strip (s : str) : str := rstrip (lstrip s).

(** [s.startswith(p)] *)
Fixpoint startswith (p s : str) : bool :=
  match p, s with
  | [], _ => true
  | _ :: _, [] => false
  | x :: p', y :: s' => char_eqb x y && startswith p' s'
  end.

(** [sep.join(parts)] *)
Fixpoint join (sep : str) (parts : list str) : str :=
  match parts with
  | [] => []
  | [p] => p
  | p :: rest => p ++ sep ++ join sep rest
  end.

(** [needle in hay] for strings: substring test. *)
Fixpoint contains (needle hay : str) : bool :=
  startswith needle hay ||
  match hay with
  | [] => false
  | _ :: hay' => contains needle hay'
  end.

(** [s.replace(a, b)] for one-character [a] and [b]. *)
Definition replace_char (a b : char) (s : str) : str :=
  map (fun c => if char_eqb c a then b else c) s.

Definition UNDERSCORE : char := 95%N.
Definition NL : str := [10%N].

(** ** sanitize_filename *)

(** The class of characters invalid in a file name: backslash, slash,
    star, question mark, colon, double quote, less-than, greater-than and
    vertical bar. *)
Definition invalid_char (c : char) : bool :=
  ((c =? 92) || (c =? 47) || (c =? 42) || (c =? 63) || (c =? 58)
   || (c =? 34) || (c =? 60) || (c =? 62) || (c =? 124))%N.

(** [re.sub] of that class by an underscore: every match is one character. *)
Definition sub_invalid (name : str) : str :=
  map (fun c => if invalid_char c then UNDERSCORE else c) name.

(** The class [[\s_]]. *)
Definition space_or_us (c : char) : bool := isspace c || char_eqb c UNDERSCORE.

(** [re.sub(r'[\s_]+', '_', name)]: scanning left to right, the first
    character of a run emits the replacement and the greedy [+] consumes the
    rest of the run; [in_run] tells that the scan is inside a match. *)
Fixpoint sub_runs (in_run : bool) (name : str) : str :=
  match name with
  | [] => []
  | c :: t =>
      if space_or_us c
      then if in_run then sub_runs true t else UNDERSCORE :: sub_runs true t
      else c :: sub_runs false t
  end.

Definition collapse_runs (name : str) : str := sub_runs false name.

Definition sanitize_filename (name : str) : str :=
  let name := strip name in
  let name := sub_invalid name in
  let name := collapse_runs name in
  firstn 100 name.

(** ** resolve_url *)

Definition HTTP : str := Eval cbv in lit "http".
Definition WEB : str := Eval cbv in lit "/web/".
Definition ARCHIVE_ORIGIN : str := Eval cbv in lit "https://web.archive.org".

Section Resolver.
(** [urllib.parse.urljoin], the standard relative-URL join. *)
Variable urljoin : str -> str -> str.

Definition resolve_url (base href : str) : str :=
  if startswith HTTP href then href
  else if startswith WEB href then ARCHIVE_ORIGIN ++ href
  else urljoin base href.
End Resolver.

(** ** Cleaning the posted date *)

Definition POSTED : str := Eval cbv in lit "Posted ".
Definition HASH : char := 35%N.

Section PostedDate.
(** [Py_UNICODE_ISDECIMAL], the class [\d] of a [str] pattern: the
    decimal digits of the Unicode character database. *)
Variable isdecimal : char -> bool.

(** Length of the run of digits at the start of [s]: what a greedy
    [\d*] consumes. *)
Fixpoint digits_run (s : str) : nat :=
  match s with
  | [] => 0
  | c :: t => if isdecimal c then S (digits_run t) else 0
  end.

(** [re.sub(r'Posted |#\d+', '', s)]: the scan deletes every match and
    keeps every other character; [skip] counts the characters of the
    current match that are still to be consumed. *)
Fixpoint sub_posted (skip : nat) (s : str) : str :=
  match s with
  | [] => []
  | c :: t =>
      match skip with
      | S k => sub_posted k t
      | O =>
          if startswith POSTED s then sub_posted 6 t
          else if char_eqb c HASH && (0 <? digits_run t)
               then sub_posted (digits_run t) t
               else c :: sub_posted 0 t
      end
  end.

(** [re.sub(r'Posted |#\d+', '', post_date).strip()] *)
Definition clean_date (post_date : str) : str :=
  strip (sub_posted 0 post_date).

(** The cleaning as the specification words it: drop a leading
    [Posted ], drop a trailing [#<digits>], trim.  Not the program's
    function; it is compared with [clean_date] below. *)
Definition drop_posted_prefix (s : str) : str :=
  if startswith POSTED s then skipn 7 s else s.

Definition drop_number_suffix (s : str) : str :=
  let r := rev s in
  let n := digits_run r in
  match n, skipn n r with
  | S _, c :: rest => if char_eqb c HASH then rev rest else s
  | _, _ => s
  end.

Definition clean_date_spec (post_date : str) : str :=
  strip (drop_number_suffix (drop_posted_prefix post_date)).

(** No match of the pattern starts inside [s]. *)
Fixpoint match_free (s : str) : bool :=
  match s with
  | [] => true
  | c :: t =>
      negb (startswith POSTED s)
      && negb (char_eqb c HASH && (0 <? digits_run t))
      && match_free t
  end.

(** [deleted s r]: [r] is [s] without the matches of the pattern, as the
    specification of [re.sub] has it: the text is read from the left; at a
    place where the word Posted and its space start, they are dropped; at a
    hash sign followed by a digit, the sign and all the digits that follow
    are dropped; any other character is kept; the reading goes on after
    what was dropped or kept.  Not the program's function; it is compared
    with [clean_date] below. *)
Inductive deleted : str -> str -> Prop :=
| deleted_end : deleted [] []
| deleted_posted (s r : str) :
    deleted s r -> deleted (POSTED ++ s) r
| deleted_number (digs s r : str) :
    digs <> [] ->
    Forall (fun c => isdecimal c = true) digs ->
    (forall c s', s = c :: s' -> isdecimal c = false) ->
    deleted s r -> deleted (HASH :: digs ++ s) r
| deleted_keep (c : char) (s r : str) :
    startswith POSTED (c :: s) = false ->
    (c = HASH -> forall d s', s = d :: s' -> isdecimal d = false) ->
    deleted s r -> deleted (c :: s) (c :: r).
End PostedDate.

(** The text that may follow the date: nothing, or a post number. *)
Definition number_tail (tl : str) : Prop :=
  tl = [] \/ exists r, tl = HASH :: r.

(** The ASCII digits, a subset of every version of the Unicode decimal
    digits; used to run the definitions on concrete inputs. *)
Definition ascii_digit (c : char) : bool := ((48 <=? c) && (c <=? 57))%N.

(** The ASCII word characters: letters, digits and the underscore. *)
Definition ascii_word (c : char) : bool :=
  (ascii_digit c || (65 <=? c) && (c <=? 90) || (97 <=? c) && (c <=? 122)
   || (c =? 95))%N.

(** ** Parsed markup *)

(** A node of the tree built by the markup parser.  Every element carries an
    identity [eid]: the program holds on to elements while it removes others
    from the same tree.  [Special] stands for the strings that text
    extraction does not report (comments, declarations and the like). *)
#[local] Unset Elimination Schemes.
Inductive node : Type :=
| Text (s : str)
| Special (s : str)
| Elem (eid : nat) (tag : str) (classes : list str)
       (attrs : list (str * str)) (kids : list node).
#[local] Set Elimination Schemes.

Definition children (n : node) : list node :=
  match n with
  | Elem _ _ _ _ ks => ks
  | _ => []
  end.

Definition node_id (n : node) : option nat :=
  match n with
  | Elem i _ _ _ _ => Some i
  | _ => None
  end.

(** Identities of the elements of a tree, in document order. *)
Fixpoint elem_ids (n : node) : list nat :=
  match n with
  | Elem i _ _ _ ks => i :: flat_map elem_ids ks
  | _ => []
  end.

Fixpoint assoc (k : str) (l : list (str * str)) : option str :=
  match l with
  | [] => None
  | (k', v) :: l' => if str_eqb k k' then Some v else assoc k l'
  end.

Definition CLASS : str := Eval cbv in lit "class".
Definition SPACE : str := Eval cbv in lit " ".

(** The value of an attribute, as a selector and [tag[name]] see it.  The
    parser keeps the value of [class] as the list of its words and a
    selector sees that list joined by single spaces; [attrs] holds the other
    attributes, a list-valued one such as [rel] joined in the same way. *)
Definition get_attr (name : str) (n : node) : option str :=
  match n with
  | Elem _ _ cs ats _ =>
      if str_eqb name CLASS
      then match cs with [] => None | _ => Some (join SPACE cs) end
      else assoc name ats
  | _ => None
  end.

(** *** Selectors *)

Inductive attr_op := AttrEquals | AttrPrefix | AttrContains.

(** A compound selector: [tag.class1.class2[attr op value]]. *)
Record compound := Compound {
  sel_tag : option str;
  sel_classes : list str;
  sel_attrs : list (str * attr_op * str)
}.

(** A complex selector is a chain of compounds under the descendant
    combinator, outermost first; a selector is a comma-separated list. *)
Definition selector := list (list compound).

Definition has_class (c : str) (n : node) : bool :=
  match n with
  | Elem _ _ cs _ _ => existsb (str_eqb c) cs
  | _ => false
  end.

Definition attr_test (n : node) (t : str * attr_op * str) : bool :=
  let '(name, op, v) := t in
  match get_attr name n with
  | None => false
  | Some w =>
      match op with
      | AttrEquals => str_eqb w v
      | AttrPrefix => match v with [] => false | _ => startswith v w end
      | AttrContains => match v with [] => false | _ => contains v w end
      end
  end.

Definition matches_compound (c : compound) (n : node) : bool :=
  match n with
  | Elem _ t _ _ _ =>
      match sel_tag c with None => true | Some t' => str_eqb t t' end
      && forallb (fun k => has_class k n) (sel_classes c)
      && forallb (attr_test n) (sel_attrs c)
  | _ => false
  end.

(** The compounds [cs] (innermost first) are matched by ancestors taken from
    [anc] (nearest first), in that order. *)
Fixpoint ancestors_match (cs : list compound) (anc : list node) : bool :=
  match cs with
  | [] => true
  | c :: cs' =>
      (fix above (anc : list node) : bool :=
         match anc with
         | [] => false
         | a :: anc' =>
             if matches_compound c a then ancestors_match cs' anc'
             else above anc'
         end) anc
  end.

Definition matches_complex (chain : list compound) (anc : list node) (n : node)
  : bool :=
  match rev chain with
  | [] => false
  | c :: outer => matches_compound c n && ancestors_match outer anc
  end.

Definition matches (sel : selector) (anc : list node) (n : node) : bool :=
  existsb (fun chain => matches_complex chain anc n) sel.

(** *** Navigation *)

(** [walk anc n]: [n] and its descendants in document order, each with its
    ancestors, nearest first. *)
Fixpoint walk (anc : list node) (n : node) : list (list node * node) :=
  (anc, n) :: match n with
              | Elem _ _ _ _ ks => flat_map (walk (n :: anc)) ks
              | _ => []
              end.

Definition descendants (anc : list node) (n : node) : list (list node * node) :=
  flat_map (walk (n :: anc)) (children n).

(** The first result of [f] along a list. *)
Definition first_some {A B : Type} (f : A -> option B) : list A -> option B :=
  fix go (l : list A) : option B :=
    match l with
    | [] => None
    | x :: l' => match f x with Some r => Some r | None => go l' end
    end.

(** The element with identity [i] in the tree [n], with its ancestors: what
    a reference to that element denotes in the current tree.  An element
    that was removed from the tree is not found. *)
Fixpoint locate (i : nat) (anc : list node) (n : node)
  : option (list node * node) :=
  match n with
  | Elem j _ _ _ ks =>
      if Nat.eqb j i then Some (anc, n)
      else first_some (locate i (n :: anc)) ks
  | _ => None
  end.

Definition ids_of (l : list (list node * node)) : list nat :=
  flat_map (fun p => match node_id (snd p) with Some i => [i] | None => [] end) l.

(** [el.select(sel)]: the descendants of the element [i] that match, in
    document order.  Ancestors are looked for in the whole tree. *)
Definition select (sel : selector) (soup : node) (i : nat) : list nat :=
  match locate i [] soup with
  | None => []
  | Some (anc, n) =>
      ids_of (filter (fun p => matches sel (fst p) (snd p)) (descendants anc n))
  end.

(** [el.select_one(sel)] *)
Definition select_one (sel : selector) (soup : node) (i : nat) : option nat :=
  hd_error (select sel soup i).

(** [el.find_parent(tag, class_=c)]; [c = None] when no class is asked. *)
Definition find_parent (t : str) (c : option str) (soup : node) (i : nat)
  : option nat :=
  match locate i [] soup with
  | None => None
  | Some (anc, _) =>
      let want := Compound (Some t) (match c with Some k => [k] | None => [] end) [] in
      match find (matches_compound want) anc with
      | Some a => node_id a
      | None => None
      end
  end.

(** [el.find_all(tag, class_=c)] and [el.find(tag, class_=c)] *)
Definition find_all (t : str) (c : option str) (soup : node) (i : nat)
  : list nat :=
  select [[Compound (Some t) (match c with Some k => [k] | None => [] end) []]]
         soup i.

Definition find_first (t : str) (c : option str) (soup : node) (i : nat)
  : option nat :=
  hd_error (find_all t c soup i).

(** *** Text extraction *)

Fixpoint strings (n : node) : list str :=
  match n with
  | Text s => [s]
  | Special _ => []
  | Elem _ _ _ _ ks => flat_map strings ks
  end.

Definition nonempty (s : str) : bool :=
  match s with [] => false | _ => true end.

(** The strings that [get_text(sep, strip=True)] joins: each text node
    trimmed, the empty results dropped. *)
Definition stripped (l : list str) : list str :=
  filter nonempty (map strip l).

Definition node_text (sep : str) (n : node) : str :=
  join sep (stripped (strings n)).

(** [el.get_text(sep, strip=True)] on a reference. *)
Definition get_text (sep : str) (soup : node) (i : nat) : str :=
  match locate i [] soup with
  | None => []
  | Some (_, n) => node_text sep n
  end.

(** A non-empty string whose first and last characters are not blank. *)
Definition solid (s : str) : Prop :=
  exists c t c' t', s = c :: t /\ rev s = c' :: t'
                    /\ isspace c = false /\ isspace c' = false.

(** *** Removal *)

Definition is_elem (i : nat) (n : node) : bool :=
  match n with
  | Elem j _ _ _ _ => Nat.eqb j i
  | _ => false
  end.

(** [el.decompose()]: the element [i] and everything below it leaves the
    tree.  Removing an element that is no longer in the tree changes
    nothing. *)
Fixpoint decompose (i : nat) (soup : node) : node :=
  match soup with
  | Elem j t cs ats ks =>
      Elem j t cs ats
        (flat_map (fun k => if is_elem i k then [] else [decompose i k]) ks)
  | _ => soup
  end.

(** [for block in blocks: block.decompose()] *)
Definition decompose_all (blocks : list nat) (soup : node) : node :=
  fold_left (fun s b => decompose b s) blocks soup.

(** ** Post body *)

Definition sel1 (t : str) (cs : list str) : selector :=
  [[Compound (Some t) cs []]].

(** ['div.blockquote, pre.prettyprint, img'] *)
Definition BLOCKS : selector :=
  Eval cbv in
    sel1 (lit "div") [lit "blockquote"]
    ++ sel1 (lit "pre") [lit "prettyprint"]
    ++ sel1 (lit "img") [].

(** The tree after the loop that removes quotes, code blocks and images
    from the post content [div]. *)
Definition strip_blocks (soup : node) (div : nat) : node :=
  decompose_all (select BLOCKS soup div) soup.

(** [post_content]: the body text of the post content [div], read after the
    removal. *)
Definition post_body (soup : node) (div : nat) : str :=
  get_text NL (strip_blocks soup div) div.

(** A quote block, a code block or an image. *)
Definition is_block (n : node) : bool := matches BLOCKS [] n.

(** The text nodes of [n] that lie in no quote block, code block or image
    below [n], in document order. *)
Fixpoint kept_strings (n : node) : list str :=
  match n with
  | Text s => [s]
  | Special _ => []
  | Elem _ _ _ _ ks =>
      flat_map (fun k => if is_block k then [] else kept_strings k) ks
  end.

(** *** Notions used to state and prove the removal property *)

Definition elem_in (P : nat -> bool) (n : node) : bool :=
  match node_id n with
  | Some i => P i
  | None => false
  end.

(** The tree without the elements whose identity satisfies [P]. *)
Fixpoint remove_where (P : nat -> bool) (n : node) : node :=
  match n with
  | Elem j t cs ats ks =>
      Elem j t cs ats
        (flat_map (fun k => if elem_in P k then [] else [remove_where P k]) ks)
  | _ => n
  end.

(** A node and the nodes below it, in document order. *)
Fixpoint subnodes (n : node) : list node :=
  n :: match n with
       | Elem _ _ _ _ ks => flat_map subnodes ks
       | _ => []
       end.

(** Identities of the elements strictly below [n]. *)
Definition inner_ids (n : node) : list nat := flat_map elem_ids (children n).

Definition mem (l : list nat) (i : nat) : bool := existsb (Nat.eqb i) l.

(** *** A sample post *)

Section Samples.
Local Open Scope string_scope.
Local Open Scope list_scope.

Definition T (s : string) : node := Text (lit s).
Definition E (i : nat) (t : string) (cs : list string)
         (ats : list (string * string)) (ks : list node) : node :=
Elem i (lit t) (map lit cs) (map (fun p => (lit (fst p), lit (snd p))) ats) ks.

(** A post content block with a quote, a code block and an image. *)
Definition sample_content : node :=
E 3 "div" ["post"; "entry-content"] []
  [ T " Hello ";
    E 4 "div" ["blockquote"] [] [T "quoted words"; E 5 "img" [] [] []];
    T "  ";
    E 6 "pre" ["prettyprint"] [] [T "code()"];
    E 7 "img" [] [("src", "a.png")] [];
    E 8 "p" [] [] [T "world "] ].

Definition sample_post : node :=
E 0 "[document]" [] []
  [ E 1 "div" ["post_wrap"] []
      [ E 2 "h3" ["author"] [] [T "alice"];
        E 9 "p" ["posted_info"] [] [T "Posted 12 May 2016 - 10:15 AM "; E 10 "a" [] [] [T "#3"]];
        sample_content;
        E 11 "div" ["signature"] [] [T "sig"; E 12 "img" [] [] []] ] ].

End Samples.

(** ** The outside world *)

(** What [requests.get] can bring back: an answer with its status and the
    tree the parser builds from its body; an answer with its status whose
    body the parser does not accept; or a transport failure (time-out,
    connection error: a [RequestException]). *)
Inductive response : Type :=
| Answer (status : N) (soup : node)
| Unparsed (status : N)
| Failure.

(** [response.raise_for_status()] raises on 4xx and 5xx. *)
Definition raise_for_status (status : N) : bool :=
  ((400 <=? status) && (status <? 600))%N.

(** The lines the program prints. *)
Inductive msg : Type :=
| Fetching (url : str)
| ErrorFetching (url : str)
| RetryingIn (delay : N)
| MaxRetries (url : str)
| ErrorWriting (filepath : str)
| ScrapingTopic (title : str)
| ProcessingForum (name : str)
| ProcessingSubForum (name : str).

(** What the program does to the world, in the order it does it.  [Enter]
    marks the entry into [scrape_topic_listing]; it has no effect and only
    makes the call visible in the trace. *)
Inductive event : Type :=
| Print (m : msg)
| Sleep (secs : N)
| Get (url : str)
| MakeDirs (dir : str) (ok : bool)
| WriteFile (filepath content : str) (ok : bool)
| Enter (url path : str).

Definition trace := list event.

(** The exceptions that can leave a function of the program: [KeyError]
    from the lookup of an attribute; [ValueError], with its subclass
    [UnicodeEncodeError], from the filesystem calls; the exception with
    which the parser gives up on a body ([ParserRejectedMarkup], or any
    other that is no [RequestException]). *)
Inductive exn : Type :=
| KeyError (key : str)
| ValueError
| ParserRejectedMarkup.

(** The result of running a piece of the program: a value, an exception
    that escapes, or [Timeout] when the model ran out of loop iterations. *)
Inductive outcome (A : Type) : Type :=
| Ok (a : A) (t : trace)
| Raised (e : exn) (t : trace)
| Timeout.
Arguments Raised {A} e t.
Arguments Timeout {A}.

Definition M (A : Type) : Type := trace -> outcome A.

Definition ret {A : Type} (a : A) : M A := fun t => Ok a t.

Definition bind {A B : Type} (m : M A) (f : A -> M B) : M B :=
  fun t =>
    match m t with
    | Ok a t' => f a t'
    | Raised e t' => Raised e t'
    | Timeout => Timeout
    end.

Definition emit (e : event) : M unit := fun t => Ok tt (t ++ [e]).

Definition raise {A : Type} (e : exn) : M A := fun t => Raised e t.

Notation "x <- m ;; k" := (bind m (fun x => k))
  (at level 61, m at next level, right associativity).
Notation "m ;;; k" := (bind m (fun _ => k))
  (at level 61, right associativity).

(** [for x in l: s = body(s, x)] *)
Fixpoint for_each {A S : Type} (body : S -> A -> M S) (l : list A) (s : S) : M S :=
  match l with
  | [] => ret s
  | x :: l' => s' <- body s x ;; for_each body l' s'
  end.

(** *** Paths *)

Definition SLASH : char := 47%N.

Fixpoint drop_while (p : char -> bool) (s : str) : str :=
  match s with
  | [] => []
  | c :: t => if p c then drop_while p t else s
  end.

(** [os.path.join(a, b)], on a POSIX system. *)
Definition path_join (a b : str) : str :=
  if startswith [SLASH] b then b
  else match rev a with
       | [] => b
       | c :: _ => if char_eqb c SLASH then a ++ b else a ++ [SLASH] ++ b
       end.

(** [os.path.dirname(p)]: everything up to the last slash, without the
    slashes at its end unless it is made of slashes only. *)
Definition dirname (p : str) : str :=
  let head := drop_while (fun c => negb (char_eqb c SLASH)) (rev p) in
  match drop_while (fun c => char_eqb c SLASH) head with
  | [] => rev head
  | h => rev h
  end.

(** What the filesystem calls refuse before they reach the system, on a
    POSIX system whose filesystem encoding is UTF-8.  A surrogate is a code
    point from D800 to DFFF; those from DC80 to DCFF stand for raw bytes and
    are accepted in a path.  [os.makedirs] and [open] raise [ValueError] on
    a path that holds U+0000 and [UnicodeEncodeError] on one that holds any
    other surrogate; the [write] of a file opened with [encoding='utf-8']
    raises [UnicodeEncodeError] on a text that holds a surrogate.  None of
    them is an [OSError]. *)
Definition surrogate (c : char) : bool := ((55296 <=? c) && (c <=? 57343))%N.

Definition raw_byte (c : char) : bool := ((56448 <=? c) && (c <=? 56575))%N.

Definition path_char (c : char) : bool :=
  negb (c =? 0)%N && (negb (surrogate c) || raw_byte c).

Definition valid_path (p : str) : bool := forallb path_char p.

Definition encodable (content : str) : bool :=
  forallb (fun c => negb (surrogate c)) content.

(** *** Constants *)

Definition REQUEST_DELAY_SECONDS : N := 2.
Definition retries : nat := 3.
Definition initial_delay : N := 5.

(** *** Selectors and literals of the program *)

Definition HREF : str := Eval cbv in lit "href".
Definition DIV : str := Eval cbv in lit "div".
Definition TD : str := Eval cbv in lit "td".
Definition SPAN : str := Eval cbv in lit "span".
Definition IMG : str := Eval cbv in lit "img".
Definition POST_WRAP : str := Eval cbv in lit "post_wrap".
Definition SIGNATURE : str := Eval cbv in lit "signature".
Definition DESC : str := Eval cbv in lit "desc".

(** ['div.post.entry-content'] *)
Definition POST_CONTENT : selector :=
  Eval cbv in sel1 (lit "div") [lit "post"; lit "entry-content"].
(** ['h3.author'] *)
Definition H3_AUTHOR : selector := Eval cbv in sel1 (lit "h3") [lit "author"].
(** ['p.posted_info'] *)
Definition P_POSTED_INFO : selector :=
  Eval cbv in sel1 (lit "p") [lit "posted_info"].
(** The anchor with [rel] equal to [next]. *)
Definition A_NEXT : selector :=
  Eval cbv in [[Compound (Some (lit "a")) [] [(lit "rel", AttrEquals, lit "next")]]].
(** Rows of [table.ipb_table] whose class starts with [row]. *)
Definition TOPIC_ROWS : selector :=
  Eval cbv in [[Compound (Some (lit "table")) [lit "ipb_table"] [];
                Compound (Some (lit "tr")) [] [(lit "class", AttrPrefix, lit "row")]]].
(** Anchors in [td.col_f_topic] whose [href] contains [showtopic=]. *)
Definition TOPIC_LINK : selector :=
  Eval cbv in [[Compound (Some (lit "td")) [lit "col_f_topic"] [];
                Compound (Some (lit "a")) [] [(lit "href", AttrContains, lit "showtopic=")]]].
(** ['td.col_f_lastact'] *)
Definition LAST_ACT : selector := Eval cbv in sel1 (lit "td") [lit "col_f_lastact"].
(** ['table.ipb_table'] *)
Definition TABLES : selector := Eval cbv in sel1 (lit "table") [lit "ipb_table"].
(** ['tr'] *)
Definition ROWS : selector := Eval cbv in sel1 (lit "tr") [].
(** Anchors under [td h4] whose [href] contains [showforum=]. *)
Definition FORUM_LINK : selector :=
  Eval cbv in [[Compound (Some (lit "td")) [] [];
                Compound (Some (lit "h4")) [] [];
                Compound (Some (lit "a")) [] [(lit "href", AttrContains, lit "showforum=")]]].
(** Anchors whose [href] contains [showforum=]. *)
Definition SUBFORUM_LINK : selector :=
  Eval cbv in [[Compound (Some (lit "a")) [] [(lit "href", AttrContains, lit "showforum=")]]].

Definition UNKNOWN_USER : str := Eval cbv in lit "Unknown User".
Definition UNKNOWN_DATE : str := Eval cbv in lit "Unknown Date".
Definition NODATE : str := Eval cbv in lit "nodate".
Definition UNKNOWN_DATE_PREFIX : str := Eval cbv in lit "unknown_date".
Definition LISTING_TXT : str := Eval cbv in lit "listing.txt".
Definition BAR : str := Eval cbv in lit " | ".

(** The identity of the root of a parsed page. *)
Definition root_id (soup : node) : nat :=
  match soup with
  | Elem i _ _ _ _ => i
  | _ => 0
  end.

(** The value of an attribute of the element [i], if it has it. *)
Definition attr (name : str) (soup : node) (i : nat) : option str :=
  match locate i [] soup with
  | Some (_, n) => get_attr name n
  | None => None
  end.

(** [tag[name]]: raises [KeyError] when the attribute is absent. *)
Definition item (name : str) (soup : node) (i : nat) : M str :=
  match attr name soup i with
  | Some v => ret v
  | None => raise (KeyError name)
  end.

(** [f"--- User: {username} | Date: {post_date} ---\n\n{post_content}"] *)
Definition post_header (username post_date post_content : str) : str :=
  lit "--- User: " ++ username ++ lit " | Date: " ++ post_date ++ lit " ---"
  ++ NL ++ NL ++ post_content.

(** [f"\n--- Signature ---\n{signature_content}"] *)
Definition signature_block (signature_content : str) : str :=
  NL ++ lit "--- Signature ---" ++ NL ++ signature_content.

(** A newline, eighty equal signs, a newline. *)
Definition post_separator : str := NL ++ repeat 61%N 80 ++ NL.

Section Crawler.

(** The collaborators of the program: the relative-URL join, the Unicode
    classes [\d] and [\w], and the environment, which answers each request
    and each filesystem operation knowing what the program did so far. *)
Variable urljoin : str -> str -> str.
Variable isdecimal : char -> bool.
Variable isword : char -> bool.
Variable http_get : trace -> str -> response.
Variable os_makedirs : trace -> str -> bool.
Variable os_write : trace -> str -> str -> bool.

(** *** make_soup *)

(** [requests.get(url, timeout=30)] *)
Definition request (url : str) : M response :=
  fun t => Ok (http_get t url) (t ++ [Get url]).

(** The iterations of [for attempt in range(retries)] that are left, [n] of
    them, with the current [attempt] and [delay].  The [except] clause
    catches the [RequestException] of the request and of
    [raise_for_status]; the parser runs inside the [try], and what it raises
    is not caught. *)
Fixpoint attempts (n attempt : nat) (delay : N) (url : str) : M (option node) :=
  match n with
  | O => ret None
  | S n' =>
      let failed : M (option node) :=
        emit (Print (ErrorFetching url)) ;;;
        if attempt <? retries - 1
        then emit (Print (RetryingIn delay)) ;;;
             emit (Sleep delay) ;;;
             attempts n' (S attempt) (delay * 2)%N url
        else emit (Print (MaxRetries url)) ;;;
             ret None in
      emit (Print (Fetching url)) ;;;
      emit (Sleep REQUEST_DELAY_SECONDS) ;;;
      r <- request url ;;
      match r with
      | Answer status soup =>
          if raise_for_status status then failed else ret (Some soup)
      | Unparsed status =>
          if raise_for_status status then failed else raise ParserRejectedMarkup
      | Failure => failed
      end
  end.

Definition make_soup (url : str) : M (option node) :=
  attempts retries 0 initial_delay url.

(** *** write_to_file *)

(** The [except] clause catches [OSError] only.  [os_makedirs] tells
    whether the creation of the directory goes without an [OSError], and
    [os_write] whether opening and writing the file does; when neither
    raises one, a path or a text that the calls refuse makes [ValueError]
    leave the function.  The event [MakeDirs dir ok] is the call of
    [os.makedirs], [ok] telling whether it returned; [WriteFile f c ok] is
    the call of [open] and [write], [ok] telling whether [f] holds [c]
    afterwards. *)
Definition write_to_file (filepath content : str) : M unit :=
  fun t =>
    let dir := dirname filepath in
    if os_makedirs t dir
    then if valid_path dir
         then let t := t ++ [MakeDirs dir true] in
              if valid_path filepath
              then if os_write t filepath content
                   then if encodable content
                        then Ok tt (t ++ [WriteFile filepath content true])
                        else Raised ValueError
                                    (t ++ [WriteFile filepath content false])
                   else Ok tt (t ++ [WriteFile filepath content false;
                                     Print (ErrorWriting filepath)])
              else Raised ValueError (t ++ [WriteFile filepath content false])
         else Raised ValueError (t ++ [MakeDirs dir false])
    else Ok tt (t ++ [MakeDirs dir false; Print (ErrorWriting filepath)]).

(** *** scrape_post_content *)

(** One iteration of [for post_content_div in post_content_divs]: the state
    is the tree, which the iteration changes, and [all_posts_text]. *)
Definition post_step (st : node * list str) (div : nat) : node * list str :=
  let '(soup, all_posts_text) := st in
  match find_parent DIV (Some POST_WRAP) soup div with
  | None => st
  | Some post_wrap =>
      let author_h3 := select_one H3_AUTHOR soup post_wrap in
      let posted_info_p := select_one P_POSTED_INFO soup post_wrap in
      let username :=
        match author_h3 with
        | Some a => get_text [] soup a
        | None => UNKNOWN_USER
        end in
      let post_date :=
        match posted_info_p with
        | Some p => get_text [] soup p
        | None => UNKNOWN_DATE
        end in
      let post_date := clean_date isdecimal post_date in
      let soup := strip_blocks soup div in
      let post_content := get_text NL soup div in
      let '(soup, signature_content) :=
        match find_first DIV (Some SIGNATURE) soup post_wrap with
        | Some signature_div =>
            let soup := decompose_all (find_all IMG None soup signature_div) soup in
            (soup, strip (get_text NL soup signature_div))
        | None => (soup, [])
        end in
      let all_posts_text :=
        all_posts_text ++ [post_header username post_date post_content] in
      let all_posts_text :=
        if nonempty signature_content
        then all_posts_text ++ [signature_block signature_content]
        else all_posts_text in
      (soup, all_posts_text ++ [post_separator])
  end.

(** The loop over the post content blocks of a page. *)
Definition page_step (soup : node) (all_posts_text : list str) : node * list str :=
  fold_left post_step (select POST_CONTENT soup (root_id soup))
            (soup, all_posts_text).

(** The next value of [current_page_url]: the resolved next link, or
    [None]. *)
Definition next_page (current_page_url : str) (soup : node) : M (option str) :=
  match select_one A_NEXT soup (root_id soup) with
  | None => ret None
  | Some next_link =>
      href <- item HREF soup next_link ;;
      if nonempty href
      then ret (Some (resolve_url urljoin current_page_url href))
      else ret None
  end.

(** The [while current_page_url] loop, at most [fuel] iterations. *)
Fixpoint posts_loop (fuel : nat) (all_posts_text : list str)
         (current_page_url : str) : M (list str) :=
  match fuel with
  | O => fun _ => Timeout
  | S fuel' =>
      if nonempty current_page_url
      then soup <- make_soup current_page_url ;;
           match soup with
           | None => ret all_posts_text
           | Some soup =>
               let '(soup, all_posts_text) := page_step soup all_posts_text in
               next <- next_page current_page_url soup ;;
               match next with
               | Some url => posts_loop fuel' all_posts_text url
               | None => ret all_posts_text
               end
           end
      else ret all_posts_text
  end.

Definition scrape_post_content (fuel : nat) (topic_url : str) : M str :=
  all_posts_text <- posts_loop fuel [] topic_url ;;
  ret (join NL all_posts_text).

(** *** Runs of the pagination of a topic *)

(** What the post loop adds to [all_posts_text] on a page, and the tree it
    leaves. *)
Definition page_posts (soup : node) : list str := snd (page_step soup []).
Definition page_after (soup : node) : node := fst (page_step soup []).

(** [pages_fetched t u ps t' u']: from the trace [t] and the URL [u], the
    pages [ps] are fetched one after the other, each found through the next
    link of the one before; [t'] is the trace after the last of them and [u']
    the URL its next link resolves to. *)
Inductive pages_fetched : trace -> str -> list node -> trace -> str -> Prop :=
| fetched_none (t : trace) (u : str) : pages_fetched t u [] t u
| fetched_page (t : trace) (u : str) (soup : node) (t1 : trace) (u1 : str)
               (ps : list node) (t2 : trace) (u2 : str) :
    nonempty u = true ->
    make_soup u t = Ok (Some soup) t1 ->
    next_page u (page_after soup) t1 = Ok (Some u1) t1 ->
    pages_fetched t1 u1 ps t2 u2 ->
    pages_fetched t u (soup :: ps) t2 u2.

(** *** scrape_topic_listing *)

Definition four_digits (s : str) : bool :=
  match s with
  | a :: b :: c :: d :: _ => isdecimal a && isdecimal b && isdecimal c && isdecimal d
  | _ => false
  end.

(** Length of the run of word characters at the start of [s]. *)
Fixpoint word_run (s : str) : nat :=
  match s with
  | [] => 0
  | c :: t => if isword c then S (word_run t) else 0
  end.

(** [\w+\s\d{4}] with a greedy [\w+]: the longest [k], at most the given
    one, such that a blank and four digits follow [k] characters of [r]. *)
Fixpoint try_word (k : nat) (r : str) : option nat :=
  match k with
  | O => None
  | S k' =>
      match skipn k r with
      | w :: rest => if isspace w && four_digits rest then Some k else try_word k' r
      | [] => try_word k' r
      end
  end.

(** [\s\w+\s\d{4}] at the start of [r]: the length of the match. *)
Definition date_tail (r : str) : option nat :=
  match r with
  | w :: r1 =>
      if isspace w
      then match try_word (word_run r1) r1 with
           | Some k => Some (1 + k + 1 + 4)
           | None => None
           end
      else None
  | [] => None
  end.

(** [\d{1,2}\s\w+\s\d{4}] at the start of [s]: two digits are tried before
    one. *)
Definition date_at (s : str) : option nat :=
  let one :=
    match s with
    | a :: r => if isdecimal a then option_map (Nat.add 1) (date_tail r) else None
    | [] => None
    end in
  match s with
  | a :: b :: r =>
      if isdecimal a && isdecimal b
      then match date_tail r with
           | Some n => Some (2 + n)
           | None => one
           end
      else one
  | _ => one
  end.

(** [re.search(r'(\d{1,2}\s\w+\s\d{4})', s)]: the leftmost match. *)
Fixpoint search_date (s : str) : option str :=
  match s with
  | [] => None
  | _ :: t =>
      match date_at s with
      | Some n => Some (firstn n s)
      | None => search_date t
      end
  end.

Definition date_prefix_of (last_post_date_str : str) : str :=
  match search_date last_post_date_str with
  | Some m => replace_char 32%N 45%N m
  | None => UNKNOWN_DATE_PREFIX
  end.

(** [f"{date_prefix}-{sanitized_title}.txt"] under [current_path]. *)
Definition topic_filepath (current_path date_prefix topic_title : str) : str :=
  path_join current_path
            (date_prefix ++ lit "-" ++ sanitize_filename topic_title ++ lit ".txt").

(** One iteration of [for row in topic_rows]. *)
Definition topic_row (fuel : nat) (current_page_url current_path : str)
           (soup : node) (topic_listing : list str) (row : nat) : M (list str) :=
  match select_one TOPIC_LINK soup row with
  | None => ret topic_listing
  | Some topic_link_tag =>
      let topic_title := get_text [] soup topic_link_tag in
      href <- item HREF soup topic_link_tag ;;
      let topic_url := resolve_url urljoin current_page_url href in
      let last_post_date_str :=
        match select_one LAST_ACT soup row with
        | Some last_post_cell => get_text [] soup last_post_cell
        | None => NODATE
        end in
      let date_prefix := date_prefix_of last_post_date_str in
      emit (Print (ScrapingTopic topic_title)) ;;;
      post_content <- scrape_post_content fuel topic_url ;;
      if nonempty post_content
      then write_to_file (topic_filepath current_path date_prefix topic_title)
                         post_content ;;;
           ret (topic_listing ++ [topic_title ++ BAR ++ topic_url])
      else ret topic_listing
  end.

(** The [while current_page_url] loop over the pages of a forum. *)
Fixpoint topic_pages (fuel : nat) (topic_listing : list str)
         (current_page_url current_path : str) : M (list str) :=
  match fuel with
  | O => fun _ => Timeout
  | S fuel' =>
      if nonempty current_page_url
      then soup <- make_soup current_page_url ;;
           match soup with
           | None => ret topic_listing
           | Some soup =>
               topic_listing <-
                 for_each (topic_row fuel' current_page_url current_path soup)
                          (select TOPIC_ROWS soup (root_id soup)) topic_listing ;;
               next <- next_page current_page_url soup ;;
               match next with
               | Some url => topic_pages fuel' topic_listing url current_path
               | None => ret topic_listing
               end
           end
      else ret topic_listing
  end.

Definition scrape_topic_listing (fuel : nat) (forum_url current_path : str) : M unit :=
  emit (Enter forum_url current_path) ;;;
  topic_listing <- topic_pages fuel [] forum_url current_path ;;
  write_to_file (path_join current_path LISTING_TXT) (join NL topic_listing).

(** *** scrape_forum_index *)

(** One iteration of [for subforum_link in subforum_links]. *)
Definition subforum_step (fuel : nat) (url forum_path : str) (soup : node)
           (all_forums_found : list str) (subforum_link : nat) : M (list str) :=
  let subforum_name := get_text [] soup subforum_link in
  if nonempty subforum_name
  then href <- item HREF soup subforum_link ;;
       let subforum_url := resolve_url urljoin url href in
       emit (Print (ProcessingSubForum subforum_name)) ;;;
       let all_forums_found :=
         all_forums_found ++ [lit "  - " ++ subforum_name ++ BAR ++ subforum_url] in
       scrape_topic_listing fuel subforum_url
         (path_join forum_path (sanitize_filename subforum_name)) ;;;
       ret all_forums_found
  else ret all_forums_found.

(** One iteration of [for row in rows]. *)
Definition forum_row (fuel : nat) (url current_path : str) (soup : node)
           (all_forums_found : list str) (row : nat) : M (list str) :=
  match select_one FORUM_LINK soup row with
  | None => ret all_forums_found
  | Some main_forum_link_tag =>
      let forum_name := get_text [] soup main_forum_link_tag in
      href <- item HREF soup main_forum_link_tag ;;
      let forum_url := resolve_url urljoin url href in
      if existsb (contains forum_url) all_forums_found
      then ret all_forums_found
      else
        emit (Print (ProcessingForum forum_name)) ;;;
        let all_forums_found :=
          all_forums_found ++ [forum_name ++ BAR ++ forum_url] in
        let forum_path := path_join current_path (sanitize_filename forum_name) in
        scrape_topic_listing fuel forum_url forum_path ;;;
        match find_parent TD None soup main_forum_link_tag with
        | None => ret all_forums_found
        | Some parent_td =>
            match find_first SPAN (Some DESC) soup parent_td with
            | None => ret all_forums_found
            | Some desc_span =>
                for_each (subforum_step fuel url forum_path soup)
                         (select SUBFORUM_LINK soup desc_span) all_forums_found
            end
        end
  end.

Definition scrape_forum_index (fuel : nat) (url current_path : str) : M (list str) :=
  soup <- make_soup url ;;
  match soup with
  | None => ret []
  | Some soup =>
      for_each
        (fun all_forums_found category_table =>
           for_each (forum_row fuel url current_path soup)
                    (select ROWS soup category_table) all_forums_found)
        (select TABLES soup (root_id soup)) []
  end.

End Crawler.

(** *** What the index crawler records and crawls, as a pure plan *)

Record plan : Type := Plan {
  entries : list str;          (* the listing entries, in order *)
  calls : list (str * str)     (* the crawls: forum URL and output path *)
}.

Definition empty_plan : plan := Plan [] [].

Definition href_of (soup : node) (link : nat) : str :=
  match attr HREF soup link with
  | Some h => h
  | None => []
  end.

Definition recorded (u : str) (p : plan) : bool :=
  existsb (contains u) (entries p).

Definition SUB_INDENT : str := Eval cbv in lit "  - ".

Section IndexPlan.
Variable urljoin : str -> str -> str.

(** The sub-forum links of the row whose forum link is [link]. *)
Definition subforum_links (soup : node) (link : nat) : list nat :=
  match find_parent TD None soup link with
  | None => []
  | Some parent_td =>
      match find_first SPAN (Some DESC) soup parent_td with
      | None => []
      | Some desc_span => select SUBFORUM_LINK soup desc_span
      end
  end.

(** A sub-forum link without a name is passed over; a named one is
    recorded and crawled, whatever the entries recorded so far. *)
Definition plan_sub (url forum_path : str) (soup : node)
           (p : plan) (link : nat) : plan :=
  let name := get_text [] soup link in
  if nonempty name
  then let u := resolve_url urljoin url (href_of soup link) in
       Plan (entries p ++ [SUB_INDENT ++ name ++ BAR ++ u])
            (calls p ++ [(u, path_join forum_path (sanitize_filename name))])
  else p.

(** A row whose forum URL is a substring of a recorded entry is passed over
    with its sub-forum links; any other forum is recorded and crawled, then
    its sub-forum links are visited. *)
Definition plan_row (url current_path : str) (soup : node)
           (p : plan) (row : nat) : plan :=
  match select_one FORUM_LINK soup row with
  | None => p
  | Some link =>
      let name := get_text [] soup link in
      let u := resolve_url urljoin url (href_of soup link) in
      if recorded u p then p
      else
        let forum_path := path_join current_path (sanitize_filename name) in
        fold_left (plan_sub url forum_path soup) (subforum_links soup link)
                  (Plan (entries p ++ [name ++ BAR ++ u])
                        (calls p ++ [(u, forum_path)]))
  end.

(** The rows of the index page, table after table. *)
Definition index_plan (url current_path : str) (soup : node) : plan :=
  fold_left
    (fun p table =>
       fold_left (plan_row url current_path soup) (select ROWS soup table) p)
    (select TABLES soup (root_id soup)) empty_plan.




End IndexPlan.

(** *** A sample site *)

Section SampleSite.
Local Open Scope string_scope.
Local Open Scope list_scope.

(** Second page of the sample topic: one post without author and date. *)
Definition sample_post2 : node :=
  E 0 "[document]" [] []
    [ E 1 "div" ["post_wrap"] []
        [ E 2 "div" ["post"; "entry-content"] [] [T "second page"] ] ].

(** First page of the sample topic: [sample_post] with a next link. *)
Definition sample_post1 : node :=
  E 0 "[document]" [] []
    (children sample_post
     ++ [E 20 "a" [] [("rel", "next"); ("href", "http://a/?showtopic=1&page=2")] [T "Next"]]).

(** A topic whose only page links to a page that cannot be fetched. *)
Definition sample_post3 : node :=
  E 0 "[document]" [] []
    [ E 1 "div" ["post_wrap"] []
        [ E 2 "h3" ["author"] [] [T "carol"];
          E 3 "div" ["post"; "entry-content"] [] [T "only page"] ];
      E 4 "a" [] [("rel", "next"); ("href", "http://a/?showtopic=2")] [T "Next"] ].

(** A forum page with two topics; the second one cannot be fetched. *)
Definition sample_forum : node :=
  E 0 "[document]" [] []
    [ E 1 "table" ["ipb_table"] []
        [ E 2 "tr" ["header"] [] [E 3 "th" [] [] [T "Topics"]];
          E 4 "tr" ["row1"] []
            [ E 5 "td" ["col_f_topic"] []
                [E 6 "a" [] [("href", "http://a/?showtopic=1")] [T "First: topic?"]];
              E 7 "td" ["col_f_lastact"] [] [T "Last post 12 May 2016 by bob"] ];
          E 8 "tr" ["row2"] []
            [ E 9 "td" ["col_f_topic"] []
                [E 10 "a" [] [("href", "http://a/?showtopic=2")] [T "Gone"]] ] ] ].

(** An index page: one forum with two sub-forum links, the first without
    a name; then the same forum once more. *)
Definition sample_index : node :=
  E 0 "[document]" [] []
    [ E 1 "table" ["ipb_table"] []
        [ E 2 "tr" [] []
            [ E 3 "td" [] []
                [ E 4 "h4" [] [] [E 5 "a" [] [("href", "http://a/?showforum=1")] [T "General"]];
                  E 6 "span" ["desc"] []
                    [ E 7 "a" [] [("href", "http://a/?showforum=7")] [];
                      E 8 "a" [] [("href", "http://a/?showforum=2")] [T "Help"] ] ] ];
          E 10 "tr" [] []
            [ E 11 "td" [] []
                [ E 12 "h4" [] [] [E 13 "a" [] [("href", "http://a/?showforum=1")] [T "General"]] ] ] ] ].

(** An index page whose forum lists the same sub-forum twice. *)
Definition sample_index_twice : node :=
  E 0 "[document]" [] []
    [ E 1 "table" ["ipb_table"] []
        [ E 2 "tr" [] []
            [ E 3 "td" [] []
                [ E 4 "h4" [] [] [E 5 "a" [] [("href", "http://a/?showforum=1")] [T "General"]];
                  E 6 "span" ["desc"] []
                    [ E 8 "a" [] [("href", "http://a/?showforum=2")] [T "Help"];
                      E 9 "a" [] [("href", "http://a/?showforum=2")] [T "Help"] ] ] ] ] ].

(** A page whose next link has no [href]. *)
Definition sample_broken_next : node :=
  E 0 "[document]" [] [] [E 1 "a" [] [("rel", "next")] [T "Next"]].

(** The sample server: what each URL answers, whatever happened before. *)
Definition sample_site (url : str) : response :=
  if str_eqb url (lit "http://a/index.php") then Answer 200 sample_index
  else if str_eqb url (lit "http://a/twice.php") then Answer 200 sample_index_twice
  else if str_eqb url (lit "http://a/?showforum=1") then Answer 200 sample_forum
  else if str_eqb url (lit "http://a/?showtopic=1") then Answer 200 sample_post1
  else if str_eqb url (lit "http://a/?showtopic=1&page=2") then Answer 200 sample_post2
  else if str_eqb url (lit "http://a/?showtopic=2") then Failure
  else if str_eqb url (lit "http://a/?showtopic=3") then Answer 200 sample_post3
  else Answer 404 (E 0 "[document]" [] [] []).

End SampleSite.

Definition sample_get (t : trace) (url : str) : response := sample_site url.
Definition sample_urljoin (base href : str) : str := href.
Definition fs_accepts (t : trace) (p : str) : bool := true.
Definition fs_accepts_write (t : trace) (p c : str) : bool := true.
Definition fs_refuses (t : trace) (p : str) : bool := false.

(** *** Reading traces *)

(** An attempt fails on a transport failure and on a 4xx or 5xx status. *)
Definition failed (r : response) : bool :=
  match r with
  | Answer status _ | Unparsed status => raise_for_status status
  | Failure => true
  end.



(** What [make_soup] does when all three attempts fail. *)
Definition three_failures (url : str) : trace :=
  [ Print (Fetching url); Sleep 2; Get url; Print (ErrorFetching url);
    Print (RetryingIn 5); Sleep 5;
    Print (Fetching url); Sleep 2; Get url; Print (ErrorFetching url);
    Print (RetryingIn 10); Sleep 10;
    Print (Fetching url); Sleep 2; Get url; Print (ErrorFetching url);
    Print (MaxRetries url) ].

(** How [make_soup] ends on an attempt that did not fail: with the page,
    or with the exception of the parser. *)
Definition delivered (r : response) (t : trace) : outcome (option node) :=
  match r with
  | Answer _ soup => Ok (Some soup) t
  | Unparsed _ => Raised ParserRejectedMarkup t
  | Failure => Ok None t
  end.



(** The events from the start of [make_soup] up to its first, second and
    third request. *)
Definition before_first (url : str) : trace :=
  [Print (Fetching url); Sleep 2].

Definition before_second (url : str) : trace :=
  before_first url
  ++ [Get url; Print (ErrorFetching url); Print (RetryingIn 5); Sleep 5;
      Print (Fetching url); Sleep 2].

Definition before_third (url : str) : trace :=
  before_second url
  ++ [Get url; Print (ErrorFetching url); Print (RetryingIn 10); Sleep 10;
      Print (Fetching url); Sleep 2].

(** Events of the network side: printing, waiting, requesting. *)
Definition net_event (e : event) : bool :=
  match e with
  | Print _ | Sleep _ | Get _ => true
  | _ => false
  end.

(** Events other than the entry into [scrape_topic_listing]. *)
Definition inner_event (e : event) : bool :=
  match e with
  | Enter _ _ => false
  | _ => true
  end.

(** [extends P t o]: the run [o], started on the trace [t], only added
    events that satisfy [P]. *)
Definition extends {A : Type} (P : event -> bool) (t : trace) (o : outcome A) : Prop :=
  match o with
  | Ok _ t' | Raised _ t' => exists seg, t' = t ++ seg /\ forallb P seg = true
  | Timeout => True
  end.

(** Number of directory creations in a trace: one per call of
    [write_to_file]. *)
Definition dirs (seg : trace) : nat :=
  length (filter (fun e => match e with MakeDirs _ _ => true | _ => false end) seg).

(** The entries into [scrape_topic_listing] recorded in a trace. *)
Definition crawls (seg : trace) : list (str * str) :=
  flat_map (fun e => match e with Enter u p => [(u, p)] | _ => [] end) seg.

(** The events of one call of [write_to_file] on the trace [t], and
    whether [ValueError] leaves the call. *)
Definition write_events (os_makedirs : trace -> str -> bool)
           (os_write : trace -> str -> str -> bool)
           (t : trace) (filepath content : str) : trace :=
  let dir := dirname filepath in
  if os_makedirs t dir
  then if valid_path dir
       then MakeDirs dir true
            :: (if valid_path filepath
                then if os_write (t ++ [MakeDirs dir true]) filepath content
                     then [WriteFile filepath content (encodable content)]
                     else [WriteFile filepath content false;
                           Print (ErrorWriting filepath)]
                else [WriteFile filepath content false])
       else [MakeDirs dir false]
  else [MakeDirs dir false; Print (ErrorWriting filepath)].

Definition write_raises (os_makedirs : trace -> str -> bool)
           (os_write : trace -> str -> str -> bool)
           (t : trace) (filepath content : str) : bool :=
  let dir := dirname filepath in
  os_makedirs t dir
  && (negb (valid_path dir)
      || negb (valid_path filepath)
      || (os_write (t ++ [MakeDirs dir true]) filepath content
          && negb (encodable content))).

(** The files that a piece of trace left written, with their text. *)
Definition written (seg : trace) : list (str * str) :=
  flat_map (fun e => match e with WriteFile f c true => [(f, c)] | _ => [] end) seg.

(** The run of the post extractor on the first sample topic, started after
    the line that announces the topic. *)
Definition sample_topic_start : trace :=
  [Print (ScrapingTopic (get_text [] sample_forum 6))].

Definition sample_topic_content : str :=
  Eval vm_compute in
    match scrape_post_content sample_urljoin ascii_digit sample_get 3
            (lit "http://a/?showtopic=1") sample_topic_start with
    | Ok c _ => c
    | _ => []
    end.

Definition sample_topic_trace : trace :=
  Eval vm_compute in
    match scrape_post_content sample_urljoin ascii_digit sample_get 3
            (lit "http://a/?showtopic=1") sample_topic_start with
    | Ok _ t => t
    | _ => []
    end.

(** [counted t n o]: the run [o], started on [t] with a listing of [n]
    lines, ends with a listing that grew by one line per call of
    [write_to_file]. *)
Definition counted (t : trace) (n : nat) (o : outcome (list str)) : Prop :=
  match o with
  | Ok l t' => exists seg, t' = t ++ seg /\ length l = n + dirs seg
  | _ => True
  end.

(** [tracks t p q o]: the run [o] of a piece of the index crawler, started
    on the trace [t] with the entries of [p].  When it returns, it returns
    the entries of [q] and has entered the crawls that [q] has in addition
    to [p], in order.  When an exception leaves it, it has entered the
    first of those crawls, in order. *)
Definition tracks (t : trace) (p q : plan) (o : outcome (list str)) : Prop :=
  match o with
  | Ok found t' =>
      found = entries q
      /\ exists seg, t' = t ++ seg /\ calls q = calls p ++ crawls seg
  | Raised _ t' =>
      exists seg rest, t' = t ++ seg /\ calls q = calls p ++ crawls seg ++ rest
  | Timeout => True
  end.

(** [started first t o]: the run [o], started on the trace [t], if it
    ends, began with the events [first]. *)
Definition started {A : Type} (first : trace) (t : trace) (o : outcome A) : Prop :=
  match o with
  | Ok _ t' | Raised _ t' => exists seg, t' = t ++ first ++ seg
  | Timeout => True
  end.

(** The value a run returns, when it returns one. *)
Definition result {A : Type} (o : outcome A) : option A :=
  match o with
  | Ok a _ => Some a
  | _ => None
  end.

Definition final_trace {A : Type} (o : outcome A) : trace :=
  match o with
  | Ok _ t | Raised _ t => t
  | Timeout => []
  end.

(** The crawl of the sample index, and of the index that lists a sub-forum
    twice, on a filesystem that accepts everything. *)
Definition sample_index_run : outcome (list str) :=
  scrape_forum_index sample_urljoin ascii_digit ascii_word sample_get
    fs_accepts fs_accepts_write 5 (lit "http://a/index.php") (lit "forums") [].

Definition sample_twice_run : outcome (list str) :=
  scrape_forum_index sample_urljoin ascii_digit ascii_word sample_get
    fs_accepts fs_accepts_write 5 (lit "http://a/twice.php") (lit "forums") [].

Definition sample_index_found : list str :=
  Eval vm_compute in match result sample_index_run with Some l => l | None => [] end.

Definition sample_index_trace : trace :=
  Eval vm_compute in final_trace sample_index_run.

(** ** Further notions *)

(** A name that [sanitize_filename] has nothing to do on: no blank, no
    invalid character, no two underscores in a row, at most 100
    characters. *)
Definition clean_name (x : str) : Prop :=
  Forall (fun c => isspace c = false) x
  /\ Forall (fun c => invalid_char c = false) x
  /\ (forall a b, x <> a ++ [UNDERSCORE; UNDERSCORE] ++ b)
  /\ length x <= 100.

(** A server on which every page is [sample_broken_next]. *)
Definition broken_get (t : trace) (url : str) : response :=
  Answer 200 sample_broken_next.

(** *** Order and place of the events *)

(** [allowed prev e]: the event [e] may follow [prev].  A request comes
    right after the wait of [REQUEST_DELAY_SECONDS]; a file is written right
    after its directory was created. *)
Definition allowed (prev : option event) (e : event) : bool :=
  match e with
  | Get _ =>
      match prev with
      | Some (Sleep n) => N.eqb n REQUEST_DELAY_SECONDS
      | _ => false
      end
  | WriteFile f _ _ =>
      match prev with
      | Some (MakeDirs d true) => str_eqb d (dirname f)
      | _ => false
      end
  | _ => true
  end.

Fixpoint orderly_from (prev : option event) (seg : trace) : bool :=
  match seg with
  | [] => true
  | e :: rest => allowed prev e && orderly_from (Some e) rest
  end.

Definition orderly (seg : trace) : Prop := orderly_from None seg = true.

(** Every request of [seg] comes right after the politeness wait. *)
Definition polite (seg : trace) : Prop :=
  forall pre url post,
    seg = pre ++ Get url :: post ->
    exists pre', pre = pre' ++ [Sleep REQUEST_DELAY_SECONDS].

(** Every write of [seg] comes right after the successful creation of the
    directory of the file. *)
Definition prepared (seg : trace) : Prop :=
  forall pre f c ok post,
    seg = pre ++ WriteFile f c ok :: post ->
    exists pre', pre = pre' ++ [MakeDirs (dirname f) true].

(** [grows Q t o]: the events that the run [o] added to [t] satisfy [Q]. *)
Definition grows {A : Type} (Q : trace -> Prop) (t : trace) (o : outcome A) : Prop :=
  match o with
  | Ok _ t' | Raised _ t' => exists seg, t' = t ++ seg /\ Q seg
  | Timeout => True
  end.

(** The files written have paths that start with [root]. *)
Definition under (root : str) (e : event) : bool :=
  match e with
  | WriteFile f _ _ => startswith root f
  | _ => true
  end.

(** *** The signature of a post *)

(** An image element. *)
Definition is_image (n : node) : bool := matches [[Compound (Some IMG) [] []]] [] n.

(** The text nodes of [n] that lie in no element satisfying [B] below [n],
    in document order. *)
Fixpoint outside (B : node -> bool) (n : node) : list str :=
  match n with
  | Text s => [s]
  | Special _ => []
  | Elem _ _ _ _ ks => flat_map (fun k => if B k then [] else outside B k) ks
  end.

(** [signature_content] for a signature block that was found: the images
    are removed from the block, its text is read and trimmed. *)
Definition signature_text (soup : node) (signature_div : nat) : str :=
  let soup := decompose_all (find_all IMG None soup signature_div) soup in
  strip (get_text NL soup signature_div).

(** *** The program *)

Definition BASE_URL : str :=
  Eval cbv in lit "https://web.archive.org/web/20160501142300/http://gmc.yoyogames.com/".
Definition OUTPUT_DIR : str := Eval cbv in lit "forums".
Definition INDEX_PHP : str := Eval cbv in lit "index.php".

(** The lines that the main block prints itself. *)
Inductive main_msg : Type :=
| Starting
| ScrapingComplete
| AllDataSaved (dir : str)
| NoForumsFound.

(** What the program does, from its start: its own lines and the events of
    the functions it calls. *)
Inductive line : Type :=
| Said (m : main_msg)
| Did (e : event).

(** How the program ends: it exits, it dies of the [OSError] that
    [os.makedirs] raised in the main block, it dies of an exception that
    left [scrape_forum_index], or the model ran out of loop iterations. *)
Inductive main_outcome : Type :=
| Exited (out : list line)
| Died_OSError (out : list line)
| Died (e : exn) (out : list line)
| Out_of_fuel.

Section Program.
Variable urljoin : str -> str -> str.
Variable isdecimal : char -> bool.
Variable isword : char -> bool.
Variable http_get : trace -> str -> response.
Variable os_makedirs : trace -> str -> bool.
Variable os_write : trace -> str -> str -> bool.

(** The main block.  The creation of [OUTPUT_DIR] is not guarded: when it
    fails the program stops there. *)
Definition main (fuel : nat) : main_outcome :=
  let made := os_makedirs [] OUTPUT_DIR in
  let t := [MakeDirs OUTPUT_DIR made] in
  if made
  then match scrape_forum_index urljoin isdecimal isword http_get os_makedirs os_write
               fuel (BASE_URL ++ INDEX_PHP) OUTPUT_DIR t with
       | Ok all_forums t =>
           match all_forums with
           | _ :: _ =>
               match write_to_file os_makedirs os_write
                       (path_join OUTPUT_DIR LISTING_TXT) (join NL all_forums) t with
               | Ok _ t =>
                   Exited (Said Starting :: map Did t
                           ++ [Said ScrapingComplete; Said (AllDataSaved OUTPUT_DIR)])
               | Raised e t => Died e (Said Starting :: map Did t)
               | Timeout => Out_of_fuel
               end
           | [] => Exited (Said Starting :: map Did t ++ [Said NoForumsFound])
           end
       | Raised e t => Died e (Said Starting :: map Did t)
       | Timeout => Out_of_fuel
       end
  else Died_OSError (Said Starting :: map Did t).

End Program.

(** The lines of an ended run. *)
Definition output_of (o : main_outcome) : list line :=
  match o with
  | Exited out | Died_OSError out | Died _ out => out
  | Out_of_fuel => []
  end.

(** A server that never answers. *)
Definition dead_get (t : trace) (url : str) : response := Failure.

(** The sample server reached through the start URL of the program. *)
Definition archive_get (t : trace) (url : str) : response :=
  if str_eqb url (BASE_URL ++ INDEX_PHP) then Answer 200 sample_index
  else sample_site url.

(** [paired found cs]: each entry of [found] ends with the separator and the
    URL of the crawl at the same place in [cs]. *)
Definition paired (found : list str) (cs : list (str * str)) : Prop :=
  Forall2 (fun entry call => exists label, entry = label ++ BAR ++ fst call) found cs.

(** A character allowed in the match of the date pattern. *)
Definition date_char (isdecimal isword : char -> bool) (c : char) : bool :=
  isdecimal c || isspace c || isword c.

Section ForumRuns.
Variable urljoin : str -> str -> str.
Variable isdecimal : char -> bool.
Variable isword : char -> bool.
Variable http_get : trace -> str -> response.
Variable os_makedirs : trace -> str -> bool.
Variable os_write : trace -> str -> str -> bool.

(** [listing_pages fuel path t u l n t' u' l']: from the trace [t], the URL
    [u] and the listing [l], [n] pages of a forum are fetched one after the
    other and their rows processed, each page found through the next link
    of the one before; [t'], [u'] and [l'] are the trace, the next URL and
    the listing after the last of them. *)
Inductive listing_pages (fuel : nat) (path : str)
  : trace -> str -> list str -> nat -> trace -> str -> list str -> Prop :=
| listed_none (t : trace) (u : str) (l : list str) :
    listing_pages fuel path t u l 0 t u l
| listed_page (t : trace) (u : str) (l : list str) (soup : node) (t1 : trace)
              (l1 : list str) (t2 : trace) (u1 : str) (n : nat)
              (t3 : trace) (u3 : str) (l3 : list str) :
    nonempty u = true ->
    make_soup http_get u t = Ok (Some soup) t1 ->
    for_each (topic_row urljoin isdecimal isword http_get os_makedirs os_write
                        (n + fuel) u path soup)
             (select TOPIC_ROWS soup (root_id soup)) l t1
    = Ok l1 t2 ->
    next_page urljoin u soup t2 = Ok (Some u1) t2 ->
    listing_pages fuel path t2 u1 l1 n t3 u3 l3 ->
    listing_pages fuel path t u l (S n) t3 u3 l3.

(** [listing_ends fuel path t u l t' l']: from the trace [t], the URL [u]
    and the listing [l], the loop over the pages of a forum is left without
    an exception, with the trace [t'] and the listing [l']: the URL is
    empty; or its page cannot be fetched; or its page is fetched, its rows
    are processed and no next URL comes out of it (no next link, or one
    whose [href] is empty). *)
Inductive listing_ends (fuel : nat) (path : str)
  : trace -> str -> list str -> trace -> list str -> Prop :=
| ends_no_url (t : trace) (u : str) (l : list str) :
    nonempty u = false ->
    listing_ends fuel path t u l t l
| ends_no_page (t : trace) (u : str) (l : list str) (t1 : trace) :
    nonempty u = true ->
    make_soup http_get u t = Ok None t1 ->
    listing_ends fuel path t u l t1 l
| ends_last_page (t : trace) (u : str) (l : list str) (soup : node) (t1 : trace)
                 (l1 : list str) (t2 : trace) :
    nonempty u = true ->
    make_soup http_get u t = Ok (Some soup) t1 ->
    for_each (topic_row urljoin isdecimal isword http_get os_makedirs os_write
                        fuel u path soup)
             (select TOPIC_ROWS soup (root_id soup)) l t1
    = Ok l1 t2 ->
    next_page urljoin u soup t2 = Ok None t2 ->
    listing_ends fuel path t u l t2 l1.

End ForumRuns.

(** *** A forum of two pages *)

Section SamplePaged.
Local Open Scope string_scope.
Local Open Scope list_scope.

(** The first page of a forum: one topic, and a link to a second page. *)
Definition sample_forum_paged : node :=
  E 0 "[document]" [] []
    [ E 1 "table" ["ipb_table"] []
        [ E 4 "tr" ["row1"] []
            [ E 5 "td" ["col_f_topic"] []
                [E 6 "a" [] [("href", "http://a/?showtopic=1")] [T "First: topic?"]];
              E 7 "td" ["col_f_lastact"] [] [T "Last post 12 May 2016 by bob"] ] ];
      E 11 "a" [] [("rel", "next"); ("href", "http://a/?showforum=9&st=30")] [T "Next"] ].

(** The sample server with that forum; its second page cannot be
    fetched. *)
Definition paged_site (url : str) : response :=
  if str_eqb url (lit "http://a/?showforum=9") then Answer 200 sample_forum_paged
  else if str_eqb url (lit "http://a/?showforum=9&st=30") then Failure
  else sample_site url.

End SamplePaged.

Definition paged_get (t : trace) (url : str) : response := paged_site url.

(** The run of the listing crawler on that forum: the trace when the first
    page is fetched, the lines and the trace after its rows, and the trace
    after the failed fetch of the second page. *)
Definition paged_start : trace :=
  [Enter (lit "http://a/?showforum=9") (lit "forums/Paged")].

Definition paged_fetched : trace :=
  Eval vm_compute in
    final_trace (make_soup paged_get (lit "http://a/?showforum=9") paged_start).

Definition paged_lines : list str :=
  Eval vm_compute in
    match for_each (topic_row sample_urljoin ascii_digit ascii_word paged_get
                              fs_accepts fs_accepts_write 4
                              (lit "http://a/?showforum=9") (lit "forums/Paged")
                              sample_forum_paged)
                   (select TOPIC_ROWS sample_forum_paged (root_id sample_forum_paged))
                   [] paged_fetched with
    | Ok l _ => l
    | _ => []
    end.

Definition paged_rows : trace :=
  Eval vm_compute in
    final_trace
      (for_each (topic_row sample_urljoin ascii_digit ascii_word paged_get
                           fs_accepts fs_accepts_write 4
                           (lit "http://a/?showforum=9") (lit "forums/Paged")
                           sample_forum_paged)
                (select TOPIC_ROWS sample_forum_paged (root_id sample_forum_paged))
                [] paged_fetched).

Definition paged_end : trace :=
  Eval vm_compute in
    final_trace (make_soup paged_get (lit "http://a/?showforum=9&st=30") paged_rows).

(** * Verified properties *)

(** ** Strings *)

Lemma isspace_underscore : isspace UNDERSCORE = false.
Proof. reflexivity. Qed.

Lemma invalid_underscore : invalid_char UNDERSCORE = false.
Proof. reflexivity. Qed.

Lemma char_eqb_eq (a b : char) : char_eqb a b = true <-> a = b.
Proof. apply N.eqb_eq. Qed.

Lemma lstrip_id (s : str) :
  Forall (fun c => isspace c = false) s -> lstrip s = s.
Proof.
  intros H. destruct H as [|c t Hc _]; simpl; [reflexivity|].
  now rewrite Hc.
Qed.

Lemma strip_id (s : str) :
  Forall (fun c => isspace c = false) s -> strip s = s.
Proof.
  intros H. unfold strip, rstrip.
  rewrite (lstrip_id H).
  rewrite lstrip_id by now apply Forall_rev.
  apply rev_involutive.
Qed.

(** The run semantics of [sub_runs]: a maximal run of class characters in
    front of the rest of the input is replaced by one underscore. *)
Lemma sub_runs_consume (run rest : str) (b : bool) :
  Forall (fun c => space_or_us c = true) run ->
  sub_runs true (run ++ rest) = sub_runs true rest.
Proof.
  induction 1 as [|c run Hc _ IH]; simpl; [reflexivity|].
  now rewrite Hc.
Qed.

Lemma collapse_runs_run (c : char) (run rest : str) :
  Forall (fun c => space_or_us c = true) (c :: run) ->
  match rest with [] => True | d :: _ => space_or_us d = false end ->
  collapse_runs ((c :: run) ++ rest) = UNDERSCORE :: collapse_runs rest.
Proof.
  intros Hrun Hrest. inversion Hrun as [|? ? Hc Hr]; subst.
  unfold collapse_runs. simpl. rewrite Hc.
  rewrite (sub_runs_consume rest true Hr).
  destruct rest as [|d rest]; simpl; [reflexivity|].
  now rewrite Hrest.
Qed.

(** [tidy b s]: [s] holds no invalid character, no whitespace, and no two
    adjacent underscores; [b] tells that an underscore precedes [s]. *)
Fixpoint tidy (b : bool) (s : str) : bool :=
  match s with
  | [] => true
  | c :: t =>
      if space_or_us c
      then char_eqb c UNDERSCORE && negb b && tidy true t
      else negb (invalid_char c) && tidy false t
  end.

Lemma tidy_sub_runs (s : str) (b : bool) :
  Forall (fun c => invalid_char c = false) s -> tidy b (sub_runs b s) = true.
Proof.
  intros H. revert b. induction H as [|c t Hc _ IH]; intros b; simpl.
  - reflexivity.
  - destruct (space_or_us c) eqn:E.
    + destruct b; [apply IH|]. simpl. apply IH.
    + simpl. rewrite E, Hc. simpl. apply IH.
Qed.

Lemma sub_invalid_valid (s : str) :
  Forall (fun c => invalid_char c = false) (sub_invalid s).
Proof.
  unfold sub_invalid. apply Forall_map, Forall_forall. intros c _.
  destruct (invalid_char c) eqn:E; [reflexivity | exact E].
Qed.

Lemma tidy_firstn (n : nat) (s : str) (b : bool) :
  tidy b s = true -> tidy b (firstn n s) = true.
Proof.
  revert s b. induction n as [|n IH]; intros [|c t] b H; simpl; try reflexivity.
  simpl in H. destruct (space_or_us c).
  - apply andb_true_iff in H as [H1 H2]. rewrite H1. simpl. now apply IH.
  - apply andb_true_iff in H as [H1 H2]. rewrite H1. simpl. now apply IH.
Qed.

Lemma tidy_valid (s : str) (b : bool) :
  tidy b s = true -> Forall (fun c => invalid_char c = false) s.
Proof.
  revert b. induction s as [|c t IH]; intros b H; constructor; simpl in H.
  - destruct (space_or_us c).
    + apply andb_true_iff in H as [H _]. apply andb_true_iff in H as [H _].
      apply char_eqb_eq in H. subst c. reflexivity.
    + apply andb_true_iff in H as [H _]. now apply negb_true_iff in H.
  - destruct (space_or_us c); apply andb_true_iff in H as [_ H]; eauto.
Qed.

Lemma tidy_nospace (s : str) (b : bool) :
  tidy b s = true -> Forall (fun c => isspace c = false) s.
Proof.
  revert b. induction s as [|c t IH]; intros b H; constructor; simpl in H.
  - destruct (space_or_us c) eqn:E.
    + apply andb_true_iff in H as [H _]. apply andb_true_iff in H as [H _].
      apply char_eqb_eq in H. subst c. reflexivity.
    + unfold space_or_us in E. now apply orb_false_iff in E as [E _].
  - destruct (space_or_us c); apply andb_true_iff in H as [_ H]; eauto.
Qed.

Lemma sub_invalid_id (s : str) :
  Forall (fun c => invalid_char c = false) s -> sub_invalid s = s.
Proof.
  unfold sub_invalid. induction 1 as [|c t Hc _ IH]; simpl; [reflexivity|].
  now rewrite Hc, IH.
Qed.

Lemma sub_runs_id (s : str) (b : bool) :
  tidy b s = true -> sub_runs b s = s.
Proof.
  revert b. induction s as [|c t IH]; intros b H; simpl in *; [reflexivity|].
  destruct (space_or_us c).
  - apply andb_true_iff in H as [H1 H2]. apply andb_true_iff in H1 as [H0 H1].
    apply char_eqb_eq in H0. apply negb_true_iff in H1. subst b c.
    now rewrite (IH true H2).
  - apply andb_true_iff in H as [_ H]. now rewrite (IH false H).
Qed.

Lemma sanitize_tidy (name : str) : tidy false (sanitize_filename name) = true.
Proof.
  unfold sanitize_filename, collapse_runs.
  apply tidy_firstn, tidy_sub_runs, sub_invalid_valid.
Qed.

(** C8: the output of [sanitize_filename] holds none of the nine invalid
    characters and at most 100 characters; the empty name is mapped to the
    empty name, and the name A, three spaces, B to A_B. *)
Theorem sanitize_filename_safe :
  (forall name,
      Forall (fun c => invalid_char c = false) (sanitize_filename name)
      /\ length (sanitize_filename name) <= 100)
  /\ sanitize_filename [] = []
  /\ sanitize_filename (lit "A   B") = lit "A_B".
Proof.
  split; [|split; reflexivity].
  intros name. split.
  - exact (tidy_valid _ _ (sanitize_tidy name)).
  - unfold sanitize_filename. rewrite length_firstn. lia.
Qed.

(** C9: [sanitize_filename] is idempotent. *)
Theorem sanitize_filename_idempotent (x : str) :
  sanitize_filename (sanitize_filename x) = sanitize_filename x.
Proof.
  pose proof (sanitize_tidy x) as T.
  assert (L : length (sanitize_filename x) <= 100)
    by (unfold sanitize_filename; rewrite length_firstn; lia).
  remember (sanitize_filename x) as y.
  unfold sanitize_filename, collapse_runs.
  rewrite (strip_id (tidy_nospace _ _ T)).
  rewrite (sub_invalid_id (tidy_valid _ _ T)).
  rewrite (sub_runs_id _ _ T).
  now apply firstn_all2.
Qed.

(** ** URL resolver *)

(** C1: an href that starts with http is returned unchanged; one that
    starts with /web/ is appended to the archive origin; any other href is
    joined to the base by the standard relative join. *)
Theorem resolve_url_rules (urljoin : str -> str -> str) (base href : str) :
  href <> [] ->
  (startswith HTTP href = true -> resolve_url urljoin base href = href)
  /\ (startswith WEB href = true ->
      resolve_url urljoin base href = ARCHIVE_ORIGIN ++ href)
  /\ (startswith HTTP href = false -> startswith WEB href = false ->
      resolve_url urljoin base href = urljoin base href).
Proof.
  intros _. unfold resolve_url. repeat split.
  - intros ->. reflexivity.
  - intros H. destruct (startswith HTTP href) eqn:E.
    + destruct href as [|c t]; [discriminate|].
      unfold HTTP, WEB in E, H. cbn [startswith] in E, H.
      apply andb_true_iff in E as [E _], H as [H _].
      apply char_eqb_eq in E, H. congruence.
    + now rewrite H.
  - intros -> ->. reflexivity.
Qed.

Lemma resolve_url_rules_witness :
  resolve_url sample_urljoin (lit "http://a/") (lit "http://b/x") = lit "http://b/x"
  /\ resolve_url sample_urljoin (lit "http://a/") (lit "/web/x")
     = ARCHIVE_ORIGIN ++ lit "/web/x"
  /\ resolve_url sample_urljoin (lit "http://a/") (lit "x?p=2")
     = sample_urljoin (lit "http://a/") (lit "x?p=2").
Proof.
  split; [|split].
  - refine (proj1 (@resolve_url_rules sample_urljoin (lit "http://a/")
                     (lit "http://b/x") _) _); [discriminate | reflexivity].
  - refine (proj1 (proj2 (@resolve_url_rules sample_urljoin (lit "http://a/")
                            (lit "/web/x") _)) _); [discriminate | reflexivity].
  - refine (proj2 (proj2 (@resolve_url_rules sample_urljoin (lit "http://a/")
                            (lit "x?p=2") _)) _ _);
      [discriminate | reflexivity | reflexivity].
Defined.

(** ** Posted date *)

Example clean_date_run :
  clean_date ascii_digit (lit "Posted 12 May 2016 - 10:15 AM #12")
  = lit "12 May 2016 - 10:15 AM".
Proof. reflexivity. Qed.

Example clean_date_spec_run :
  clean_date_spec ascii_digit (lit "Posted 12 May 2016 - 10:15 AM #12")
  = lit "12 May 2016 - 10:15 AM".
Proof. reflexivity. Qed.

(** C2, as stated, fails: the pattern is not anchored, so a post number in
    front of the word Posted is removed too, although it is neither a
    leading [Posted ] nor a trailing number. *)
Lemma clean_date_not_prefix_suffix :
  clean_date ascii_digit (lit "#2 Posted 12 May") = lit "12 May"
  /\ clean_date_spec ascii_digit (lit "#2 Posted 12 May") = lit "#2 Posted 12 May"
  /\ clean_date ascii_digit (lit "#2 Posted 12 May")
     <> clean_date_spec ascii_digit (lit "#2 Posted 12 May").
Proof. repeat split; try reflexivity. discriminate. Qed.

Lemma startswith_boundary (p x r : str) (h : char) :
  ~ In h p -> startswith p (x ++ h :: r) = true -> startswith p x = true.
Proof.
  revert x. induction p as [|a p IH]; intros x Hh H; [reflexivity|].
  destruct x as [|y x]; simpl in H; apply andb_true_iff in H as [H1 H2].
  - apply char_eqb_eq in H1. subst. exfalso. apply Hh. now left.
  - simpl. rewrite H1. simpl. apply IH; [|exact H2].
    intros Hin. apply Hh. now right.
Qed.

Section PostedDateFacts.
Variable isdecimal : char -> bool.
Hypothesis hash_not_decimal : isdecimal HASH = false.

Lemma digits_run_tail (t tl : str) :
  number_tail tl ->
  (0 <? digits_run isdecimal (t ++ tl)) = (0 <? digits_run isdecimal t).
Proof.
  intros Htl. destruct t as [|x t]; simpl.
  - destruct Htl as [->|[r ->]]; simpl; [reflexivity|].
    now rewrite hash_not_decimal.
  - now destruct (isdecimal x).
Qed.

Lemma posted_tail (s tl : str) :
  number_tail tl ->
  startswith POSTED s = false -> startswith POSTED (s ++ tl) = false.
Proof.
  intros [->|[r ->]] H.
  - now rewrite app_nil_r.
  - destruct (startswith POSTED (s ++ HASH :: r)) eqn:E; [|reflexivity].
    apply startswith_boundary in E; [congruence|].
    unfold POSTED, HASH. simpl. intros H'.
    repeat (destruct H' as [H'|H']; [discriminate|]). exact H'.
Qed.

Lemma sub_posted_free (d tl : str) :
  number_tail tl -> match_free isdecimal d = true ->
  sub_posted isdecimal 0 (d ++ tl) = d ++ sub_posted isdecimal 0 tl.
Proof.
  intros Htl. induction d as [|c t IH]; intros H; [reflexivity|].
  cbn [match_free] in H.
  apply andb_true_iff in H as [H H3]. apply andb_true_iff in H as [H1 H2].
  apply negb_true_iff in H1, H2.
  change ((c :: t) ++ tl) with (c :: (t ++ tl)).
  cbn [sub_posted].
  change (c :: (t ++ tl)) with ((c :: t) ++ tl).
  rewrite (posted_tail _ Htl H1), (digits_run_tail t Htl), H2.
  now rewrite (IH H3).
Qed.

Lemma sub_posted_consume (s : str) :
  sub_posted isdecimal (length s) s = [].
Proof. induction s as [|c t IH]; [reflexivity | exact IH]. Qed.

Lemma digits_run_all (digs : str) :
  Forall (fun c => isdecimal c = true) digs ->
  digits_run isdecimal digs = length digs.
Proof.
  induction 1 as [|c t Hc _ IH]; simpl; [reflexivity|]. now rewrite Hc, IH.
Qed.

Lemma sub_posted_number (digs : str) :
  digs <> [] -> Forall (fun c => isdecimal c = true) digs ->
  sub_posted isdecimal 0 (HASH :: digs) = [].
Proof.
  intros Hne Hd. cbn [sub_posted].
  replace (startswith POSTED (HASH :: digs)) with false by reflexivity.
  rewrite (digits_run_all Hd).
  destruct digs as [|c t]; [congruence|].
  replace (char_eqb HASH HASH && (0 <? length (c :: t))) with true by reflexivity.
  apply sub_posted_consume.
Qed.

Lemma sub_posted_prefix (s : str) :
  sub_posted isdecimal 0 (POSTED ++ s) = sub_posted isdecimal 0 s.
Proof. reflexivity. Qed.
End PostedDateFacts.

Lemma startswith_cut (p s : str) :
  startswith p s = true -> s = p ++ skipn (length p) s.
Proof.
  revert s. induction p as [|a p IH]; intros s H; [reflexivity|].
  destruct s as [|x s]; [discriminate|]. cbn [startswith] in H.
  apply andb_true_iff in H as [Ha H]. apply char_eqb_eq in Ha. subst x.
  cbn [length skipn app]. now rewrite <- (IH s H).
Qed.

Section DeletedFacts.
Variable isdecimal : char -> bool.

Lemma sub_posted_skip (digs s : str) :
  sub_posted isdecimal (length digs) (digs ++ s) = sub_posted isdecimal 0 s.
Proof. induction digs as [|c digs IH]; [reflexivity | exact IH]. Qed.

Lemma digits_run_app (digs s : str) :
  Forall (fun c => isdecimal c = true) digs ->
  (forall c s', s = c :: s' -> isdecimal c = false) ->
  digits_run isdecimal (digs ++ s) = length digs.
Proof.
  intros Hd Hs. induction Hd as [|c digs Hc _ IH]; cbn [app digits_run length].
  - destruct s as [|c s']; [reflexivity|]. cbn [digits_run].
    now rewrite (Hs c s' eq_refl).
  - now rewrite Hc, IH.
Qed.

(** The scan of the program computes what [deleted] specifies. *)
Lemma deleted_sub_posted (s r : str) :
  deleted isdecimal s r -> sub_posted isdecimal 0 s = r.
Proof.
  induction 1 as [|s r _ IH|digs s r Hne Hd Hs _ IH|c s r Hp Hn _ IH].
  - reflexivity.
  - rewrite sub_posted_prefix. exact IH.
  - cbn [sub_posted].
    replace (startswith POSTED (HASH :: digs ++ s)) with false by reflexivity.
    rewrite (digits_run_app Hd Hs).
    destruct digs as [|d digs]; [congruence|].
    replace (char_eqb HASH HASH && (0 <? length (d :: digs))) with true by reflexivity.
    rewrite sub_posted_skip. exact IH.
  - cbn [sub_posted]. rewrite Hp.
    destruct (char_eqb c HASH && (0 <? digits_run isdecimal s)) eqn:E.
    + apply andb_true_iff in E as [Ec Ed]. apply char_eqb_eq in Ec.
      destruct s as [|d s']; [discriminate|]. cbn [digits_run] in Ed.
      now rewrite (Hn Ec d s' eq_refl) in Ed.
    + now rewrite IH.
Qed.

Lemma digits_run_split (s : str) :
  Forall (fun c => isdecimal c = true) (firstn (digits_run isdecimal s) s)
  /\ (forall c s', skipn (digits_run isdecimal s) s = c :: s' -> isdecimal c = false).
Proof.
  induction s as [|c s [IH1 IH2]]; cbn [digits_run].
  - split; [constructor | discriminate].
  - destruct (isdecimal c) eqn:E; cbn [firstn skipn].
    + split; [now constructor | exact IH2].
    + split; [constructor|]. intros c' s' [= <- _]. exact E.
Qed.

(** Every text has its matches deleted in one way. *)
Lemma deleted_total (s : str) : exists r, deleted isdecimal s r.
Proof.
  remember (length s) as n eqn:En. revert s En.
  induction n as [n IH] using lt_wf_ind. intros s En.
  destruct s as [|c s]; [exists []; constructor|].
  destruct (startswith POSTED (c :: s)) eqn:Hp.
  - assert (E : c :: s = POSTED ++ skipn 7 (c :: s))
      by exact (startswith_cut POSTED (c :: s) Hp).
    destruct (IH (length (skipn 7 (c :: s)))) with (s := skipn 7 (c :: s))
      as [r Hr]; [|reflexivity|].
    + subst n. rewrite length_skipn. cbn [length]. lia.
    + exists r. rewrite E. now constructor.
  - destruct (char_eqb c HASH && (0 <? digits_run isdecimal s)) eqn:Hn.
    + apply andb_true_iff in Hn as [Hc Hd]. apply char_eqb_eq in Hc. subst c.
      apply Nat.ltb_lt in Hd.
      destruct (digits_run_split s) as [D1 D2].
      destruct (IH (length (skipn (digits_run isdecimal s) s)))
        with (s := skipn (digits_run isdecimal s) s) as [r Hr]; [|reflexivity|].
      * subst n. rewrite length_skipn. cbn [length]. lia.
      * exists r. rewrite <- (firstn_skipn (digits_run isdecimal s) s) at 1.
        apply deleted_number; trivial.
        intros E. apply (f_equal (@length char)) in E.
        destruct s as [|d s']; [cbn in Hd; lia|].
        cbn [digits_run] in *. destruct (isdecimal d); [discriminate | lia].
    + destruct (IH (length s)) with (s := s) as [r Hr]; [subst n; cbn; lia|reflexivity|].
      exists (c :: r). apply deleted_keep; trivial.
      intros -> d s' ->. cbn [digits_run] in Hn.
      destruct (isdecimal d); [discriminate | reflexivity].
Qed.

End DeletedFacts.

(** C2, amended: the pattern deletes its matches wherever they start, and
    the result is trimmed: the cleaned date is the raw text with every
    match deleted, as [deleted] specifies it, then trimmed.  In particular,
    when the raw text is an optional leading [Posted ], a text [d] in which
    no match starts, and an optional trailing post number, the cleaned date
    is [d] trimmed. *)
Theorem clean_date_posted_number (isdecimal : char -> bool) (raw : str) :
  (exists r, deleted isdecimal raw r)
  /\ (forall r, deleted isdecimal raw r -> clean_date isdecimal raw = strip r)
  /\ (forall (pre suf : bool) (d digs : str),
        isdecimal HASH = false ->
        match_free isdecimal d = true ->
        (suf = true -> digs <> [] /\ Forall (fun c => isdecimal c = true) digs) ->
        raw = (if pre then POSTED else []) ++ d ++ (if suf then HASH :: digs else []) ->
        clean_date isdecimal raw = strip d).
Proof.
  split; [apply deleted_total|]. split.
  - intros r H. unfold clean_date. now rewrite (deleted_sub_posted H).
  - intros pre suf d digs Hh Hfree Hd ->. unfold clean_date. f_equal.
    assert (T : sub_posted isdecimal 0 (d ++ (if suf then HASH :: digs else [])) = d).
    { rewrite sub_posted_free; trivial.
      - destruct suf; [|apply app_nil_r].
        destruct (Hd eq_refl) as [Hne Hall].
        rewrite sub_posted_number by assumption. apply app_nil_r.
      - destruct suf; [right; eauto | now left]. }
    destruct pre; [|exact T].
    now rewrite sub_posted_prefix.
Qed.

Lemma clean_date_posted_number_witness :
  clean_date ascii_digit (lit "#2 Posted 12 May") = strip (lit " 12 May")
  /\ clean_date ascii_digit (lit "Posted 12 May 2016 #12") = strip (lit "12 May 2016 ").
Proof.
  split.
  - apply (proj1 (proj2 (clean_date_posted_number ascii_digit (lit "#2 Posted 12 May")))).
    apply (@deleted_number ascii_digit (lit "2") (lit " Posted 12 May"));
      [discriminate | repeat constructor | now intros c s' [= <- _] |].
    apply deleted_keep; [reflexivity | discriminate |].
    apply (@deleted_posted ascii_digit (lit "12 May")).
    repeat (apply deleted_keep; [reflexivity | discriminate |]).
    apply deleted_end.
  - apply (proj2 (proj2 (clean_date_posted_number ascii_digit
                           (lit "Posted 12 May 2016 #12")))
             true true (lit "12 May 2016 ") (lit "12")).
    + reflexivity.
    + reflexivity.
    + intros _. split; [discriminate | repeat constructor].
    + reflexivity.
Defined.

(** ** Markup trees *)

Lemma node_induction (P : node -> Prop) :
  (forall s, P (Text s)) ->
  (forall s, P (Special s)) ->
  (forall i t cs ats ks, Forall P ks -> P (Elem i t cs ats ks)) ->
  forall n, P n.
Proof.
  intros HT HS HE. fix IH 1. intros [s|s|i t cs ats ks].
  - apply HT.
  - apply HS.
  - apply HE. induction ks as [|k ks IHks]; constructor; [apply IH | exact IHks].
Qed.

Lemma elem_in_remove_where (P Q : nat -> bool) (n : node) :
  elem_in Q (remove_where P n) = elem_in Q n.
Proof. now destruct n. Qed.

Lemma remove_where_ext (P Q : nat -> bool) (n : node) :
  (forall i, P i = Q i) -> remove_where P n = remove_where Q n.
Proof.
  intros E. induction n as [s|s|i t cs ats ks IH] using node_induction;
    try reflexivity.
  simpl. f_equal. induction IH as [|k ks Hk _ IHks]; [reflexivity|].
  simpl. rewrite IHks, Hk. f_equal.
  unfold elem_in. destruct (node_id k); [now rewrite E | reflexivity].
Qed.

Lemma remove_where_none (n : node) : remove_where (fun _ => false) n = n.
Proof.
  induction n as [s|s|i t cs ats ks IH] using node_induction; try reflexivity.
  simpl. f_equal. induction IH as [|k ks Hk _ IHks]; [reflexivity|].
  simpl. rewrite IHks, Hk. unfold elem_in. now destruct (node_id k).
Qed.

Lemma remove_where_twice (P Q : nat -> bool) (n : node) :
  remove_where Q (remove_where P n) = remove_where (fun i => P i || Q i) n.
Proof.
  induction n as [s|s|i t cs ats ks IH] using node_induction; try reflexivity.
  simpl. f_equal. induction IH as [|k ks Hk _ IHks]; [reflexivity|].
  simpl. rewrite flat_map_app, IHks. f_equal.
  unfold elem_in at 2 3. destruct (node_id k) as [j|] eqn:Ej.
  - destruct (P j) eqn:Pj; simpl; [reflexivity|].
    rewrite elem_in_remove_where. unfold elem_in. rewrite Ej, Hk.
    now destruct (Q j).
  - simpl. rewrite elem_in_remove_where. unfold elem_in. rewrite Ej.
    now rewrite Hk.
Qed.

Lemma decompose_remove_where (i : nat) (n : node) :
  decompose i n = remove_where (fun j => Nat.eqb j i) n.
Proof.
  induction n as [s|s|j t cs ats ks IH] using node_induction; try reflexivity.
  simpl. f_equal. induction IH as [|k ks Hk _ IHks]; [reflexivity|].
  simpl. rewrite IHks, Hk. f_equal. now destruct k.
Qed.

Lemma decompose_all_remove_where (l : list nat) (P : nat -> bool) (n : node) :
  decompose_all l (remove_where P n)
  = remove_where (fun i => P i || mem l i) n.
Proof.
  revert P. induction l as [|b l IH]; intros P; simpl.
  - apply remove_where_ext. intros i. now rewrite orb_false_r.
  - unfold decompose_all in IH. rewrite decompose_remove_where, remove_where_twice, IH.
    apply remove_where_ext. intros i. now rewrite orb_assoc.
Qed.

Lemma decompose_all_mem (l : list nat) (n : node) :
  decompose_all l n = remove_where (mem l) n.
Proof.
  rewrite <- (remove_where_none n) at 1.
  now rewrite decompose_all_remove_where.
Qed.

Lemma matches_blocks (anc : list node) (n : node) :
  matches BLOCKS anc n = is_block n.
Proof.
  unfold is_block, matches, BLOCKS, matches_complex. simpl.
  now rewrite !andb_true_r.
Qed.

Lemma is_block_elem (n : node) : is_block n = true -> exists i, node_id n = Some i.
Proof.
  intros H. destruct n; try (cbv in H; discriminate).
  simpl. eauto.
Qed.

Lemma ids_of_app (l l' : list (list node * node)) :
  ids_of (l ++ l') = ids_of l ++ ids_of l'.
Proof. apply flat_map_app. Qed.

Lemma ids_of_walk (anc : list node) (n : node) :
  ids_of (walk anc n) = elem_ids n.
Proof.
  revert anc. induction n as [s|s|i t cs ats ks IH] using node_induction;
    intros anc; try reflexivity.
  cbn [walk elem_ids]. unfold ids_of at 1. cbn [flat_map snd node_id app].
  f_equal. fold (ids_of (flat_map (walk (Elem i t cs ats ks :: anc)) ks)).
  generalize (Elem i t cs ats ks :: anc). intros anc'.
  induction IH as [|k ks' Hk _ IHks]; [reflexivity|].
  cbn [flat_map]. now rewrite ids_of_app, Hk, IHks.
Qed.

Lemma ids_of_descendants (anc : list node) (n : node) :
  ids_of (descendants anc n) = inner_ids n.
Proof.
  unfold descendants, inner_ids.
  induction (children n) as [|k ks IH]; [reflexivity|].
  cbn [flat_map]. now rewrite ids_of_app, ids_of_walk, IH.
Qed.

Lemma walk_subnodes (anc : list node) (n : node) :
  map snd (walk anc n) = subnodes n.
Proof.
  revert anc. induction n as [s|s|i t cs ats ks IH] using node_induction;
    intros anc; try reflexivity.
  cbn [walk subnodes map snd]. f_equal.
  generalize (Elem i t cs ats ks :: anc). intros anc'.
  induction IH as [|k ks' Hk _ IHks]; [reflexivity|].
  cbn [flat_map]. now rewrite map_app, Hk, IHks.
Qed.

Lemma descendants_subnodes (anc : list node) (n : node) :
  map snd (descendants anc n) = flat_map subnodes (children n).
Proof.
  unfold descendants. induction (children n) as [|k ks IH]; [reflexivity|].
  cbn [flat_map]. now rewrite map_app, walk_subnodes, IH.
Qed.

Lemma ids_of_in (l : list (list node * node)) (i : nat) :
  In i (ids_of l) <-> exists p, In p l /\ node_id (snd p) = Some i.
Proof.
  unfold ids_of. rewrite in_flat_map. split; intros [p [Hp H]]; exists p.
  - split; [exact Hp|]. destruct (node_id (snd p)); [|contradiction].
    destruct H as [->|[]]. reflexivity.
  - split; [exact Hp|]. rewrite H. now left.
Qed.

(** In a list of nodes whose identities are pairwise different, an identity
    names one node. *)
Lemma ids_of_unique (l : list (list node * node)) (p q : list node * node) (i : nat) :
  NoDup (ids_of l) -> In p l -> In q l ->
  node_id (snd p) = Some i -> node_id (snd q) = Some i -> p = q.
Proof.
  induction l as [|x l IH]; intros ND Hp Hq Ip Iq; [contradiction|].
  change (x :: l) with ([x] ++ l) in ND. rewrite ids_of_app in ND.
  assert (Hx : forall r, In r l -> node_id (snd r) = Some i ->
                         node_id (snd x) = Some i -> False).
  { intros r Hr Ir Ix. unfold ids_of at 1 in ND. cbn [flat_map] in ND.
    rewrite Ix in ND. cbn [app] in ND. inversion ND as [|? ? Hn _]; subst.
    apply Hn. apply ids_of_in. eauto. }
  destruct Hp as [->|Hp], Hq as [->|Hq].
  - reflexivity.
  - exfalso. eauto.
  - exfalso. eauto.
  - apply IH; trivial. eapply NoDup_app_remove_l. exact ND.
Qed.

Lemma mem_in (l : list nat) (i : nat) : mem l i = true <-> In i l.
Proof.
  unfold mem. rewrite existsb_exists. split.
  - intros [x [Hx E]]. apply Nat.eqb_eq in E. now subst.
  - intros H. exists i. split; [exact H | apply Nat.eqb_refl].
Qed.

(** With pairwise different identities, the selected identities are those
    of the blocks and of nothing else below [d]. *)
Lemma selected_blocks (anc : list node) (d m : node) :
  NoDup (inner_ids d) ->
  In m (flat_map subnodes (children d)) ->
  elem_in
    (mem (ids_of (filter (fun p => matches BLOCKS (fst p) (snd p))
                         (descendants anc d)))) m
  = is_block m.
Proof.
  intros ND Hm. rewrite <- (descendants_subnodes anc) in Hm.
  apply in_map_iff in Hm as [p [<- Hp]].
  rewrite <- (ids_of_descendants anc) in ND.
  unfold elem_in. destruct (node_id (snd p)) as [i|] eqn:Ei.
  - destruct (is_block (snd p)) eqn:B.
    + apply mem_in, ids_of_in. exists p. split; [|exact Ei].
      apply filter_In. split; [exact Hp|]. now rewrite matches_blocks.
    + destruct (mem _ i) eqn:M; [|reflexivity].
      apply mem_in, ids_of_in in M as [q [Hq Iq]].
      apply filter_In in Hq as [Hq Bq]. rewrite matches_blocks in Bq.
      rewrite (ids_of_unique _ p q ND Hp Hq Ei Iq) in B. congruence.
  - destruct (is_block (snd p)) eqn:B; [|reflexivity].
    apply is_block_elem in B as [i B]. congruence.
Qed.

Lemma strings_remove_where (P : nat -> bool) (n : node) :
  (forall m, In m (flat_map subnodes (children n)) -> elem_in P m = is_block m) ->
  strings (remove_where P n) = kept_strings n.
Proof.
  induction n as [s|s|i t cs ats ks IH] using node_induction; intros H;
    try reflexivity.
  cbn [remove_where strings kept_strings]. cbn [children] in H.
  induction IH as [|k ks' Hk _ IHks]; [reflexivity|].
  cbn [flat_map] in *. rewrite flat_map_app, IHks.
  - f_equal. rewrite (H k).
    + destruct (is_block k); [reflexivity|]. cbn [flat_map]. rewrite app_nil_r.
      apply Hk. intros m Hm. apply H. apply in_or_app. left.
      destruct k; try contradiction. right. exact Hm.
    + apply in_or_app. left. destruct k; now left.
  - intros m Hm. apply H. apply in_or_app. now right.
Qed.

Lemma NoDup_flat_map_in (A B : Type) (f : A -> list B) (l : list A) (x : A) :
  NoDup (flat_map f l) -> In x l -> NoDup (f x).
Proof.
  induction l as [|y l IH]; intros ND Hx; [contradiction|].
  cbn [flat_map] in ND. destruct Hx as [->|Hx].
  - eapply NoDup_app_remove_r. exact ND.
  - apply IH; [|exact Hx]. eapply NoDup_app_remove_l. exact ND.
Qed.

Lemma subnodes_ids (d n : node) :
  In d (subnodes n) -> incl (elem_ids d) (elem_ids n).
Proof.
  induction n as [s|s|i t cs ats ks IH] using node_induction; intros H.
  - destruct H as [<-|[]]. apply incl_refl.
  - destruct H as [<-|[]]. apply incl_refl.
  - cbn [subnodes] in H. destruct H as [<-|H]; [apply incl_refl|].
    apply in_flat_map in H as [k [Hk Hd]].
    rewrite Forall_forall in IH. intros j Hj. right.
    apply in_flat_map. exists k. split; [exact Hk|]. now apply (IH k Hk Hd).
Qed.

Lemma inner_ids_below (d n : node) :
  In d (flat_map subnodes (children n)) -> incl (elem_ids d) (inner_ids n).
Proof.
  intros H. apply in_flat_map in H as [k [Hk Hd]]. intros j Hj.
  apply in_flat_map. exists k. split; [exact Hk|]. now apply (subnodes_ids _ _ Hd).
Qed.

Lemma subnodes_nodup (d n : node) :
  In d (subnodes n) -> NoDup (elem_ids n) -> NoDup (elem_ids d).
Proof.
  induction n as [s|s|i t cs ats ks IH] using node_induction; intros H ND.
  - now destruct H as [<-|[]].
  - now destruct H as [<-|[]].
  - cbn [subnodes] in H. destruct H as [<-|H]; [exact ND|].
    apply in_flat_map in H as [k [Hk Hd]].
    rewrite Forall_forall in IH. apply (IH k Hk Hd).
    cbn [elem_ids] in ND. inversion ND; subst.
    now apply (@NoDup_flat_map_in _ _ elem_ids ks k).
Qed.

Lemma first_some_in (A B : Type) (f : A -> option B) (l : list A) (r : B) :
  first_some f l = Some r -> exists x, In x l /\ f x = Some r.
Proof.
  induction l as [|y l IH]; [discriminate|]. cbn [first_some].
  destruct (f y) as [r'|] eqn:E.
  - intros [= <-]. exists y. split; [now left | exact E].
  - intros H. destruct (IH H) as [x [Hx Fx]]. exists x. split; [now right | exact Fx].
Qed.

Lemma locate_subnode (i : nat) (n : node) :
  forall anc a d, locate i anc n = Some (a, d) ->
                  In d (subnodes n) /\ node_id d = Some i.
Proof.
  induction n as [s|s|j t cs ats ks IH] using node_induction; intros anc a d H;
    try discriminate.
  cbn [locate] in H. destruct (Nat.eqb j i) eqn:E.
  - injection H as <- <-. apply Nat.eqb_eq in E. subst. split; [now left | reflexivity].
  - apply first_some_in in H as [k [Hk H]].
    rewrite Forall_forall in IH. destruct (IH k Hk _ _ _ H) as [H1 H2].
    split; [|exact H2]. cbn [subnodes]. right. apply in_flat_map. eauto.
Qed.

Lemma locate_none_remove (P : nat -> bool) (i : nat) (n : node) :
  forall anc anc', locate i anc n = None ->
                   locate i anc' (remove_where P n) = None.
Proof.
  induction n as [s|s|j t cs ats ks IH] using node_induction; intros anc anc' H;
    try reflexivity.
  cbn [locate remove_where] in *. destruct (Nat.eqb j i); [discriminate|].
  revert H. generalize (Elem j t cs ats ks :: anc).
  generalize (Elem j t cs ats
                (flat_map (fun k => if elem_in P k then [] else [remove_where P k]) ks)
              :: anc').
  intros a1 a2. induction IH as [|k ks' Hk _ IHks]; intros H; [reflexivity|].
  cbn [first_some flat_map] in *.
  destruct (locate i a2 k) eqn:E; [discriminate|].
  destruct (elem_in P k); cbn [app first_some].
  - now apply IHks.
  - rewrite (Hk _ a1 E). now apply IHks.
Qed.

(** A reference to an element survives the removal of elements strictly
    below it, and then denotes the element without them. *)
Lemma locate_remove_where (P : nat -> bool) (i : nat) (n : node) :
  forall anc anc' a d,
    NoDup (elem_ids n) ->
    locate i anc n = Some (a, d) ->
    (forall j, P j = true -> In j (inner_ids d)) ->
    exists a', locate i anc' (remove_where P n) = Some (a', remove_where P d).
Proof.
  induction n as [s|s|j t cs ats ks IH] using node_induction;
    intros anc anc' a d ND H HP; try discriminate.
  cbn [locate] in H. destruct (Nat.eqb j i) eqn:E.
  - injection H as <- <-. cbn [remove_where locate]. rewrite E. eauto.
  - cbn [remove_where locate]. rewrite E.
    cbn [elem_ids] in ND. apply NoDup_cons_iff in ND as [_ ND].
    revert H ND. generalize (Elem j t cs ats ks :: anc).
    generalize (Elem j t cs ats
                  (flat_map (fun k => if elem_in P k then [] else [remove_where P k]) ks)
                :: anc').
    intros a1 a2. induction IH as [|k ks' Hk _ IHks]; intros H ND; [discriminate|].
    cbn [first_some flat_map] in *.
    assert (NDk : NoDup (elem_ids k)) by (eapply NoDup_app_remove_r; exact ND).
    assert (NDks : NoDup (flat_map elem_ids ks')) by (eapply NoDup_app_remove_l; exact ND).
    destruct (locate i a2 k) as [r|] eqn:Ek.
    + injection H as ->.
      destruct (locate_subnode _ _ _ Ek) as [Hd _].
      assert (Keep : elem_in P k = false).
      { unfold elem_in. destruct (node_id k) as [x|] eqn:Ex; [|reflexivity].
        destruct (P x) eqn:Px; [|reflexivity]. exfalso.
        apply HP in Px. destruct k as [s|s|y t' cs' ats' ks'']; try discriminate.
        injection Ex as ->. cbn [elem_ids] in NDk.
        apply NoDup_cons_iff in NDk as [Hn _]. apply Hn.
        cbn [subnodes] in Hd. destruct Hd as [<-|Hd]; [exact Px|].
        apply (@inner_ids_below d (Elem x t' cs' ats' ks'')); [exact Hd|].
        destruct d; try contradiction. right. exact Px. }
      rewrite Keep. cbn [app first_some].
      destruct (Hk a2 a1 a d NDk Ek HP) as [a' ->]. eauto.
    + destruct (elem_in P k); cbn [app first_some].
      * now apply IHks.
      * rewrite (@locate_none_remove P i k a2 a1 Ek). now apply IHks.
Qed.

(** *** Removal keeps the identities distinct *)

Lemma NoDup_app_disjoint (A : Type) (l l' : list A) (a : A) :
  NoDup (l ++ l') -> In a l -> ~ In a l'.
Proof.
  induction l as [|x l IH]; intros ND Ha; [contradiction|].
  cbn [app] in ND. apply NoDup_cons_iff in ND as [Hx ND].
  destruct Ha as [->|Ha]; [|now apply IH].
  intros Hin. apply Hx. apply in_or_app. now right.
Qed.

Lemma remove_where_kids_ids (P : nat -> bool) (ks : list node) :
  Forall (fun k => incl (elem_ids (remove_where P k)) (elem_ids k)) ks ->
  incl (flat_map elem_ids
          (flat_map (fun k => if elem_in P k then [] else [remove_where P k]) ks))
       (flat_map elem_ids ks).
Proof.
  induction 1 as [|k ks Hk _ IH]; [apply incl_refl|].
  cbn [flat_map]. rewrite flat_map_app. apply incl_app.
  - destruct (elem_in P k); cbn [flat_map]; [intros x []|].
    rewrite app_nil_r. now apply incl_appl.
  - now apply incl_appr.
Qed.

Lemma remove_where_ids (P : nat -> bool) (n : node) :
  incl (elem_ids (remove_where P n)) (elem_ids n).
Proof.
  induction n as [s|s|j t cs ats ks IH] using node_induction;
    try apply incl_refl.
  cbn [remove_where elem_ids]. intros x [->|Hx]; [now left|]. right.
  now apply (remove_where_kids_ids P IH).
Qed.

Lemma remove_where_nodup (P : nat -> bool) (n : node) :
  NoDup (elem_ids n) -> NoDup (elem_ids (remove_where P n)).
Proof.
  induction n as [s|s|j t cs ats ks IH] using node_induction; trivial.
  cbn [remove_where elem_ids]. intros ND.
  apply NoDup_cons_iff in ND as [Hj ND]. constructor.
  - intros Hin. apply Hj. revert Hin. apply remove_where_kids_ids.
    apply Forall_forall. intros; apply remove_where_ids.
  - clear Hj. induction IH as [|k ks Hk _ IHks]; [constructor|].
    cbn [flat_map] in *. rewrite flat_map_app.
    pose proof (NoDup_app_remove_r _ _ ND) as NDk.
    pose proof (NoDup_app_remove_l _ _ ND) as NDks.
    apply NoDup_app.
    + destruct (elem_in P k); cbn [flat_map]; [constructor|].
      rewrite app_nil_r. now apply Hk.
    + now apply IHks.
    + intros x Hx Hx'.
      apply (@NoDup_app_disjoint _ _ _ x ND).
      * destruct (elem_in P k); cbn [flat_map] in Hx; [contradiction|].
        rewrite app_nil_r in Hx. now apply (remove_where_ids P k).
      * revert Hx'. apply remove_where_kids_ids.
        apply Forall_forall. intros; apply remove_where_ids.
Qed.

Lemma decompose_all_nodup (l : list nat) (soup : node) :
  NoDup (elem_ids soup) -> NoDup (elem_ids (decompose_all l soup)).
Proof. rewrite decompose_all_mem. apply remove_where_nodup. Qed.

(** The loop over the posts of a page keeps the identities distinct, so
    the property of the post body holds at each of its iterations. *)
Lemma post_step_nodup (isdecimal : char -> bool) (soup : node) (acc : list str)
      (div : nat) :
  NoDup (elem_ids soup) ->
  NoDup (elem_ids (fst (post_step isdecimal (soup, acc) div))).
Proof.
  intros ND. unfold post_step.
  destruct (find_parent DIV (Some POST_WRAP) soup div) as [w|]; [|exact ND].
  assert (ND' : NoDup (elem_ids (strip_blocks soup div)))
    by now apply decompose_all_nodup.
  destruct (find_first DIV (Some SIGNATURE) (strip_blocks soup div) w) as [sg|];
    cbn [fst]; [|exact ND'].
  now apply decompose_all_nodup.
Qed.

(** *** Trimmed strings *)

Lemma solid_strip (s : str) : solid s -> strip s = s.
Proof.
  intros (c & t & c' & t' & -> & R & Hc & Hc').
  unfold strip, rstrip. cbn [lstrip]. rewrite Hc, R. cbn [lstrip]. rewrite Hc'.
  rewrite <- R. apply rev_involutive.
Qed.

Lemma lstrip_snoc (l : str) (c : char) :
  isspace c = false -> lstrip (l ++ [c]) = lstrip l ++ [c].
Proof.
  intros Hc. induction l as [|x l IH]; simpl; [now rewrite Hc|].
  destruct (isspace x); [exact IH | reflexivity].
Qed.

Lemma lstrip_head (s : str) :
  lstrip s = [] \/ exists c t, lstrip s = c :: t /\ isspace c = false.
Proof.
  induction s as [|x s IH]; [now left|]. simpl.
  destruct (isspace x) eqn:E; [exact IH | right; eauto].
Qed.

Lemma strip_solid (s : str) : strip s <> [] -> solid (strip s).
Proof.
  unfold strip, rstrip. intros Hne.
  destruct (lstrip_head s) as [E|(c & t & E & Hc)].
  - rewrite E in Hne. now contradiction Hne.
  - rewrite E in *. cbn [rev] in *. rewrite (@lstrip_snoc _ _ Hc) in *.
    rewrite rev_app_distr in *. cbn [rev app] in *.
    destruct (lstrip_head (rev t)) as [E'|(c' & t' & E' & Hc')].
    + rewrite E'. exists c, [], c, []. repeat split; assumption.
    + rewrite E'. exists c, (rev (c' :: t')), c', (t' ++ [c]). repeat split; trivial.
      change (rev (c :: rev (c' :: t'))) with (rev (rev (c' :: t')) ++ [c]).
      now rewrite rev_involutive.
Qed.

Lemma stripped_solid (l : list str) : Forall solid (stripped l).
Proof.
  unfold stripped. apply Forall_forall. intros x Hx.
  apply filter_In in Hx as [Hx Hne]. apply in_map_iff in Hx as [s [<- _]].
  apply strip_solid. now destruct (strip s).
Qed.

Lemma solid_join (sep : str) (l : list str) :
  l <> [] -> Forall solid l -> solid (join sep l).
Proof.
  intros Hne H. induction H as [|p l Hp Hl IH]; [congruence|].
  destruct l as [|q l]; [exact Hp|].
  destruct Hp as (c & t & _ & _ & -> & _ & Hc & _).
  destruct IH as (_ & _ & c' & t' & _ & R & _ & Hc'); [discriminate|].
  cbn [join] in *. exists c, (t ++ sep ++ join sep (q :: l)), c', (t' ++ rev sep ++ rev (c :: t)).
  repeat split; trivial.
  rewrite app_comm_cons, !rev_app_distr, R, <- app_assoc. reflexivity.
Qed.

Lemma node_text_trimmed (sep : str) (n : node) :
  strip (node_text sep n) = node_text sep n.
Proof.
  unfold node_text. destruct (stripped (strings n)) eqn:E; [reflexivity|].
  apply solid_strip, solid_join; [discriminate|].
  rewrite <- E. apply stripped_solid.
Qed.

(** ** Post body *)

(** C3: the body text of a post content block is made of the text nodes
    that lie in no quote block, code block or image of the block, each
    trimmed, the empty ones dropped, joined by newlines; the result is
    trimmed. *)
Theorem post_body_excludes_blocks (soup : node) (div : nat) (anc : list node) (d : node) :
  NoDup (elem_ids soup) ->
  locate div [] soup = Some (anc, d) ->
  post_body soup div = join NL (stripped (kept_strings d))
  /\ strip (post_body soup div) = post_body soup div.
Proof.
  intros ND H.
  assert (B : exists a', locate div [] (strip_blocks soup div)
                         = Some (a', remove_where
                                       (mem (select BLOCKS soup div)) d)).
  { unfold strip_blocks. rewrite decompose_all_mem.
    apply (@locate_remove_where _ div soup [] [] anc d ND H).
    intros j Hj. apply mem_in in Hj. unfold select in Hj. rewrite H in Hj.
    rewrite <- (ids_of_descendants anc). apply ids_of_in in Hj as [p [Hp Ip]].
    apply filter_In in Hp as [Hp _]. apply ids_of_in. eauto. }
  destruct B as [a' B]. unfold post_body, get_text. rewrite B. split.
  - unfold node_text. f_equal. f_equal. apply strings_remove_where.
    intros m Hm. unfold select. rewrite H. apply selected_blocks; [|exact Hm].
    destruct (locate_subnode _ _ _ H) as [Hd _].
    pose proof (subnodes_nodup _ _ Hd ND) as NDd.
    destruct d; try (cbn; constructor).
    cbn [elem_ids] in NDd. now apply NoDup_cons_iff in NDd as [_ NDd].
  - apply node_text_trimmed.
Qed.

Lemma post_body_excludes_blocks_witness :
  post_body sample_post 3 = lit "Hello" ++ NL ++ lit "world".
Proof.
  refine (eq_trans (proj1 (@post_body_excludes_blocks sample_post 3
                             (skipn 0 [hd (T "") (children sample_post); sample_post])
                             sample_content _ _)) _).
  - repeat constructor; simpl; intuition discriminate.
  - reflexivity.
  - reflexivity.
Defined.

(** ** Page fetcher *)

Section FetcherFacts.
Variable http_get : trace -> str -> response.

(** [make_soup] unfolded: the three requests and what follows each. *)
Lemma make_soup_cases (url : str) (t : trace) :
  make_soup http_get url t =
  let r1 := http_get (t ++ before_first url) url in
  let r2 := http_get (t ++ before_second url) url in
  let r3 := http_get (t ++ before_third url) url in
  if failed r1
  then if failed r2
       then if failed r3
            then Ok None (t ++ three_failures url)
            else delivered r3 (t ++ before_third url ++ [Get url])
       else delivered r2 (t ++ before_second url ++ [Get url])
  else delivered r1 (t ++ before_first url ++ [Get url]).
Proof.
  unfold make_soup, attempts, bind, emit, request, ret, raise, retries, initial_delay,
    REQUEST_DELAY_SECONDS, before_third, before_second, before_first, three_failures.
  cbn [Nat.ltb Nat.leb Nat.sub N.mul Pos.mul Pos.add].
  repeat rewrite <- app_assoc. cbn [app].
  destruct (http_get (t ++ [Print (Fetching url); Sleep 2]) url)
    as [s1 p1|s1|] eqn:E1; cbn [failed delivered];
    [destruct (raise_for_status s1); [|reflexivity]
    |destruct (raise_for_status s1); [|reflexivity]|];
    repeat rewrite <- app_assoc; cbn [app];
    (destruct (http_get (t ++ [Print (Fetching url); Sleep 2; Get url;
                               Print (ErrorFetching url); Print (RetryingIn 5);
                               Sleep 5; Print (Fetching url); Sleep 2]) url)
      as [s2 p2|s2|] eqn:E2; cbn [failed delivered];
     [destruct (raise_for_status s2); [|reflexivity]
     |destruct (raise_for_status s2); [|reflexivity]|]);
    repeat rewrite <- app_assoc; cbn [app];
    (destruct (http_get (t ++ [Print (Fetching url); Sleep 2; Get url;
                               Print (ErrorFetching url); Print (RetryingIn 5);
                               Sleep 5; Print (Fetching url); Sleep 2; Get url;
                               Print (ErrorFetching url); Print (RetryingIn 10);
                               Sleep 10; Print (Fetching url); Sleep 2]) url)
      as [s3 p3|s3|] eqn:E3; cbn [failed delivered];
     [destruct (raise_for_status s3); [|reflexivity]
     |destruct (raise_for_status s3); [|reflexivity]|]);
    repeat rewrite <- app_assoc; reflexivity.
Qed.


End FetcherFacts.




(** ** Post extractor *)

Section ExtractorFacts.
Variable urljoin : str -> str -> str.
Variable isdecimal : char -> bool.
Variable http_get : trace -> str -> response.

Lemma post_step_acc (soup : node) (acc : list str) (div : nat) :
  post_step isdecimal (soup, acc) div
  = (fst (post_step isdecimal (soup, []) div),
     acc ++ snd (post_step isdecimal (soup, []) div)).
Proof.
  unfold post_step.
  destruct (find_parent DIV (Some POST_WRAP) soup div) as [w|];
    [|now rewrite app_nil_r].
  destruct (find_first DIV (Some SIGNATURE) (strip_blocks soup div) w) as [sg|];
    cbn [fst snd].
  - destruct (nonempty _); cbn [fst snd app]; now rewrite <- ?app_assoc.
  - cbn [nonempty fst snd app]. now rewrite <- ?app_assoc.
Qed.

Lemma post_steps_acc (divs : list nat) (soup : node) (acc : list str) :
  fold_left (post_step isdecimal) divs (soup, acc)
  = (fst (fold_left (post_step isdecimal) divs (soup, [])),
     acc ++ snd (fold_left (post_step isdecimal) divs (soup, []))).
Proof.
  revert soup acc. induction divs as [|d divs IH]; intros soup acc; cbn [fold_left].
  - cbn [fst snd]. now rewrite app_nil_r.
  - rewrite (post_step_acc soup acc d).
    rewrite IH.
    destruct (post_step isdecimal (soup, []) d) as [s1 c1] eqn:E1. cbn [fst snd].
    rewrite (IH s1 c1). cbn [fst snd]. now rewrite app_assoc.
Qed.

Lemma page_step_acc (soup : node) (acc : list str) :
  page_step isdecimal soup acc
  = (page_after isdecimal soup, acc ++ page_posts isdecimal soup).
Proof. unfold page_step, page_after, page_posts. apply post_steps_acc. Qed.

Lemma posts_loop_partial (t u : _) (ps : list node) (tk : trace) (uk : str) :
  pages_fetched urljoin isdecimal http_get t u ps tk uk ->
  forall t' acc fuel,
    nonempty uk = true ->
    make_soup http_get uk tk = Ok None t' ->
    length ps < fuel ->
    posts_loop urljoin isdecimal http_get fuel acc u t
    = Ok (acc ++ flat_map (page_posts isdecimal) ps) t'.
Proof.
  induction 1 as [t u|t u soup t1 u1 ps t2 u2 Hu Hs Hn _ IH];
    intros t' acc fuel Hk Hf Hl.
  - destruct fuel as [|fuel]; [inversion Hl|].
    cbn [posts_loop]. rewrite Hk. unfold bind. rewrite Hf.
    unfold ret. now rewrite app_nil_r.
  - destruct fuel as [|fuel]; [inversion Hl|].
    cbn [posts_loop]. rewrite Hu. unfold bind at 1. rewrite Hs.
    rewrite page_step_acc. unfold bind. rewrite Hn.
    cbn [length] in Hl. rewrite (IH t' (acc ++ page_posts isdecimal soup) fuel Hk Hf) by lia.
    cbn [flat_map]. now rewrite app_assoc.
Qed.

End ExtractorFacts.

(** C4: when the pages [ps] of a topic are fetched and processed one after
    the other and the fetch of the page that follows returns nothing,
    [scrape_post_content] returns, without raising, the posts of [ps] joined
    by newlines, page after page and, in a page, block after block. *)
Theorem scrape_post_content_partial
    (urljoin : str -> str -> str) (isdecimal : char -> bool)
    (http_get : trace -> str -> response)
    (t : trace) (topic_url : str) (ps : list node) (tk : trace) (uk : str)
    (t' : trace) (fuel : nat) :
  pages_fetched urljoin isdecimal http_get t topic_url ps tk uk ->
  nonempty uk = true ->
  make_soup http_get uk tk = Ok None t' ->
  length ps < fuel ->
  scrape_post_content urljoin isdecimal http_get fuel topic_url t
  = Ok (join NL (flat_map (page_posts isdecimal) ps)) t'.
Proof.
  intros Hp Hk Hf Hl. unfold scrape_post_content, bind.
  now rewrite (@posts_loop_partial _ _ _ _ _ _ _ _ Hp t' [] fuel Hk Hf Hl).
Qed.

Lemma scrape_post_content_partial_witness :
  scrape_post_content sample_urljoin ascii_digit sample_get 2
    (lit "http://a/?showtopic=3") []
  = Ok (join NL (flat_map (page_posts ascii_digit) [sample_post3]))
       ((before_first (lit "http://a/?showtopic=3") ++ [Get (lit "http://a/?showtopic=3")])
        ++ three_failures (lit "http://a/?showtopic=2")).
Proof.
  apply (@scrape_post_content_partial sample_urljoin ascii_digit sample_get
           [] (lit "http://a/?showtopic=3") [sample_post3]
           (before_first (lit "http://a/?showtopic=3") ++ [Get (lit "http://a/?showtopic=3")])
           (lit "http://a/?showtopic=2")).
  - apply fetched_page
      with (t1 := before_first (lit "http://a/?showtopic=3")
                  ++ [Get (lit "http://a/?showtopic=3")])
           (u1 := lit "http://a/?showtopic=2").
    + reflexivity.
    + reflexivity.
    + reflexivity.
    + apply fetched_none.
  - reflexivity.
  - reflexivity.
  - simpl. lia.
Defined.

(** ** Traces of the crawlers *)

Lemma extends_weaken (A : Type) (P Q : event -> bool) (t : trace) (o : outcome A) :
  (forall e, P e = true -> Q e = true) -> extends P t o -> extends Q t o.
Proof.
  intros PQ. destruct o as [a t'|e t'|]; cbn; trivial;
    intros (seg & -> & H); exists seg; (split; [reflexivity|]);
    rewrite forallb_forall in *; auto.
Qed.

Lemma extends_ret (A : Type) (P : event -> bool) (a : A) (t : trace) :
  extends P t (ret a t).
Proof. exists []. now rewrite app_nil_r. Qed.

Lemma extends_raise (A : Type) (P : event -> bool) (e : exn) (t : trace) :
  extends P t (@raise A e t).
Proof. exists []. now rewrite app_nil_r. Qed.

Lemma extends_emit (P : event -> bool) (e : event) (t : trace) :
  P e = true -> extends P t (emit e t).
Proof. intros H. exists [e]. cbn. now rewrite H. Qed.

Lemma extends_bind (A B : Type) (P : event -> bool) (m : M A) (f : A -> M B) (t : trace) :
  extends P t (m t) ->
  (forall a t', extends P t' (f a t')) ->
  extends P t (bind m f t).
Proof.
  unfold bind. intros Hm Hf. destruct (m t) as [a t1|e t1|]; cbn in *; trivial.
  destruct Hm as (s1 & -> & H1). specialize (Hf a (t ++ s1)).
  destruct (f a (t ++ s1)) as [b t2|e t2|]; cbn in *; trivial;
    destruct Hf as (s2 & -> & H2); exists (s1 ++ s2);
    now rewrite app_assoc, forallb_app, H1, H2.
Qed.

Lemma extends_for_each (A S : Type) (P : event -> bool) (body : S -> A -> M S)
      (l : list A) :
  (forall s x t, extends P t (body s x t)) ->
  forall s t, extends P t (for_each body l s t).
Proof.
  intros Hb. induction l as [|x l IH]; intros s t; cbn [for_each].
  - apply extends_ret.
  - apply extends_bind; [apply Hb | intros; apply IH].
Qed.

Lemma extends_delivered (P : event -> bool) (t seg : trace) (r : response) :
  forallb P seg = true -> extends P t (delivered r (t ++ seg)).
Proof. intros H. destruct r; cbn [delivered extends]; eauto. Qed.

Section CrawlerTraces.
Variable urljoin : str -> str -> str.
Variable isdecimal : char -> bool.
Variable isword : char -> bool.
Variable http_get : trace -> str -> response.
Variable os_makedirs : trace -> str -> bool.
Variable os_write : trace -> str -> str -> bool.

Lemma make_soup_net (url : str) (t : trace) :
  extends net_event t (make_soup http_get url t).
Proof.
  rewrite make_soup_cases. cbv zeta.
  destruct (failed (http_get (t ++ before_first url) url));
    [destruct (failed (http_get (t ++ before_second url) url));
     [destruct (failed (http_get (t ++ before_third url) url))|]|];
    try (apply extends_delivered; reflexivity).
  cbn [extends]; eexists; split; reflexivity.
Qed.

Lemma item_net (name : str) (soup : node) (i : nat) (t : trace) :
  extends net_event t (item name soup i t).
Proof.
  unfold item. destruct (attr name soup i); [apply extends_ret | apply extends_raise].
Qed.

Lemma next_page_net (u : str) (soup : node) (t : trace) :
  extends net_event t (next_page urljoin u soup t).
Proof.
  unfold next_page. destruct (select_one A_NEXT soup (root_id soup)).
  - apply extends_bind; [apply item_net|]. intros h t'.
    destruct (nonempty h); apply extends_ret.
  - apply extends_ret.
Qed.

Lemma posts_loop_net (fuel : nat) :
  forall acc u t, extends net_event t (posts_loop urljoin isdecimal http_get fuel acc u t).
Proof.
  induction fuel as [|fuel IH]; intros acc u t; cbn [posts_loop]; [exact I|].
  destruct (nonempty u); [|apply extends_ret].
  apply extends_bind; [apply make_soup_net|]. intros [soup|] t1; [|apply extends_ret].
  destruct (page_step isdecimal soup acc) as [soup' acc'].
  apply extends_bind; [apply next_page_net|]. intros [u'|] t2;
    [apply IH | apply extends_ret].
Qed.

(** The extraction of the posts of a topic touches the network only. *)
Lemma scrape_post_content_net (fuel : nat) (u : str) (t : trace) :
  extends net_event t (scrape_post_content urljoin isdecimal http_get fuel u t).
Proof.
  unfold scrape_post_content. apply extends_bind; [apply posts_loop_net|].
  intros; apply extends_ret.
Qed.

Lemma write_to_file_events (filepath content : str) (t : trace) :
  write_to_file os_makedirs os_write filepath content t
  = if write_raises os_makedirs os_write t filepath content
    then Raised ValueError (t ++ write_events os_makedirs os_write t filepath content)
    else Ok tt (t ++ write_events os_makedirs os_write t filepath content).
Proof.
  unfold write_to_file, write_events, write_raises.
  destruct (os_makedirs t (dirname filepath)); cbn [andb]; [|reflexivity].
  destruct (valid_path (dirname filepath)); cbn [negb orb]; [|reflexivity].
  destruct (valid_path filepath); cbn [negb orb];
    [|now rewrite <- app_assoc].
  destruct (os_write _ filepath content); cbn [andb];
    [|now rewrite <- app_assoc].
  destruct (encodable content); cbn [negb]; now rewrite <- app_assoc.
Qed.

Lemma dirname_incl (p : str) (c : char) : In c (dirname p) -> In c p.
Proof.
  assert (D : forall q s, In c (drop_while q s) -> In c s).
  { intros q s. induction s as [|x s IH]; cbn [drop_while]; [trivial|].
    destruct (q x); [right; now apply IH | trivial]. }
  unfold dirname.
  destruct (drop_while (fun c0 => char_eqb c0 SLASH)
              (drop_while (fun c0 => negb (char_eqb c0 SLASH)) (rev p))) eqn:E;
    intros H; apply in_rev in H.
  - apply in_rev. now apply D in H.
  - rewrite <- E in H. apply in_rev. now apply D in H; apply D in H.
Qed.

Lemma valid_path_dirname (p : str) :
  valid_path p = true -> valid_path (dirname p) = true.
Proof.
  unfold valid_path. rewrite !forallb_forall. intros H c Hc.
  apply H. now apply dirname_incl.
Qed.

(** The five ways a call of [write_to_file] ends. *)
Lemma write_to_file_cases (filepath content : str) (t : trace) :
  let dir := dirname filepath in
  let t2 := t ++ [MakeDirs dir true] in
  let run := write_to_file os_makedirs os_write filepath content t in
  (os_makedirs t dir = false ->
   run = Ok tt (t ++ [MakeDirs dir false; Print (ErrorWriting filepath)]))
  /\ (os_makedirs t dir = true -> valid_path filepath = false ->
      exists seg, run = Raised ValueError (t ++ seg) /\ written seg = [])
  /\ (os_makedirs t dir = true -> valid_path filepath = true ->
      (os_write t2 filepath content = false ->
       run = Ok tt (t2 ++ [WriteFile filepath content false;
                           Print (ErrorWriting filepath)]))
      /\ (os_write t2 filepath content = true -> encodable content = false ->
          run = Raised ValueError (t2 ++ [WriteFile filepath content false]))
      /\ (os_write t2 filepath content = true -> encodable content = true ->
          run = Ok tt (t2 ++ [WriteFile filepath content true]))).
Proof.
  intros dir t2 run. unfold run, write_to_file. fold dir. fold t2.
  split; [|split].
  - now intros ->.
  - intros -> V. destruct (valid_path dir).
    + rewrite V. exists [MakeDirs dir true; WriteFile filepath content false].
      split; [|reflexivity]. unfold t2. now rewrite <- app_assoc.
    + now exists [MakeDirs dir false].
  - intros -> V. unfold dir. rewrite (valid_path_dirname _ V), V. fold dir.
    split; [|split].
    + now intros ->.
    + now intros -> ->.
    + now intros -> ->.
Qed.

End CrawlerTraces.

(** ** Topic listing crawler *)




Lemma dirs_app (a b : trace) : dirs (a ++ b) = dirs a + dirs b.
Proof. unfold dirs. now rewrite filter_app, length_app. Qed.

Lemma dirs_net (seg : trace) : forallb net_event seg = true -> dirs seg = 0.
Proof.
  induction seg as [|e seg IH]; [reflexivity|]. cbn [forallb].
  intros H. apply andb_true_iff in H as [He H].
  change (e :: seg) with ([e] ++ seg). rewrite dirs_app, (IH H).
  now destruct e.
Qed.

Lemma counted_bind (A : Type) (m : M A) (f : A -> M (list str)) (t : trace) (n : nat) :
  extends net_event t (m t) ->
  (forall a t', counted t' n (f a t')) ->
  counted t n (bind m f t).
Proof.
  unfold bind. intros Hm Hf. destruct (m t) as [a t1|e t1|]; cbn in *; trivial.
  destruct Hm as (s1 & -> & H1). specialize (Hf a (t ++ s1)).
  destruct (f a (t ++ s1)) as [l t2|e t2|]; cbn in *; trivial.
  destruct Hf as (s2 & -> & H2). exists (s1 ++ s2).
  now rewrite app_assoc, dirs_app, (dirs_net _ H1).
Qed.

Lemma counted_ret (l : list str) (t : trace) : counted t (length l) (ret l t).
Proof. exists []. cbn. split; [now rewrite app_nil_r | lia]. Qed.

Lemma counted_for_each (A : Type) (body : list str -> A -> M (list str)) (xs : list A) :
  (forall l x t, counted t (length l) (body l x t)) ->
  forall l t, counted t (length l) (for_each body xs l t).
Proof.
  intros Hb. induction xs as [|x xs IH]; intros l t; cbn [for_each].
  - apply counted_ret.
  - unfold bind. specialize (Hb l x t).
    destruct (body l x t) as [l1 t1|e t1|]; cbn in *; trivial.
    destruct Hb as (s1 & -> & H1). specialize (IH l1 (t ++ s1)).
    destruct (for_each body xs l1 (t ++ s1)) as [l2 t2|e t2|]; cbn in *; trivial.
    destruct IH as (s2 & -> & H2). exists (s1 ++ s2).
    rewrite app_assoc, dirs_app. split; [reflexivity | lia].
Qed.

Section ListingFacts.
Variable urljoin : str -> str -> str.
Variable isdecimal : char -> bool.
Variable isword : char -> bool.
Variable http_get : trace -> str -> response.
Variable os_makedirs : trace -> str -> bool.
Variable os_write : trace -> str -> str -> bool.

Lemma dirs_write_events (t : trace) (filepath content : str) :
  dirs (write_events os_makedirs os_write t filepath content) = 1.
Proof.
  unfold write_events. destruct (os_makedirs t (dirname filepath)); [|reflexivity].
  destruct (valid_path (dirname filepath)); [|reflexivity].
  destruct (valid_path filepath); [|reflexivity].
  now destruct (os_write _ filepath content).
Qed.

Lemma topic_row_counted (fuel : nat) (cur path : str) (soup : node)
      (l : list str) (row : nat) (t : trace) :
  counted t (length l)
    (topic_row urljoin isdecimal isword http_get os_makedirs os_write
               fuel cur path soup l row t).
Proof.
  unfold topic_row. destruct (select_one TOPIC_LINK soup row) as [a|];
    [|apply counted_ret].
  apply counted_bind; [apply item_net|]. intros href t1.
  apply counted_bind; [now apply extends_emit|]. intros _ t2.
  apply counted_bind; [apply scrape_post_content_net|]. intros content t3.
  destruct (nonempty content); [|apply counted_ret].
  unfold bind. rewrite write_to_file_events.
  destruct (write_raises _ _ _ _ _); [exact I|]. cbn [counted ret].
  eexists. split; [reflexivity|].
  rewrite dirs_write_events, length_app. cbn. lia.
Qed.

Lemma topic_pages_counted (fuel : nat) :
  forall (l : list str) (u path : str) (t : trace),
    counted t (length l)
      (topic_pages urljoin isdecimal isword http_get os_makedirs os_write
                   fuel l u path t).
Proof.
  induction fuel as [|fuel IH]; intros l u path t; cbn [topic_pages]; [exact I|].
  destruct (nonempty u); [|apply counted_ret].
  apply counted_bind; [apply make_soup_net|]. intros [soup|] t1; [|apply counted_ret].
  unfold bind.
  pose proof (@counted_for_each _
                (topic_row urljoin isdecimal isword http_get os_makedirs os_write
                           fuel u path soup)
                (select TOPIC_ROWS soup (root_id soup))
                (fun l x t => topic_row_counted fuel u path soup l x t) l t1) as H.
  destruct (for_each _ _ l t1) as [l1 t2|e t2|]; cbn in *; trivial.
  destruct H as (s1 & -> & H1).
  pose proof (next_page_net urljoin u soup (t1 ++ s1)) as N.
  destruct (next_page urljoin u soup (t1 ++ s1)) as [[u'|] t3|e t3|]; cbn in *; trivial.
  - destruct N as (s2 & -> & N). specialize (IH l1 u' path ((t1 ++ s1) ++ s2)).
    destruct (topic_pages _ _ _ _ _ _ fuel l1 u' path _) as [l2 t4|e t4|];
      cbn in *; trivial.
    destruct IH as (s3 & -> & H3). exists (s1 ++ s2 ++ s3).
    rewrite !dirs_app, (dirs_net _ N), !app_assoc. split; [reflexivity | lia].
  - destruct N as (s2 & -> & N). exists (s1 ++ s2).
    rewrite dirs_app, (dirs_net _ N), app_assoc. split; [reflexivity | lia].
Qed.

(** A chain of processed pages is the start of the loop over the pages. *)
Lemma topic_pages_chain (k : nat) (path : str) (t : trace) (u : str) (l : list str)
      (n : nat) (tk : trace) (uk : str) (lk : list str) :
  listing_pages urljoin isdecimal isword http_get os_makedirs os_write
                k path t u l n tk uk lk ->
  topic_pages urljoin isdecimal isword http_get os_makedirs os_write (n + k) l u path t
  = topic_pages urljoin isdecimal isword http_get os_makedirs os_write k lk uk path tk.
Proof.
  induction 1 as [t u l|t u l soup t1 l1 t2 u1 n t3 u3 l3 Hu Hs Hr Hn _ IH];
    [reflexivity|].
  cbn [Nat.add topic_pages]. rewrite Hu. unfold bind at 1. rewrite Hs.
  unfold bind at 1. rewrite Hr. unfold bind. rewrite Hn. exact IH.
Qed.

Lemma topic_pages_end (k : nat) (path : str) (t : trace) (u : str) (l : list str)
      (t' : trace) (l' : list str) :
  listing_ends urljoin isdecimal isword http_get os_makedirs os_write
               k path t u l t' l' ->
  topic_pages urljoin isdecimal isword http_get os_makedirs os_write (S k) l u path t
  = Ok l' t'.
Proof.
  intros [t0 u0 l0 Hu|t0 u0 l0 t1 Hu Hs|t0 u0 l0 soup t1 l1 t2 Hu Hs Hr Hn];
    cbn [topic_pages]; rewrite Hu; [reflexivity| |].
  - unfold bind. now rewrite Hs.
  - unfold bind at 1. rewrite Hs. unfold bind at 1. rewrite Hr.
    unfold bind. now rewrite Hn.
Qed.

(** The call of [scrape_topic_listing] after a chain of pages and an end of
    the loop: what is left is the write of the listing. *)
Lemma scrape_topic_listing_run (k : nat) (forum_url current_path : str) (t : trace)
      (n : nat) (tk : trace) (uk : str) (lk : list str) (t' : trace) (l' : list str) :
  listing_pages urljoin isdecimal isword http_get os_makedirs os_write
                (S k) current_path (t ++ [Enter forum_url current_path]) forum_url []
                n tk uk lk ->
  listing_ends urljoin isdecimal isword http_get os_makedirs os_write
               k current_path tk uk lk t' l' ->
  scrape_topic_listing urljoin isdecimal isword http_get os_makedirs os_write
                       (n + S k) forum_url current_path t
  = write_to_file os_makedirs os_write (path_join current_path LISTING_TXT)
                  (join NL l') t'
  /\ exists seg, t' = (t ++ [Enter forum_url current_path]) ++ seg
                 /\ length l' = dirs seg.
Proof.
  intros Hp He.
  assert (E : topic_pages urljoin isdecimal isword http_get os_makedirs os_write
                          (n + S k) [] forum_url current_path
                          (t ++ [Enter forum_url current_path]) = Ok l' t').
  { rewrite (topic_pages_chain Hp). now apply topic_pages_end. }
  split.
  - unfold scrape_topic_listing. unfold bind at 1. unfold emit. unfold bind.
    now rewrite E.
  - pose proof (topic_pages_counted (n + S k) [] forum_url current_path
                  (t ++ [Enter forum_url current_path])) as C.
    rewrite E in C. exact C.
Qed.

End ListingFacts.




(** ** Forum index crawler *)

Lemma crawls_app (a b : trace) : crawls (a ++ b) = crawls a ++ crawls b.
Proof. apply flat_map_app. Qed.

Lemma crawls_inner (seg : trace) : forallb inner_event seg = true -> crawls seg = [].
Proof.
  induction seg as [|e seg IH]; [reflexivity|]. cbn [forallb].
  intros H. apply andb_true_iff in H as [He H].
  change (e :: seg) with ([e] ++ seg). rewrite crawls_app, (IH H).
  now destruct e.
Qed.

Lemma net_inner (e : event) : net_event e = true -> inner_event e = true.
Proof. now destruct e. Qed.

Section IndexFacts.
Variable urljoin : str -> str -> str.
Variable isdecimal : char -> bool.
Variable isword : char -> bool.
Variable http_get : trace -> str -> response.
Variable os_makedirs : trace -> str -> bool.
Variable os_write : trace -> str -> str -> bool.

#[local] Abbreviation topic_row' := (topic_row urljoin isdecimal isword http_get os_makedirs os_write).
#[local] Abbreviation topic_pages' := (topic_pages urljoin isdecimal isword http_get os_makedirs os_write).
#[local] Abbreviation scrape_topic_listing' :=
  (scrape_topic_listing urljoin isdecimal isword http_get os_makedirs os_write).
#[local] Abbreviation subforum_step' :=
  (subforum_step urljoin isdecimal isword http_get os_makedirs os_write).
#[local] Abbreviation forum_row' :=
  (forum_row urljoin isdecimal isword http_get os_makedirs os_write).
#[local] Abbreviation scrape_forum_index' :=
  (scrape_forum_index urljoin isdecimal isword http_get os_makedirs os_write).

Lemma write_to_file_inner (filepath content : str) (t : trace) :
  extends inner_event t (write_to_file os_makedirs os_write filepath content t).
Proof.
  rewrite write_to_file_events.
  assert (forallb inner_event (write_events os_makedirs os_write t filepath content)
          = true).
  { unfold write_events. destruct (os_makedirs t (dirname filepath)); [|reflexivity].
    destruct (valid_path (dirname filepath)); [|reflexivity].
    destruct (valid_path filepath); [|reflexivity].
    now destruct (os_write _ filepath content). }
  destruct (write_raises _ _ _ _ _); cbn [extends]; eauto.
Qed.

Lemma topic_row_inner (fuel : nat) (cur path : str) (soup : node)
      (l : list str) (row : nat) (t : trace) :
  extends inner_event t (topic_row' fuel cur path soup l row t).
Proof.
  unfold topic_row. destruct (select_one TOPIC_LINK soup row) as [a|];
    [|apply extends_ret].
  apply extends_bind.
  { apply extends_weaken with (P := net_event); [exact net_inner | apply item_net]. }
  intros href t1. apply extends_bind; [now apply extends_emit|]. intros _ t2.
  apply extends_bind.
  { apply extends_weaken with (P := net_event);
      [exact net_inner | apply scrape_post_content_net]. }
  intros content t3. destruct (nonempty content); [|apply extends_ret].
  apply extends_bind; [apply write_to_file_inner|]. intros; apply extends_ret.
Qed.

Lemma topic_pages_inner (fuel : nat) :
  forall (l : list str) (u path : str) (t : trace),
    extends inner_event t (topic_pages' fuel l u path t).
Proof.
  induction fuel as [|fuel IH]; intros l u path t; cbn [topic_pages]; [exact I|].
  destruct (nonempty u); [|apply extends_ret].
  apply extends_bind.
  { apply extends_weaken with (P := net_event); [exact net_inner | apply make_soup_net]. }
  intros [soup|] t1; [|apply extends_ret].
  apply extends_bind.
  { apply extends_for_each. intros; apply topic_row_inner. }
  intros l1 t2. apply extends_bind.
  { apply extends_weaken with (P := net_event); [exact net_inner | apply next_page_net]. }
  intros [u'|] t3; [apply IH | apply extends_ret].
Qed.

(** A crawl that ends entered [scrape_topic_listing] once, at its
    start. *)
Lemma scrape_topic_listing_crawls (fuel : nat) (u path : str) (t : trace) :
  grows (fun seg => exists seg', seg = Enter u path :: seg' /\ crawls seg' = [])
        t (scrape_topic_listing' fuel u path t).
Proof.
  unfold scrape_topic_listing. unfold bind at 1. unfold emit.
  match goal with
  | |- grows _ _ (?rest _) =>
      assert (X : extends inner_event (t ++ [Enter u path])
                    (rest (t ++ [Enter u path])))
  end.
  { apply extends_bind; [apply topic_pages_inner|].
    intros; apply write_to_file_inner. }
  match type of X with
  | extends _ _ ?o => destruct o as [[] t1|e t1|]
  end; cbn [grows extends] in *; trivial;
    destruct X as (seg & -> & X); exists (Enter u path :: seg);
    (split; [now rewrite <- app_assoc|]); exists seg;
    (split; [reflexivity | now apply crawls_inner]).
Qed.

Lemma tracks_ret (t : trace) (p : plan) : tracks t p p (ret (entries p) t).
Proof.
  split; [reflexivity|]. exists []. now rewrite !app_nil_r.
Qed.

Lemma fold_calls_grow (A : Type) (f : plan -> A -> plan) (xs : list A) :
  (forall p x, exists more, calls (f p x) = calls p ++ more) ->
  forall p, exists more, calls (fold_left f xs p) = calls p ++ more.
Proof.
  intros Hf. induction xs as [|x xs IH]; intros p; cbn [fold_left].
  - exists []. now rewrite app_nil_r.
  - destruct (IH (f p x)) as [m2 E2]. destruct (Hf p x) as [m1 E1].
    exists (m1 ++ m2). now rewrite E2, E1, app_assoc.
Qed.

Lemma fold_entries_grow (A : Type) (f : plan -> A -> plan) (xs : list A) :
  (forall p x, exists more, entries (f p x) = entries p ++ more) ->
  forall p, exists more, entries (fold_left f xs p) = entries p ++ more.
Proof.
  intros Hf. induction xs as [|x xs IH]; intros p; cbn [fold_left].
  - exists []. now rewrite app_nil_r.
  - destruct (IH (f p x)) as [m2 E2]. destruct (Hf p x) as [m1 E1].
    exists (m1 ++ m2). now rewrite E2, E1, app_assoc.
Qed.

Lemma tracks_for_each (A : Type) (f : plan -> A -> plan)
      (body : list str -> A -> M (list str)) (xs : list A) :
  (forall p x, exists more, calls (f p x) = calls p ++ more) ->
  (forall p x t, tracks t p (f p x) (body (entries p) x t)) ->
  forall p t, tracks t p (fold_left f xs p) (for_each body xs (entries p) t).
Proof.
  intros Hg Hb. induction xs as [|x xs IH]; intros p t; cbn [for_each fold_left].
  - apply tracks_ret.
  - unfold bind. specialize (Hb p x t).
    destruct (body (entries p) x t) as [l1 t1|e t1|]; cbn [tracks] in *; trivial.
    + destruct Hb as (-> & s1 & -> & C1). specialize (IH (f p x) (t ++ s1)).
      destruct (for_each body xs (entries (f p x)) (t ++ s1)) as [l2 t2|e t2|];
        cbn [tracks] in *; trivial.
      * destruct IH as (-> & s2 & -> & C2). split; [reflexivity|].
        exists (s1 ++ s2). now rewrite C2, C1, crawls_app, !app_assoc.
      * destruct IH as (s2 & rest & -> & C2). exists (s1 ++ s2), rest.
        now rewrite C2, C1, crawls_app, !app_assoc.
    + destruct Hb as (s1 & rest & -> & C1).
      destruct (fold_calls_grow f xs Hg (f p x)) as [more E].
      exists s1, (rest ++ more). now rewrite E, C1, !app_assoc.
Qed.

Lemma plan_sub_grows (url fp : str) (soup : node) (p : plan) (link : nat) :
  (exists more, calls (plan_sub urljoin url fp soup p link) = calls p ++ more)
  /\ (exists more, entries (plan_sub urljoin url fp soup p link) = entries p ++ more).
Proof.
  unfold plan_sub. destruct (nonempty _); cbn [calls entries]; split; eauto;
    exists []; now rewrite app_nil_r.
Qed.

Lemma plan_row_grows (url path : str) (soup : node) (p : plan) (row : nat) :
  (exists more, calls (plan_row urljoin url path soup p row) = calls p ++ more)
  /\ (exists more, entries (plan_row urljoin url path soup p row) = entries p ++ more).
Proof.
  assert (N : forall q : plan,
             (exists more, calls q = calls q ++ more)
             /\ (exists more, entries q = entries q ++ more)).
  { intros q. split; exists []; now rewrite app_nil_r. }
  unfold plan_row. destruct (select_one FORUM_LINK soup row) as [link|]; [|apply N].
  destruct (recorded _ p); [apply N|]. split.
  - match goal with
    | |- context [fold_left ?f ?xs ?q] =>
        destruct (@fold_calls_grow _ f xs
                    (fun p x => proj1 (plan_sub_grows _ _ _ p x)) q) as [more E]
    end.
    rewrite E. cbn [calls]. rewrite <- app_assoc. eauto.
  - match goal with
    | |- context [fold_left ?f ?xs ?q] =>
        destruct (@fold_entries_grow _ f xs
                    (fun p x => proj2 (plan_sub_grows _ _ _ p x)) q) as [more E]
    end.
    rewrite E. cbn [entries]. rewrite <- app_assoc. eauto.
Qed.

Lemma subforum_step_tracks (fuel : nat) (url forum_path : str) (soup : node)
      (p : plan) (link : nat) (t : trace) :
  tracks t p (plan_sub urljoin url forum_path soup p link)
         (subforum_step' fuel url forum_path soup (entries p) link t).
Proof.
  unfold subforum_step, plan_sub.
  set (name := get_text [] soup link).
  destruct (nonempty name); [|apply tracks_ret].
  unfold item, href_of. destruct (attr HREF soup link) as [h|].
  - unfold bind at 1. unfold ret at 1. unfold bind at 1. unfold emit.
    unfold bind.
    set (u := resolve_url urljoin url h).
    set (fp := path_join forum_path (sanitize_filename name)).
    pose proof (scrape_topic_listing_crawls fuel u fp
                  (t ++ [Print (ProcessingSubForum name)])) as G.
    destruct (scrape_topic_listing' fuel u fp _) as [[] t1|e t1|];
      cbn [tracks grows] in *; trivial;
      destruct G as (seg & -> & seg' & -> & C).
    + split; [reflexivity|].
      exists (Print (ProcessingSubForum name) :: Enter u fp :: seg').
      split; [now rewrite <- app_assoc|]. cbn [calls crawls flat_map app].
      fold (crawls seg'). now rewrite C.
    + exists (Print (ProcessingSubForum name) :: Enter u fp :: seg'), [].
      split; [now rewrite <- app_assoc|]. cbn [calls crawls flat_map app].
      fold (crawls seg'). now rewrite C.
  - unfold bind, raise. cbn [tracks calls].
    exists [], [(resolve_url urljoin url [], path_join forum_path (sanitize_filename name))].
    split; [now rewrite app_nil_r | reflexivity].
Qed.

(** The visit of the sub-forum links of a row. *)
Lemma subforums_tracks (fuel : nat) (url forum_path : str) (soup : node)
      (q : plan) (link : nat) (t : trace) :
  tracks t q
    (fold_left (plan_sub urljoin url forum_path soup) (subforum_links soup link) q)
    (match find_parent TD None soup link with
     | Some parent_td =>
         match find_first SPAN (Some DESC) soup parent_td with
         | Some desc_span =>
             for_each (subforum_step' fuel url forum_path soup)
                      (select SUBFORUM_LINK soup desc_span) (entries q)
         | None => ret (entries q)
         end
     | None => ret (entries q)
     end t).
Proof.
  unfold subforum_links.
  destruct (find_parent TD None soup link) as [td|]; [|apply tracks_ret].
  destruct (find_first SPAN (Some DESC) soup td) as [ds|]; [|apply tracks_ret].
  apply tracks_for_each.
  - intros; apply plan_sub_grows.
  - intros; apply subforum_step_tracks.
Qed.

Lemma forum_row_tracks (fuel : nat) (url current_path : str) (soup : node)
      (p : plan) (row : nat) (t : trace) :
  tracks t p (plan_row urljoin url current_path soup p row)
         (forum_row' fuel url current_path soup (entries p) row t).
Proof.
  unfold forum_row, plan_row.
  destruct (select_one FORUM_LINK soup row) as [link|]; [|apply tracks_ret].
  unfold item, href_of. destruct (attr HREF soup link) as [h|].
  - unfold bind at 1. unfold ret at 1. unfold recorded.
    destruct (existsb _ (entries p)); [apply tracks_ret|].
    unfold bind at 1. unfold emit. unfold bind at 1.
    set (name := get_text [] soup link).
    set (u := resolve_url urljoin url h).
    set (fp := path_join current_path (sanitize_filename name)).
    set (q := Plan (entries p ++ [name ++ BAR ++ u]) (calls p ++ [(u, fp)])).
    pose proof (scrape_topic_listing_crawls fuel u fp
                  (t ++ [Print (ProcessingForum name)])) as G.
    destruct (scrape_topic_listing' fuel u fp _) as [[] t1|e t1|];
      cbn [tracks grows] in *; trivial;
      destruct G as (seg & -> & seg' & -> & C).
    + pose proof (subforums_tracks fuel url fp soup q link
                    ((t ++ [Print (ProcessingForum name)]) ++ Enter u fp :: seg')) as S.
      cbn [entries q] in S.
      match type of S with
      | tracks _ _ _ ?o => destruct o as [found t2|e t2|]
      end; cbn [tracks] in *; trivial.
      * destruct S as (-> & s2 & -> & C2). split; [reflexivity|].
        exists ((Print (ProcessingForum name) :: Enter u fp :: seg') ++ s2).
        split; [now rewrite <- !app_assoc|].
        rewrite C2. cbn [calls q]. rewrite crawls_app. cbn [crawls flat_map app].
        fold (crawls seg'). now rewrite C, <- app_assoc.
      * destruct S as (s2 & rest & -> & C2).
        exists ((Print (ProcessingForum name) :: Enter u fp :: seg') ++ s2), rest.
        split; [now rewrite <- !app_assoc|].
        rewrite C2. cbn [calls q]. rewrite crawls_app. cbn [crawls flat_map app].
        fold (crawls seg'). now rewrite C, <- !app_assoc.
    + destruct (@fold_calls_grow _ (plan_sub urljoin url fp soup)
                  (subforum_links soup link)
                  (fun p x => proj1 (plan_sub_grows _ _ _ p x)) q) as [more E].
      exists (Print (ProcessingForum name) :: Enter u fp :: seg'), more.
      split; [now rewrite <- app_assoc|].
      rewrite E. cbn [calls q crawls flat_map app]. fold (crawls seg').
      now rewrite C, <- app_assoc.
  - unfold bind, raise. cbn [tracks]. unfold recorded.
    destruct (existsb _ (entries p)); [exists [], []; now rewrite !app_nil_r|].
    match goal with
    | |- context [fold_left ?f ?xs ?q] =>
        destruct (@fold_calls_grow _ f xs
                    (fun p x => proj1 (plan_sub_grows _ _ _ p x)) q) as [more E]
    end.
    rewrite E. cbn [calls]. eexists [], (_ :: more).
    split; [now rewrite app_nil_r | now rewrite <- app_assoc].
Qed.

Lemma scrape_forum_index_tracks (fuel : nat) (url current_path : str) (t t1 : trace)
      (soup : node) :
  make_soup http_get url t = Ok (Some soup) t1 ->
  tracks t1 empty_plan (index_plan urljoin url current_path soup)
         (scrape_forum_index' fuel url current_path t).
Proof.
  intros H. unfold scrape_forum_index, bind. rewrite H. unfold index_plan.
  apply (@tracks_for_each _
           (fun p table =>
              fold_left (plan_row urljoin url current_path soup)
                        (select ROWS soup table) p)
           (fun found table =>
              for_each (forum_row' fuel url current_path soup)
                       (select ROWS soup table) found)).
  - intros p table. apply fold_calls_grow. intros; apply plan_row_grows.
  - intros p table t2. apply tracks_for_each.
    + intros; apply plan_row_grows.
    + intros; apply forum_row_tracks.
Qed.

(** A forum that is not passed over is announced and crawled at once, and
    its entry is recorded. *)
Lemma forum_row_started (fuel : nat) (url current_path : str) (soup : node)
      (found : list str) (row link : nat) (href : str) (t : trace) :
  let name := get_text [] soup link in
  let u := resolve_url urljoin url href in
  let run := forum_row' fuel url current_path soup found row t in
  select_one FORUM_LINK soup row = Some link ->
  attr HREF soup link = Some href ->
  existsb (contains u) found = false ->
  started [Print (ProcessingForum name);
           Enter u (path_join current_path (sanitize_filename name))] t run
  /\ (forall found' t', run = Ok found' t' ->
        exists more, found' = (found ++ [name ++ BAR ++ u]) ++ more).
Proof.
  intros name u run Hl Hh Hd.
  pose proof (forum_row_tracks fuel url current_path soup (Plan found []) row t) as T.
  cbn [entries] in T. fold run in T.
  unfold plan_row in T. rewrite Hl in T. unfold href_of in T. rewrite Hh in T.
  unfold recorded in T. cbn [entries] in T. fold u in T. rewrite Hd in T.
  fold name in T.
  set (fp := path_join current_path (sanitize_filename name)) in *.
  set (q := Plan (found ++ [name ++ BAR ++ u]) ([] ++ [(u, fp)])) in T.
  destruct (@fold_calls_grow _ (plan_sub urljoin url fp soup)
              (subforum_links soup link)
              (fun p x => proj1 (plan_sub_grows _ _ _ p x)) q) as [mc Ec].
  destruct (@fold_entries_grow _ (plan_sub urljoin url fp soup)
              (subforum_links soup link)
              (fun p x => proj2 (plan_sub_grows _ _ _ p x)) q) as [me Ee].
  assert (R : run = (scrape_topic_listing' fuel u fp ;;;
                     match find_parent TD None soup link with
                     | Some parent_td =>
                         match find_first SPAN (Some DESC) soup parent_td with
                         | Some desc_span =>
                             for_each (subforum_step' fuel url fp soup)
                                      (select SUBFORUM_LINK soup desc_span)
                                      (found ++ [name ++ BAR ++ u])
                         | None => ret (found ++ [name ++ BAR ++ u])
                         end
                     | None => ret (found ++ [name ++ BAR ++ u])
                     end) (t ++ [Print (ProcessingForum name)])).
  { unfold run, forum_row. rewrite Hl. unfold item. rewrite Hh.
    unfold bind at 1. unfold ret at 1. fold u. rewrite Hd.
    unfold bind at 1. unfold emit. reflexivity. }
  split.
  - rewrite R. unfold bind.
    pose proof (scrape_topic_listing_crawls fuel u fp
                  (t ++ [Print (ProcessingForum name)])) as G.
    destruct (scrape_topic_listing' fuel u fp _) as [[] t1|e t1|];
      cbn [started grows] in *; trivial;
      destruct G as (seg & -> & seg' & -> & C).
    + pose proof (subforums_tracks fuel url fp soup q link
                    ((t ++ [Print (ProcessingForum name)]) ++ Enter u fp :: seg')) as S.
      cbn [entries q] in S.
      match type of S with
      | tracks _ _ _ ?o => destruct o as [f2 t2|e t2|]
      end; cbn [tracks started] in *; trivial.
      * destruct S as (_ & s2 & -> & _). exists (seg' ++ s2).
        now rewrite <- !app_assoc.
      * destruct S as (s2 & _ & -> & _). exists (seg' ++ s2).
        now rewrite <- !app_assoc.
    + exists seg'. now rewrite <- app_assoc.
  - intros found' t' E. rewrite E in T. destruct T as [F _].
    exists me. rewrite F. exact Ee.
Qed.


End IndexFacts.


(** The same sub-forum listed twice in a row is recorded and crawled
    twice: the sub-forum loop has no test on the recorded entries. *)
Example forum_index_twice :
  result sample_twice_run
  = Some [lit "General | http://a/?showforum=1";
          lit "  - Help | http://a/?showforum=2";
          lit "  - Help | http://a/?showforum=2"].
Proof. vm_compute. reflexivity. Qed.



(** ** Limits of the error handling *)

(** A filesystem that refuses to create the directory: the error is
    printed, nothing is written, and the caller is not told. *)
Example write_to_file_refused :
  write_to_file fs_refuses fs_accepts_write (lit "forums/General/listing.txt") [] []
  = Ok tt [MakeDirs (lit "forums/General") false;
           Print (ErrorWriting (lit "forums/General/listing.txt"))].
Proof. reflexivity. Qed.

(** A file name that holds U+0000: the directory is created, [open]
    raises [ValueError], which is not caught. *)
Example write_to_file_nul :
  write_to_file fs_accepts fs_accepts_write
    (lit "forums/General/a" ++ [0%N] ++ lit ".txt") (lit "text") []
  = Raised ValueError
           [MakeDirs (lit "forums/General") true;
            WriteFile (lit "forums/General/a" ++ [0%N] ++ lit ".txt") (lit "text") false].
Proof. reflexivity. Qed.

(** A text that holds a surrogate: the file is opened, the write raises
    [UnicodeEncodeError], a [ValueError], which is not caught. *)
Example write_to_file_surrogate :
  write_to_file fs_accepts fs_accepts_write
    (lit "forums/General/a.txt") [55296%N] []
  = Raised ValueError
           [MakeDirs (lit "forums/General") true;
            WriteFile (lit "forums/General/a.txt") [55296%N] false].
Proof. reflexivity. Qed.

(** A body that the parser does not accept: its exception leaves the post
    extractor. *)
Example scrape_post_content_rejected :
  scrape_post_content sample_urljoin ascii_digit (fun _ _ => Unparsed 200)
                      1 (lit "http://a/?showtopic=1") []
  = Raised ParserRejectedMarkup
           (before_first (lit "http://a/?showtopic=1")
            ++ [Get (lit "http://a/?showtopic=1")]).
Proof. reflexivity. Qed.

(** A next link without [href] makes the lookup raise: the pagination
    loops let that exception escape. *)
Example next_link_without_href :
  next_page sample_urljoin (lit "http://a/") sample_broken_next []
  = Raised (KeyError HREF) [].
Proof. reflexivity. Qed.

(** * Further properties *)

(** ** URL resolver and file names *)

(** X1: an href that is absolute, or an archive path, resolves to a URL on
    which resolving again, against any base, changes nothing. *)
Theorem resolve_url_stable (urljoin : str -> str -> str) (base base' href : str) :
  startswith HTTP href = true \/ startswith WEB href = true ->
  resolve_url urljoin base' (resolve_url urljoin base href)
  = resolve_url urljoin base href.
Proof.
  intros H.
  assert (E : resolve_url urljoin base href = href
              \/ resolve_url urljoin base href = ARCHIVE_ORIGIN ++ href).
  { unfold resolve_url. destruct (startswith HTTP href); [now left|].
    destruct H as [H|H]; [discriminate|]. rewrite H. now right. }
  destruct E as [E|E]; rewrite E.
  - unfold resolve_url. destruct (startswith HTTP href) eqn:E1; [reflexivity|].
    unfold resolve_url in E. rewrite E1 in E.
    destruct H as [H|H]; [discriminate|]. rewrite H in E.
    apply (f_equal (@length char)) in E. rewrite length_app in E.
    cbn in E. lia.
  - reflexivity.
Qed.

Lemma resolve_url_stable_witness :
  resolve_url sample_urljoin (lit "http://b/")
    (resolve_url sample_urljoin (lit "http://a/") (lit "/web/2016/http://x/"))
  = resolve_url sample_urljoin (lit "http://a/") (lit "/web/2016/http://x/").
Proof.
  apply (@resolve_url_stable sample_urljoin (lit "http://a/") (lit "http://b/")
           (lit "/web/2016/http://x/")).
  right. reflexivity.
Defined.

Lemma tidy_tail (b : bool) (c : char) (s : str) :
  tidy b (c :: s) = true -> tidy (space_or_us c) s = true.
Proof.
  cbn [tidy]. destruct (space_or_us c); intros H;
    apply andb_true_iff in H as [_ H]; exact H.
Qed.

Lemma tidy_no_double (s a r : str) (b : bool) :
  tidy b s = true -> s <> a ++ [UNDERSCORE; UNDERSCORE] ++ r.
Proof.
  revert s b. induction a as [|x a IH]; intros s b T E; subst s.
  - cbn [app tidy] in T.
    replace (space_or_us UNDERSCORE) with true in T by reflexivity.
    apply andb_true_iff in T as [_ T]. apply andb_true_iff in T as [T _].
    apply andb_true_iff in T as [_ T]. discriminate.
  - cbn [app] in T. apply tidy_tail in T. now apply (IH _ _ T).
Qed.

Lemma tidy_of_clean (s : str) (b : bool) :
  Forall (fun c => isspace c = false) s ->
  Forall (fun c => invalid_char c = false) s ->
  (forall a r, s <> a ++ [UNDERSCORE; UNDERSCORE] ++ r) ->
  (b = true -> match s with c :: _ => c <> UNDERSCORE | [] => True end) ->
  tidy b s = true.
Proof.
  intros Hs. revert b. induction Hs as [|c s Hc _ IH]; intros b Hi Hd Hb;
    [reflexivity|].
  inversion Hi as [|? ? Hic Hi']; subst. cbn [tidy].
  assert (Hd' : forall a r, s <> a ++ [UNDERSCORE; UNDERSCORE] ++ r).
  { intros a r E. apply (Hd (c :: a) r). now rewrite E. }
  unfold space_or_us. rewrite Hc. cbn [orb].
  destruct (char_eqb c UNDERSCORE) eqn:E.
  - apply char_eqb_eq in E. subst c. cbn [andb].
    assert (Hb' : b = false).
    { destruct b; [|reflexivity]. now destruct (Hb eq_refl). }
    rewrite Hb'. cbn [negb andb]. apply IH; trivial.
    intros _. destruct s as [|d s]; [exact I|]. intros ->.
    now apply (Hd [] s).
  - rewrite Hic. cbn [negb andb]. apply IH; trivial. discriminate.
Qed.

(** X2: the output of [sanitize_filename] holds no blank of any kind and
    no two underscores in a row. *)
Theorem sanitize_filename_collapsed (name : str) :
  Forall (fun c => isspace c = false) (sanitize_filename name)
  /\ forall a b, sanitize_filename name <> a ++ [UNDERSCORE; UNDERSCORE] ++ b.
Proof.
  pose proof (sanitize_tidy name) as T. split.
  - exact (tidy_nospace _ _ T).
  - intros a b. exact (tidy_no_double a b _ T).
Qed.

(** X3: [sanitize_filename] leaves a name unchanged exactly when the name
    has no blank, no invalid character, no two underscores in a row and at
    most 100 characters. *)
Theorem sanitize_filename_fixed (x : str) :
  sanitize_filename x = x <-> clean_name x.
Proof.
  split.
  - intros E. pose proof (sanitize_tidy x) as T. rewrite E in T.
    repeat split.
    + exact (tidy_nospace _ _ T).
    + exact (tidy_valid _ _ T).
    + intros a b. exact (tidy_no_double a b _ T).
    + rewrite <- E. unfold sanitize_filename. rewrite length_firstn. lia.
  - intros (Hs & Hi & Hd & Hl).
    assert (T : tidy false x = true) by (apply tidy_of_clean; trivial; discriminate).
    unfold sanitize_filename, collapse_runs.
    rewrite (strip_id Hs), (sub_invalid_id Hi), (sub_runs_id _ _ T).
    now apply firstn_all2.
Qed.

Lemma lstrip_length (s : str) : length (lstrip s) <= length s.
Proof.
  induction s as [|c s IH]; [reflexivity|]. cbn [lstrip].
  destruct (isspace c); cbn [length]; lia.
Qed.

Lemma strip_length (s : str) : length (strip s) <= length s.
Proof.
  unfold strip, rstrip. rewrite length_rev.
  pose proof (lstrip_length (rev (lstrip s))) as H. rewrite length_rev in H.
  pose proof (lstrip_length s). lia.
Qed.

Lemma sub_runs_length (s : str) (b : bool) : length (sub_runs b s) <= length s.
Proof.
  revert b. induction s as [|c s IH]; intros b; [reflexivity|]. cbn [sub_runs].
  pose proof (IH true). pose proof (IH false).
  destruct (space_or_us c); [destruct b|]; cbn [length]; lia.
Qed.

(** X4: [sanitize_filename] never makes a name longer. *)
Theorem sanitize_filename_shorter (name : str) :
  length (sanitize_filename name) <= length name.
Proof.
  unfold sanitize_filename, collapse_runs, sub_invalid.
  rewrite length_firstn.
  pose proof (sub_runs_length
                (map (fun c => if invalid_char c then UNDERSCORE else c) (strip name))
                false) as H.
  rewrite length_map in H. pose proof (strip_length name). lia.
Qed.

(** ** Post extractor *)

Section ExtractorMore.
Variable urljoin : str -> str -> str.
Variable isdecimal : char -> bool.
Variable http_get : trace -> str -> response.

(** The loop run over a chain of fetched pages: what is left is the loop
    on the URL after the chain, with the posts of the chain collected. *)
Lemma posts_loop_chain (t : trace) (u : str) (ps : list node) (tk : trace) (uk : str) :
  pages_fetched urljoin isdecimal http_get t u ps tk uk ->
  forall acc k,
    posts_loop urljoin isdecimal http_get (length ps + k) acc u t
    = posts_loop urljoin isdecimal http_get k
        (acc ++ flat_map (page_posts isdecimal) ps) uk tk.
Proof.
  induction 1 as [t u|t u soup t1 u1 ps t2 u2 Hu Hs Hn _ IH]; intros acc k.
  - cbn [length flat_map Nat.add]. now rewrite app_nil_r.
  - cbn [length Nat.add posts_loop]. rewrite Hu. unfold bind at 1. rewrite Hs.
    rewrite page_step_acc. unfold bind. rewrite Hn.
    rewrite IH. cbn [flat_map]. now rewrite app_assoc.
Qed.

Lemma chunks_nonempty_step (soup : node) (acc : list str) (div : nat) :
  Forall (fun s => nonempty s = true) acc ->
  Forall (fun s => nonempty s = true) (snd (post_step isdecimal (soup, acc) div)).
Proof.
  intros H. unfold post_step.
  destruct (find_parent DIV (Some POST_WRAP) soup div) as [w|]; [|exact H].
  destruct (find_first DIV (Some SIGNATURE) (strip_blocks soup div) w) as [sg|];
    cbn [snd].
  - destruct (nonempty (strip _)); repeat (apply Forall_app; split); trivial;
      repeat constructor.
  - cbn [nonempty]. repeat (apply Forall_app; split); trivial; repeat constructor.
Qed.

Lemma chunks_nonempty_page (soup : node) (acc : list str) :
  Forall (fun s => nonempty s = true) acc ->
  Forall (fun s => nonempty s = true) (snd (page_step isdecimal soup acc)).
Proof.
  unfold page_step. generalize (select POST_CONTENT soup (root_id soup)).
  intros divs. revert soup acc.
  induction divs as [|d divs IH]; intros soup acc H; cbn [fold_left]; [exact H|].
  pose proof (chunks_nonempty_step soup d H) as H1.
  destruct (post_step isdecimal (soup, acc) d) as [s1 a1]. now apply IH.
Qed.

Lemma chunks_nonempty_loop (fuel : nat) :
  forall acc u t all t',
    Forall (fun s => nonempty s = true) acc ->
    posts_loop urljoin isdecimal http_get fuel acc u t = Ok all t' ->
    Forall (fun s => nonempty s = true) all.
Proof.
  induction fuel as [|fuel IH]; intros acc u t all t' Ha H; [discriminate|].
  cbn [posts_loop] in H. destruct (nonempty u); [|injection H as <- _; exact Ha].
  unfold bind at 1 in H.
  destruct (make_soup http_get u t) as [[soup|] t1|e t1|]; try discriminate;
    [|injection H as <- _; exact Ha].
  pose proof (chunks_nonempty_page soup Ha) as Hp.
  destruct (page_step isdecimal soup acc) as [s1 a1]. cbn [snd] in Hp.
  unfold bind in H.
  destruct (next_page urljoin u s1 t1) as [[u'|] t2|e t2|]; try discriminate.
  - exact (IH _ _ _ _ _ Hp H).
  - injection H as <- _. exact Hp.
Qed.

End ExtractorMore.

Lemma join_empty (sep : str) (l : list str) :
  Forall (fun s => nonempty s = true) l -> join sep l = [] -> l = [].
Proof.
  intros H E. destruct H as [|p l Hp Hl]; [reflexivity|].
  destruct p as [|c p]; [discriminate|].
  destruct l; discriminate.
Qed.

(** X5: the three ways the post loop ends without a failure.  After a chain
    of fetched pages, a page with no next link, or with a next link whose
    [href] is empty, ends the loop with the posts of all the pages, and so
    does a next link that resolves to the empty URL, before any fetch. *)
Theorem scrape_post_content_stops
    (urljoin : str -> str -> str) (isdecimal : char -> bool)
    (http_get : trace -> str -> response)
    (t : trace) (topic_url : str) (ps : list node) (tk : trace) (uk : str)
    (fuel : nat) :
  pages_fetched urljoin isdecimal http_get t topic_url ps tk uk ->
  length ps < fuel ->
  (forall soup t',
      nonempty uk = true ->
      make_soup http_get uk tk = Ok (Some soup) t' ->
      next_page urljoin uk (page_after isdecimal soup) t' = Ok None t' ->
      scrape_post_content urljoin isdecimal http_get fuel topic_url t
      = Ok (join NL (flat_map (page_posts isdecimal) (ps ++ [soup]))) t')
  /\ (nonempty uk = false ->
      scrape_post_content urljoin isdecimal http_get fuel topic_url t
      = Ok (join NL (flat_map (page_posts isdecimal) ps)) tk).
Proof.
  intros Hp Hl.
  assert (F : exists k, fuel = length ps + S k) by (exists (fuel - S (length ps)); lia).
  destruct F as [k ->]. unfold scrape_post_content. split.
  - intros soup t' Hu Hs Hn. unfold bind at 1.
    rewrite (posts_loop_chain Hp). cbn [posts_loop app]. rewrite Hu.
    unfold bind at 1. rewrite Hs. rewrite page_step_acc. unfold bind. rewrite Hn.
    unfold ret. rewrite flat_map_app. cbn [flat_map]. now rewrite app_nil_r.
  - intros Hu. unfold bind. rewrite (posts_loop_chain Hp). cbn [posts_loop app].
    now rewrite Hu.
Qed.

Lemma scrape_post_content_stops_witness :
  scrape_post_content sample_urljoin ascii_digit sample_get 3
    (lit "http://a/?showtopic=1") []
  = Ok (join NL (flat_map (page_posts ascii_digit) ([sample_post1] ++ [sample_post2])))
       ((before_first (lit "http://a/?showtopic=1") ++ [Get (lit "http://a/?showtopic=1")])
        ++ before_first (lit "http://a/?showtopic=1&page=2")
        ++ [Get (lit "http://a/?showtopic=1&page=2")]).
Proof.
  refine (proj1 (@scrape_post_content_stops sample_urljoin ascii_digit sample_get
                   [] (lit "http://a/?showtopic=1") [sample_post1]
                   (before_first (lit "http://a/?showtopic=1")
                    ++ [Get (lit "http://a/?showtopic=1")])
                   (lit "http://a/?showtopic=1&page=2") 3 _ _)
                sample_post2 _ eq_refl eq_refl eq_refl).
  - apply fetched_page
      with (t1 := before_first (lit "http://a/?showtopic=1")
                  ++ [Get (lit "http://a/?showtopic=1")])
           (u1 := lit "http://a/?showtopic=1&page=2");
      try reflexivity.
    apply fetched_none.
  - cbn. lia.
Defined.

(** X6: a next link without [href] makes the lookup of the attribute
    raise [KeyError]; the exception leaves [scrape_post_content], and the
    posts collected on the pages before are not returned. *)
Theorem scrape_post_content_key_error
    (urljoin : str -> str -> str) (isdecimal : char -> bool)
    (http_get : trace -> str -> response)
    (t : trace) (topic_url : str) (ps : list node) (tk : trace) (uk : str)
    (fuel : nat) (soup : node) (t' : trace) (next_link : nat) :
  pages_fetched urljoin isdecimal http_get t topic_url ps tk uk ->
  length ps < fuel ->
  nonempty uk = true ->
  make_soup http_get uk tk = Ok (Some soup) t' ->
  select_one A_NEXT (page_after isdecimal soup) (root_id (page_after isdecimal soup))
  = Some next_link ->
  attr HREF (page_after isdecimal soup) next_link = None ->
  scrape_post_content urljoin isdecimal http_get fuel topic_url t
  = Raised (KeyError HREF) t'.
Proof.
  intros Hp Hl Hu Hs Hn Ha.
  assert (F : exists k, fuel = length ps + S k) by (exists (fuel - S (length ps)); lia).
  destruct F as [k ->]. unfold scrape_post_content. unfold bind at 1.
  rewrite (posts_loop_chain Hp). cbn [posts_loop app]. rewrite Hu.
  unfold bind at 1. rewrite Hs. rewrite page_step_acc. unfold bind.
  unfold next_page. rewrite Hn. unfold item. rewrite Ha. reflexivity.
Qed.

Lemma scrape_post_content_key_error_witness :
  scrape_post_content sample_urljoin ascii_digit broken_get 1 (lit "http://a/t") []
  = Raised (KeyError HREF) (before_first (lit "http://a/t") ++ [Get (lit "http://a/t")]).
Proof.
  apply (@scrape_post_content_key_error sample_urljoin ascii_digit broken_get
           [] (lit "http://a/t") [] [] (lit "http://a/t") 1 sample_broken_next
           (before_first (lit "http://a/t") ++ [Get (lit "http://a/t")]) 1).
  - apply fetched_none.
  - cbn. lia.
  - reflexivity.
  - reflexivity.
  - reflexivity.
  - reflexivity.
Defined.

(** X7: the text that [scrape_post_content] returns is empty exactly when
    no post was collected: every block it joins is non-empty. *)
Theorem scrape_post_content_empty
    (urljoin : str -> str -> str) (isdecimal : char -> bool)
    (http_get : trace -> str -> response)
    (fuel : nat) (topic_url : str) (t : trace) (content : str) (t' : trace) :
  scrape_post_content urljoin isdecimal http_get fuel topic_url t = Ok content t' ->
  exists all_posts_text,
    posts_loop urljoin isdecimal http_get fuel [] topic_url t = Ok all_posts_text t'
    /\ content = join NL all_posts_text
    /\ Forall (fun s => nonempty s = true) all_posts_text
    /\ (content = [] <-> all_posts_text = []).
Proof.
  unfold scrape_post_content, bind. intros H.
  destruct (posts_loop urljoin isdecimal http_get fuel [] topic_url t)
    as [all t1|e t1|] eqn:E; try discriminate.
  injection H as <- <-. exists all.
  pose proof (@chunks_nonempty_loop urljoin isdecimal http_get fuel [] topic_url t
                all t1 (Forall_nil _) E) as N.
  repeat split; trivial.
  - intros J. exact (join_empty NL N J).
  - intros ->. reflexivity.
Qed.

Lemma scrape_post_content_empty_witness :
  exists all_posts_text,
    posts_loop sample_urljoin ascii_digit sample_get 3 []
      (lit "http://a/?showtopic=1") sample_topic_start
    = Ok all_posts_text sample_topic_trace
    /\ sample_topic_content = join NL all_posts_text
    /\ Forall (fun s => nonempty s = true) all_posts_text
    /\ (sample_topic_content = [] <-> all_posts_text = []).
Proof.
  apply (@scrape_post_content_empty sample_urljoin ascii_digit sample_get 3
           (lit "http://a/?showtopic=1") sample_topic_start
           sample_topic_content sample_topic_trace).
  reflexivity.
Defined.

(** ** Order of the events of a crawl *)

Lemma str_eqb_refl (s : str) : str_eqb s s = true.
Proof.
  induction s as [|c s IH]; [reflexivity|]. cbn [str_eqb].
  unfold char_eqb. now rewrite N.eqb_refl.
Qed.

Lemma str_eqb_eq (a b : str) : str_eqb a b = true -> a = b.
Proof.
  revert b. induction a as [|x a IH]; intros [|y b] H; try discriminate;
    [reflexivity|].
  cbn [str_eqb] in H. apply andb_true_iff in H as [H1 H2].
  apply char_eqb_eq in H1. subst. now rewrite (IH _ H2).
Qed.

Lemma allowed_anywhere (p : option event) (e : event) :
  allowed None e = true -> allowed p e = true.
Proof. destruct e; cbn; trivial; discriminate. Qed.

Lemma orderly_from_app (p : option event) (a b : trace) :
  orderly_from p a = true -> orderly b -> orderly_from p (a ++ b) = true.
Proof.
  revert p. induction a as [|e a IH]; intros p Ha Hb; cbn [app].
  - destruct b as [|e b]; [reflexivity|]. unfold orderly in Hb.
    cbn [orderly_from] in *. apply andb_true_iff in Hb as [H1 H2].
    now rewrite (allowed_anywhere p _ H1), H2.
  - cbn [orderly_from] in *. apply andb_true_iff in Ha as [H1 H2].
    now rewrite H1, (IH _ H2 Hb).
Qed.

Lemma orderly_app (a b : trace) : orderly a -> orderly b -> orderly (a ++ b).
Proof. intros Ha Hb. now apply orderly_from_app. Qed.

(** The event before the position [length pre] of [pre ++ e :: post]. *)
Lemma orderly_from_at (p : option event) (pre post : trace) (e : event) :
  orderly_from p (pre ++ e :: post) = true ->
  allowed (match rev pre with [] => p | x :: _ => Some x end) e = true.
Proof.
  revert p. induction pre as [|x pre IH]; intros p H.
  - cbn in H. now apply andb_true_iff in H as [H _].
  - cbn [app orderly_from] in H. apply andb_true_iff in H as [_ H].
    apply IH in H. cbn [rev]. destruct (rev pre) as [|y r]; exact H.
Qed.

Lemma rev_head_last (A : Type) (l r : list A) (x : A) :
  rev l = x :: r -> l = rev r ++ [x].
Proof.
  intros H. rewrite <- (rev_involutive l), H. reflexivity.
Qed.

Lemma orderly_polite (seg : trace) : orderly seg -> polite seg.
Proof.
  intros H pre url post ->. apply orderly_from_at in H. cbn [allowed] in H.
  destruct (rev pre) as [|x r] eqn:E; [discriminate|].
  destruct x; try discriminate. apply N.eqb_eq in H. subst.
  exists (rev r). now apply rev_head_last.
Qed.

Lemma orderly_prepared (seg : trace) : orderly seg -> prepared seg.
Proof.
  intros H pre f c ok post ->. apply orderly_from_at in H. cbn [allowed] in H.
  destruct (rev pre) as [|x r] eqn:E; [discriminate|].
  destruct x as [| | |d made| |]; try discriminate.
  destruct made; [|discriminate]. apply str_eqb_eq in H. subst.
  exists (rev r). now apply rev_head_last.
Qed.

Section Growth.
Variable Q : trace -> Prop.
Hypothesis Q_nil : Q [].
Hypothesis Q_app : forall a b, Q a -> Q b -> Q (a ++ b).

Lemma grows_ret (A : Type) (a : A) (t : trace) : grows Q t (ret a t).
Proof. exists []. now rewrite app_nil_r. Qed.

Lemma grows_raise (A : Type) (e : exn) (t : trace) : grows Q t (@raise A e t).
Proof. exists []. now rewrite app_nil_r. Qed.

Lemma grows_bind (A B : Type) (m : M A) (f : A -> M B) (t : trace) :
  grows Q t (m t) ->
  (forall a t', grows Q t' (f a t')) ->
  grows Q t (bind m f t).
Proof.
  unfold bind. intros Hm Hf. destruct (m t) as [a t1|e t1|]; cbn [grows] in *; trivial.
  destruct Hm as (s1 & -> & H1). specialize (Hf a (t ++ s1)).
  destruct (f a (t ++ s1)) as [b t2|e t2|]; cbn [grows] in *; trivial;
    destruct Hf as (s2 & -> & H2); exists (s1 ++ s2);
    (split; [now rewrite app_assoc | now apply Q_app]).
Qed.

Lemma grows_for_each (A S : Type) (body : S -> A -> M S) (l : list A) :
  (forall s x t, grows Q t (body s x t)) ->
  forall s t, grows Q t (for_each body l s t).
Proof.
  intros Hb. induction l as [|x l IH]; intros s t; cbn [for_each].
  - apply grows_ret.
  - apply grows_bind; [apply Hb | intros; apply IH].
Qed.

End Growth.

Lemma grows_delivered (Q : trace -> Prop) (t seg : trace) (r : response) :
  Q seg -> grows Q t (delivered r (t ++ seg)).
Proof. intros H. destruct r; cbn [delivered grows]; eauto. Qed.

Section OrderFacts.
Variable urljoin : str -> str -> str.
Variable isdecimal : char -> bool.
Variable isword : char -> bool.
Variable http_get : trace -> str -> response.
Variable os_makedirs : trace -> str -> bool.
Variable os_write : trace -> str -> str -> bool.

Let O_nil : orderly [] := eq_refl.

Lemma make_soup_orderly (url : str) (t : trace) :
  grows orderly t (make_soup http_get url t).
Proof.
  rewrite make_soup_cases. cbv zeta.
  destruct (failed (http_get (t ++ before_first url) url));
    [destruct (failed (http_get (t ++ before_second url) url));
     [destruct (failed (http_get (t ++ before_third url) url))|]|];
    try (apply grows_delivered; reflexivity).
  cbn [grows]; eexists; split; reflexivity.
Qed.

Lemma emit_orderly (e : event) (t : trace) :
  allowed None e = true -> grows orderly t (emit e t).
Proof.
  intros H. exists [e]. split; [reflexivity|]. unfold orderly. cbn. now rewrite H.
Qed.

Lemma item_orderly (name : str) (soup : node) (i : nat) (t : trace) :
  grows orderly t (item name soup i t).
Proof.
  unfold item. destruct (attr name soup i);
    [now apply grows_ret | now apply grows_raise].
Qed.

Lemma next_page_orderly (u : str) (soup : node) (t : trace) :
  grows orderly t (next_page urljoin u soup t).
Proof.
  unfold next_page. destruct (select_one A_NEXT soup (root_id soup)).
  - apply grows_bind; [exact orderly_app | apply item_orderly|]. intros h t'.
    destruct (nonempty h); now apply grows_ret.
  - now apply grows_ret.
Qed.

Lemma posts_loop_orderly (fuel : nat) :
  forall acc u t, grows orderly t (posts_loop urljoin isdecimal http_get fuel acc u t).
Proof.
  induction fuel as [|fuel IH]; intros acc u t; cbn [posts_loop]; [exact I|].
  destruct (nonempty u); [|now apply grows_ret].
  apply grows_bind; [exact orderly_app | apply make_soup_orderly|].
  intros [soup|] t1; [|now apply grows_ret].
  destruct (page_step isdecimal soup acc) as [soup' acc'].
  apply grows_bind; [exact orderly_app | apply next_page_orderly|].
  intros [u'|] t2; [apply IH | now apply grows_ret].
Qed.

Lemma scrape_post_content_orderly (fuel : nat) (u : str) (t : trace) :
  grows orderly t (scrape_post_content urljoin isdecimal http_get fuel u t).
Proof.
  unfold scrape_post_content.
  apply grows_bind; [exact orderly_app | apply posts_loop_orderly|].
  intros; now apply grows_ret.
Qed.

Lemma write_to_file_orderly (filepath content : str) (t : trace) :
  grows orderly t (write_to_file os_makedirs os_write filepath content t).
Proof.
  rewrite write_to_file_events.
  assert (orderly (write_events os_makedirs os_write t filepath content)).
  { unfold write_events, orderly.
    destruct (os_makedirs t (dirname filepath)); [|reflexivity].
    destruct (valid_path (dirname filepath)); [|reflexivity].
    destruct (valid_path filepath); [|cbn; now rewrite str_eqb_refl].
    destruct (os_write _ filepath content); cbn; now rewrite str_eqb_refl. }
  destruct (write_raises _ _ _ _ _); cbn [grows]; eauto.
Qed.

Lemma topic_row_orderly (fuel : nat) (cur path : str) (soup : node)
      (l : list str) (row : nat) (t : trace) :
  grows orderly t
    (topic_row urljoin isdecimal isword http_get os_makedirs os_write
               fuel cur path soup l row t).
Proof.
  unfold topic_row. destruct (select_one TOPIC_LINK soup row) as [a|];
    [|now apply grows_ret].
  apply grows_bind; [exact orderly_app | apply item_orderly|]. intros href t1.
  apply grows_bind; [exact orderly_app | now apply emit_orderly|]. intros _ t2.
  apply grows_bind; [exact orderly_app | apply scrape_post_content_orderly|].
  intros content t3. destruct (nonempty content); [|now apply grows_ret].
  apply grows_bind; [exact orderly_app | apply write_to_file_orderly|].
  intros; now apply grows_ret.
Qed.

Lemma topic_pages_orderly (fuel : nat) :
  forall (l : list str) (u path : str) (t : trace),
    grows orderly t
      (topic_pages urljoin isdecimal isword http_get os_makedirs os_write
                   fuel l u path t).
Proof.
  induction fuel as [|fuel IH]; intros l u path t; cbn [topic_pages]; [exact I|].
  destruct (nonempty u); [|now apply grows_ret].
  apply grows_bind; [exact orderly_app | apply make_soup_orderly|].
  intros [soup|] t1; [|now apply grows_ret].
  apply grows_bind; [exact orderly_app | |].
  { apply grows_for_each; [exact O_nil | exact orderly_app|].
    intros; apply topic_row_orderly. }
  intros l1 t2. apply grows_bind; [exact orderly_app | apply next_page_orderly|].
  intros [u'|] t3; [apply IH | now apply grows_ret].
Qed.

Lemma scrape_topic_listing_orderly (fuel : nat) (u path : str) (t : trace) :
  grows orderly t
    (scrape_topic_listing urljoin isdecimal isword http_get os_makedirs os_write
                          fuel u path t).
Proof.
  unfold scrape_topic_listing.
  apply grows_bind; [exact orderly_app | now apply emit_orderly|]. intros _ t1.
  apply grows_bind; [exact orderly_app | apply topic_pages_orderly|].
  intros l t2. apply write_to_file_orderly.
Qed.

Lemma subforum_step_orderly (fuel : nat) (url fp : str) (soup : node)
      (found : list str) (link : nat) (t : trace) :
  grows orderly t
    (subforum_step urljoin isdecimal isword http_get os_makedirs os_write
                   fuel url fp soup found link t).
Proof.
  unfold subforum_step. destruct (nonempty (get_text [] soup link));
    [|now apply grows_ret].
  apply grows_bind; [exact orderly_app | apply item_orderly|]. intros href t1.
  apply grows_bind; [exact orderly_app | now apply emit_orderly|]. intros _ t2.
  apply grows_bind; [exact orderly_app | apply scrape_topic_listing_orderly|].
  intros; now apply grows_ret.
Qed.

Lemma forum_row_orderly (fuel : nat) (url path : str) (soup : node)
      (found : list str) (row : nat) (t : trace) :
  grows orderly t
    (forum_row urljoin isdecimal isword http_get os_makedirs os_write
               fuel url path soup found row t).
Proof.
  unfold forum_row. destruct (select_one FORUM_LINK soup row) as [a|];
    [|now apply grows_ret].
  apply grows_bind; [exact orderly_app | apply item_orderly|]. intros href t1.
  destruct (existsb _ found); [now apply grows_ret|].
  apply grows_bind; [exact orderly_app | now apply emit_orderly|]. intros _ t2.
  apply grows_bind; [exact orderly_app | apply scrape_topic_listing_orderly|].
  intros _ t3.
  destruct (find_parent TD None soup a) as [td|]; [|now apply grows_ret].
  destruct (find_first SPAN (Some DESC) soup td) as [ds|]; [|now apply grows_ret].
  apply grows_for_each; [exact O_nil | exact orderly_app|].
  intros; apply subforum_step_orderly.
Qed.

Lemma scrape_forum_index_orderly (fuel : nat) (url path : str) (t : trace) :
  grows orderly t
    (scrape_forum_index urljoin isdecimal isword http_get os_makedirs os_write
                        fuel url path t).
Proof.
  unfold scrape_forum_index.
  apply grows_bind; [exact orderly_app | apply make_soup_orderly|].
  intros [soup|] t1; [|now apply grows_ret].
  apply grows_for_each; [exact O_nil | exact orderly_app|].
  intros found table t2.
  apply grows_for_each; [exact O_nil | exact orderly_app|].
  intros; apply forum_row_orderly.
Qed.

End OrderFacts.

Lemma grows_weaken (A : Type) (Q R : trace -> Prop) (t : trace) (o : outcome A) :
  (forall seg, Q seg -> R seg) -> grows Q t o -> grows R t o.
Proof.
  intros QR. destruct o as [a t'|e t'|]; cbn; trivial;
    intros (seg & -> & H); exists seg; auto.
Qed.

(** X8: whatever the network answers, in every run of the three crawlers,
    whether it returns or raises, each request comes right after a wait of
    [REQUEST_DELAY_SECONDS]. *)
Theorem crawl_polite
    (urljoin : str -> str -> str) (isdecimal isword : char -> bool)
    (http_get : trace -> str -> response)
    (os_makedirs : trace -> str -> bool) (os_write : trace -> str -> str -> bool)
    (fuel : nat) (url path : str) (t : trace) :
  grows polite t (scrape_post_content urljoin isdecimal http_get fuel url t)
  /\ grows polite t
       (scrape_topic_listing urljoin isdecimal isword http_get os_makedirs os_write
                             fuel url path t)
  /\ grows polite t
       (scrape_forum_index urljoin isdecimal isword http_get os_makedirs os_write
                           fuel url path t).
Proof.
  repeat split; apply grows_weaken with (Q := orderly); try exact orderly_polite.
  - apply scrape_post_content_orderly.
  - apply scrape_topic_listing_orderly.
  - apply scrape_forum_index_orderly.
Qed.

(** X9: in every run of the topic and index crawlers, each file is
    written right after the successful creation of its directory: no write
    is attempted when [os.makedirs] failed. *)
Theorem crawl_prepared
    (urljoin : str -> str -> str) (isdecimal isword : char -> bool)
    (http_get : trace -> str -> response)
    (os_makedirs : trace -> str -> bool) (os_write : trace -> str -> str -> bool)
    (fuel : nat) (url path : str) (t : trace) :
  grows prepared t
    (scrape_topic_listing urljoin isdecimal isword http_get os_makedirs os_write
                          fuel url path t)
  /\ grows prepared t
       (scrape_forum_index urljoin isdecimal isword http_get os_makedirs os_write
                           fuel url path t).
Proof.
  split; apply grows_weaken with (Q := orderly); try exact orderly_prepared.
  - apply scrape_topic_listing_orderly.
  - apply scrape_forum_index_orderly.
Qed.

(** ** Where the files go *)

Lemma startswith_app (a x : str) : startswith a (a ++ x) = true.
Proof.
  induction a as [|c a IH]; [reflexivity|]. cbn [app startswith].
  unfold char_eqb. now rewrite N.eqb_refl.
Qed.

Lemma startswith_prefix (a b : str) :
  startswith a b = true -> exists x, b = a ++ x.
Proof.
  revert b. induction a as [|c a IH]; intros b H; [now exists b|].
  destruct b as [|d b]; [discriminate|]. cbn [startswith] in H.
  apply andb_true_iff in H as [H1 H2]. apply char_eqb_eq in H1. subst d.
  destruct (IH _ H2) as [x ->]. now exists x.
Qed.

Lemma startswith_trans (a b c : str) :
  startswith a b = true -> startswith b c = true -> startswith a c = true.
Proof.
  intros H1 H2. apply startswith_prefix in H1 as [x ->].
  apply startswith_prefix in H2 as [y ->]. rewrite <- app_assoc.
  apply startswith_app.
Qed.

(** Joining a relative name to a path extends the path. *)
Lemma path_join_extends (a b : str) :
  startswith [SLASH] b = false -> startswith a (path_join a b) = true.
Proof.
  intros H. unfold path_join. rewrite H.
  destruct (rev a) as [|c r] eqn:E.
  - apply (f_equal (@rev char)) in E. rewrite rev_involutive in E. now subst a.
  - destruct (char_eqb c SLASH); apply startswith_app.
Qed.

Lemma sanitize_relative (name : str) :
  startswith [SLASH] (sanitize_filename name) = false.
Proof.
  pose proof (tidy_valid _ _ (sanitize_tidy name)) as V.
  destruct (sanitize_filename name) as [|c s]; [reflexivity|].
  inversion V as [|? ? Hc _]; subst. cbn [startswith].
  rewrite andb_true_r. unfold char_eqb.
  destruct (N.eqb SLASH c) eqn:E; [|reflexivity].
  apply N.eqb_eq in E. subst c. discriminate.
Qed.

Section PlaceFacts.
Variable urljoin : str -> str -> str.
Variable isdecimal : char -> bool.
Variable isword : char -> bool.
Variable http_get : trace -> str -> response.
Variable os_makedirs : trace -> str -> bool.
Variable os_write : trace -> str -> str -> bool.
Hypothesis slash_not_decimal : isdecimal SLASH = false.

Lemma date_at_head (s : str) (n : nat) :
  date_at isdecimal isword s = Some n ->
  exists a r k, s = a :: r /\ isdecimal a = true /\ n = S k.
Proof.
  unfold date_at. destruct s as [|a r]; [discriminate|].
  assert (One : forall n,
             (if isdecimal a
              then option_map (Nat.add 1) (date_tail isdecimal isword r)
              else None) = Some n ->
             exists a' r' k, a :: r = a' :: r' /\ isdecimal a' = true /\ n = S k).
  { intros m H. destruct (isdecimal a) eqn:D; [|discriminate].
    destruct (date_tail isdecimal isword r) as [j|]; [|discriminate].
    injection H as <-. exists a, r, j. auto. }
  destruct r as [|b r']; [exact (One n)|].
  destruct (isdecimal a && isdecimal b) eqn:D2; [|exact (One n)].
  destruct (date_tail isdecimal isword r') as [j|]; [|exact (One n)].
  intros [= <-]. apply andb_true_iff in D2 as [D _].
  exists a, (b :: r'), (S j). auto.
Qed.

Lemma search_date_head (s m : str) :
  search_date isdecimal isword s = Some m ->
  exists a m', m = a :: m' /\ isdecimal a = true.
Proof.
  induction s as [|c s IH]; [discriminate|]. cbn [search_date].
  destruct (date_at isdecimal isword (c :: s)) as [n|] eqn:E; [|exact IH].
  intros [= <-]. apply date_at_head in E as (a & r & k & Es & Da & ->).
  rewrite Es. cbn [firstn]. eauto.
Qed.

Lemma date_prefix_relative (s rest : str) :
  startswith [SLASH] (date_prefix_of isdecimal isword s ++ rest) = false.
Proof.
  unfold date_prefix_of.
  destruct (search_date isdecimal isword s) as [m|] eqn:E; [|reflexivity].
  apply search_date_head in E as (a & m' & -> & Da).
  cbn [replace_char map app startswith]. rewrite andb_true_r.
  destruct (char_eqb a 32%N) eqn:E32; [reflexivity|].
  unfold char_eqb. destruct (N.eqb SLASH a) eqn:E; [|reflexivity].
  apply N.eqb_eq in E. subst a. congruence.
Qed.

Lemma under_weaken (root p : str) (e : event) :
  startswith root p = true -> under p e = true -> under root e = true.
Proof.
  intros H. destruct e; cbn [under]; trivial. now apply startswith_trans.
Qed.

Lemma write_to_file_under (root filepath content : str) (t : trace) :
  startswith root filepath = true ->
  extends (under root) t (write_to_file os_makedirs os_write filepath content t).
Proof.
  intros H. rewrite write_to_file_events.
  assert (forallb (under root) (write_events os_makedirs os_write t filepath content)
          = true).
  { unfold write_events.
    destruct (os_makedirs t (dirname filepath)); [|reflexivity].
    destruct (valid_path (dirname filepath)); [|reflexivity].
    destruct (valid_path filepath); [|cbn; now rewrite H].
    destruct (os_write _ filepath content); cbn; now rewrite H. }
  destruct (write_raises _ _ _ _ _); cbn [extends]; eauto.
Qed.

Lemma net_under (root : str) (e : event) : net_event e = true -> under root e = true.
Proof. now destruct e. Qed.

Lemma topic_row_under (root : str) (fuel : nat) (cur path : str) (soup : node)
      (l : list str) (row : nat) (t : trace) :
  startswith root path = true ->
  extends (under root) t
    (topic_row urljoin isdecimal isword http_get os_makedirs os_write
               fuel cur path soup l row t).
Proof.
  intros Hr. unfold topic_row. destruct (select_one TOPIC_LINK soup row) as [a|];
    [|apply extends_ret].
  apply extends_bind.
  { apply extends_weaken with (P := net_event); [apply net_under | apply item_net]. }
  intros href t1. apply extends_bind; [now apply extends_emit|]. intros _ t2.
  apply extends_bind.
  { apply extends_weaken with (P := net_event);
      [apply net_under | apply scrape_post_content_net]. }
  intros content t3. destruct (nonempty content); [|apply extends_ret].
  apply extends_bind; [|intros; apply extends_ret].
  apply write_to_file_under. apply startswith_trans with (b := path); [exact Hr|].
  unfold topic_filepath. apply path_join_extends. apply date_prefix_relative.
Qed.

Lemma topic_pages_under (root : str) (fuel : nat) :
  forall (l : list str) (u path : str) (t : trace),
    startswith root path = true ->
    extends (under root) t
      (topic_pages urljoin isdecimal isword http_get os_makedirs os_write
                   fuel l u path t).
Proof.
  induction fuel as [|fuel IH]; intros l u path t Hr; cbn [topic_pages]; [exact I|].
  destruct (nonempty u); [|apply extends_ret].
  apply extends_bind.
  { apply extends_weaken with (P := net_event); [apply net_under | apply make_soup_net]. }
  intros [soup|] t1; [|apply extends_ret].
  apply extends_bind.
  { apply extends_for_each. intros; now apply topic_row_under. }
  intros l1 t2. apply extends_bind.
  { apply extends_weaken with (P := net_event); [apply net_under | apply next_page_net]. }
  intros [u'|] t3; [now apply IH | apply extends_ret].
Qed.

Lemma scrape_topic_listing_under (root : str) (fuel : nat) (u path : str) (t : trace) :
  startswith root path = true ->
  extends (under root) t
    (scrape_topic_listing urljoin isdecimal isword http_get os_makedirs os_write
                          fuel u path t).
Proof.
  intros Hr. unfold scrape_topic_listing.
  apply extends_bind; [now apply extends_emit|]. intros _ t1.
  apply extends_bind; [now apply topic_pages_under|]. intros l t2.
  apply write_to_file_under. apply startswith_trans with (b := path); [exact Hr|].
  now apply path_join_extends.
Qed.

Lemma subforum_step_under (root : str) (fuel : nat) (url fp : str) (soup : node)
      (found : list str) (link : nat) (t : trace) :
  startswith root fp = true ->
  extends (under root) t
    (subforum_step urljoin isdecimal isword http_get os_makedirs os_write
                   fuel url fp soup found link t).
Proof.
  intros Hr. unfold subforum_step. destruct (nonempty (get_text [] soup link));
    [|apply extends_ret].
  apply extends_bind.
  { apply extends_weaken with (P := net_event); [apply net_under | apply item_net]. }
  intros href t1. apply extends_bind; [now apply extends_emit|]. intros _ t2.
  apply extends_bind; [|intros; apply extends_ret].
  apply scrape_topic_listing_under.
  apply startswith_trans with (b := fp); [exact Hr|].
  apply path_join_extends, sanitize_relative.
Qed.

Lemma forum_row_under (fuel : nat) (url path : str) (soup : node)
      (found : list str) (row : nat) (t : trace) :
  extends (under path) t
    (forum_row urljoin isdecimal isword http_get os_makedirs os_write
               fuel url path soup found row t).
Proof.
  unfold forum_row. destruct (select_one FORUM_LINK soup row) as [a|];
    [|apply extends_ret].
  apply extends_bind.
  { apply extends_weaken with (P := net_event); [apply net_under | apply item_net]. }
  intros href t1. destruct (existsb _ found); [apply extends_ret|].
  apply extends_bind; [now apply extends_emit|]. intros _ t2.
  assert (Hp : startswith path
                 (path_join path (sanitize_filename (get_text [] soup a))) = true)
    by apply path_join_extends, sanitize_relative.
  apply extends_bind; [now apply scrape_topic_listing_under|]. intros _ t3.
  destruct (find_parent TD None soup a) as [td|]; [|apply extends_ret].
  destruct (find_first SPAN (Some DESC) soup td) as [ds|]; [|apply extends_ret].
  apply extends_for_each. intros; now apply subforum_step_under.
Qed.

Lemma scrape_forum_index_under (fuel : nat) (url path : str) (t : trace) :
  extends (under path) t
    (scrape_forum_index urljoin isdecimal isword http_get os_makedirs os_write
                        fuel url path t).
Proof.
  unfold scrape_forum_index. apply extends_bind.
  { apply extends_weaken with (P := net_event); [apply net_under | apply make_soup_net]. }
  intros [soup|] t1; [|apply extends_ret].
  apply extends_for_each. intros found table t2.
  apply extends_for_each. intros; apply forum_row_under.
Qed.

End PlaceFacts.

(** X10: provided the slash is no decimal digit, every file that a run of
    the topic crawler or of the index crawler writes, whether the run
    returns or raises, has a path that starts with the output path it was
    given: a title, a forum name or a date never redirects a write. *)
Theorem crawl_writes_under
    (urljoin : str -> str -> str) (isdecimal isword : char -> bool)
    (http_get : trace -> str -> response)
    (os_makedirs : trace -> str -> bool) (os_write : trace -> str -> str -> bool)
    (fuel : nat) (url current_path : str) (t : trace) :
  isdecimal SLASH = false ->
  extends (under current_path) t
    (scrape_topic_listing urljoin isdecimal isword http_get os_makedirs os_write
                          fuel url current_path t)
  /\ extends (under current_path) t
       (scrape_forum_index urljoin isdecimal isword http_get os_makedirs os_write
                           fuel url current_path t).
Proof.
  intros H. split.
  - apply scrape_topic_listing_under; [exact H|].
    rewrite <- (app_nil_r current_path) at 2. apply startswith_app.
  - now apply scrape_forum_index_under.
Qed.

Lemma crawl_writes_under_witness :
  extends (under (lit "forums")) [] sample_index_run.
Proof.
  apply (@crawl_writes_under sample_urljoin ascii_digit ascii_word sample_get
           fs_accepts fs_accepts_write 5 (lit "http://a/index.php") (lit "forums") []).
  reflexivity.
Defined.

(** ** The test on recorded entries *)

(** [needle in hay] holds exactly when [needle] occurs in [hay] as a run of
    consecutive characters. *)
Lemma contains_spec (needle hay : str) :
  contains needle hay = true <-> exists a b, hay = a ++ needle ++ b.
Proof.
  split.
  - induction hay as [|c hay IH]; cbn [contains]; intros H.
    + rewrite orb_false_r in H. destruct needle; [|discriminate]. now exists [], [].
    + apply orb_true_iff in H as [H|H].
      * apply startswith_prefix in H as [x ->]. now exists [], x.
      * destruct (IH H) as (a & b & ->). now exists (c :: a), b.
  - intros (a & b & ->). induction a as [|c a IH]; cbn [app].
    + destruct (needle ++ b) eqn:E; cbn [contains]; rewrite <- ?E;
        now rewrite startswith_app.
    + cbn [contains]. rewrite IH. apply orb_true_r.
Qed.

(** X11: the test that skips a forum row is a substring test on whole
    entries.  A row that carries a forum link is passed over, with nothing
    recorded and no event, exactly when the URL of the link occurs somewhere
    inside a recorded entry, be it inside the longer URL of another forum or
    inside a forum name. *)
Theorem forum_row_loose_dedup
    (urljoin : str -> str -> str) (isdecimal isword : char -> bool)
    (http_get : trace -> str -> response)
    (os_makedirs : trace -> str -> bool) (os_write : trace -> str -> str -> bool)
    (fuel : nat) (url current_path : str) (soup : node)
    (all_forums_found : list str) (row link : nat) (href : str) (t : trace) :
  select_one FORUM_LINK soup row = Some link ->
  attr HREF soup link = Some href ->
  let forum_url := resolve_url urljoin url href in
  forum_row urljoin isdecimal isword http_get os_makedirs os_write
            fuel url current_path soup all_forums_found row t
  = Ok all_forums_found t
  <-> exists entry a b, In entry all_forums_found /\ entry = a ++ forum_url ++ b.
Proof.
  intros Hl Hh forum_url.
  assert (I : existsb (contains forum_url) all_forums_found = true
              <-> exists entry a b,
                    In entry all_forums_found /\ entry = a ++ forum_url ++ b).
  { rewrite existsb_exists. split.
    - intros (entry & Hin & C). apply contains_spec in C as (a & b & E). eauto.
    - intros (entry & a & b & Hin & E). exists entry. split; [exact Hin|].
      apply contains_spec. eauto. }
  split.
  - intros R. apply I.
    destruct (existsb (contains forum_url) all_forums_found) eqn:D; [reflexivity|].
    destruct (@forum_row_started urljoin isdecimal isword http_get os_makedirs
                os_write fuel url current_path soup all_forums_found row link href t
                Hl Hh D) as [S _].
    rewrite R in S. destruct S as [seg S].
    apply (f_equal (@length event)) in S. rewrite !length_app in S.
    cbn [length] in S. lia.
  - intros D. apply I in D.
    unfold forum_row. rewrite Hl. unfold item. rewrite Hh.
    unfold bind, ret. fold forum_url. now rewrite D.
Qed.

Lemma forum_row_loose_dedup_witness :
  forum_row sample_urljoin ascii_digit ascii_word sample_get fs_accepts fs_accepts_write
            5 (lit "http://a/index.php") (lit "forums") sample_index
            [lit "News | http://a/?showforum=12"] 2 []
  = Ok [lit "News | http://a/?showforum=12"] [].
Proof.
  refine (proj2 (@forum_row_loose_dedup sample_urljoin ascii_digit ascii_word sample_get
                   fs_accepts fs_accepts_write 5 (lit "http://a/index.php")
                   (lit "forums") sample_index [lit "News | http://a/?showforum=12"]
                   2 5 (lit "http://a/?showforum=1") [] eq_refl eq_refl) _).
  exists (lit "News | http://a/?showforum=12"), (lit "News | "), (lit "2").
  split; [now left | reflexivity].
Defined.

(** ** Date prefix of a topic file *)

Section DateFacts.
Variable isdecimal : char -> bool.
Variable isword : char -> bool.

Lemma search_date_none (s : str) :
  Forall (fun c => isdecimal c = false) s -> search_date isdecimal isword s = None.
Proof.
  induction 1 as [|c s Hc _ IH]; [reflexivity|]. cbn [search_date].
  destruct (date_at isdecimal isword (c :: s)) as [n|] eqn:E; [|exact IH].
  apply date_at_head in E as (a & r & k & [= <- <-] & D & _). congruence.
Qed.

Lemma search_date_occurs (s m : str) :
  search_date isdecimal isword s = Some m -> exists a b, s = a ++ m ++ b.
Proof.
  induction s as [|c s IH]; [discriminate|]. cbn [search_date].
  destruct (date_at isdecimal isword (c :: s)) as [n|].
  - intros [= <-]. exists [], (skipn n (c :: s)). cbn [app].
    now rewrite firstn_skipn.
  - intros H. destruct (IH H) as (a & b & ->). now exists (c :: a), b.
Qed.

Lemma replace_space (m : str) : Forall (fun c => c <> 32%N) (replace_char 32%N 45%N m).
Proof.
  unfold replace_char. apply Forall_map, Forall_forall. intros c _.
  destruct (char_eqb c 32%N) eqn:E; [discriminate|].
  intros ->. discriminate.
Qed.

End DateFacts.

(** X12: the date prefix of a topic file.  A last-activity text without any
    decimal digit gives the sentinel [unknown_date]; when a date is found,
    the prefix is a run of consecutive characters of the text, starting with
    a digit, in which every space is replaced by a hyphen. *)
Theorem date_prefix_of_cases (isdecimal isword : char -> bool) (text : str) :
  (Forall (fun c => isdecimal c = false) text ->
   date_prefix_of isdecimal isword text = UNKNOWN_DATE_PREFIX)
  /\ (forall m,
        search_date isdecimal isword text = Some m ->
        date_prefix_of isdecimal isword text = replace_char 32%N 45%N m
        /\ (exists a b, text = a ++ m ++ b)
        /\ (exists d m', m = d :: m' /\ isdecimal d = true)
        /\ Forall (fun c => c <> 32%N) (date_prefix_of isdecimal isword text)).
Proof.
  split.
  - intros H. unfold date_prefix_of. now rewrite search_date_none.
  - intros m H. unfold date_prefix_of. rewrite H. split; [reflexivity|].
    split; [exact (search_date_occurs _ _ _ H)|].
    split; [exact (search_date_head _ _ _ H) | apply replace_space].
Qed.

Lemma date_prefix_of_cases_witness :
  date_prefix_of ascii_digit ascii_word NODATE = UNKNOWN_DATE_PREFIX
  /\ date_prefix_of ascii_digit ascii_word (lit "Last post 12 May 2016 by bob")
     = lit "12-May-2016".
Proof.
  split.
  - apply (proj1 (date_prefix_of_cases ascii_digit ascii_word NODATE)).
    repeat constructor.
  - exact (proj1 (proj2 (date_prefix_of_cases ascii_digit ascii_word
                           (lit "Last post 12 May 2016 by bob"))
                    (lit "12 May 2016") eq_refl)).
Defined.

(** ** Signature of a post *)

Lemma selected_elements (sel : selector) (B : node -> bool) (anc : list node)
      (d m : node) :
  (forall a n, matches sel a n = B n) ->
  (forall n, B n = true -> exists i, node_id n = Some i) ->
  NoDup (inner_ids d) ->
  In m (flat_map subnodes (children d)) ->
  elem_in
    (mem (ids_of (filter (fun p => matches sel (fst p) (snd p)) (descendants anc d)))) m
  = B m.
Proof.
  intros HB HE ND Hm. rewrite <- (descendants_subnodes anc) in Hm.
  apply in_map_iff in Hm as [p [<- Hp]].
  rewrite <- (ids_of_descendants anc) in ND.
  unfold elem_in. destruct (node_id (snd p)) as [i|] eqn:Ei.
  - destruct (B (snd p)) eqn:Bp.
    + apply mem_in, ids_of_in. exists p. split; [|exact Ei].
      apply filter_In. split; [exact Hp|]. now rewrite HB.
    + destruct (mem _ i) eqn:Mi; [|reflexivity].
      apply mem_in, ids_of_in in Mi as [q [Hq Iq]].
      apply filter_In in Hq as [Hq Bq]. rewrite HB in Bq.
      rewrite (ids_of_unique _ p q ND Hp Hq Ei Iq) in Bp. congruence.
  - destruct (B (snd p)) eqn:Bp; [|reflexivity].
    apply HE in Bp as [i Bp]. congruence.
Qed.

Lemma strings_remove_outside (P : nat -> bool) (B : node -> bool) (n : node) :
  (forall m, In m (flat_map subnodes (children n)) -> elem_in P m = B m) ->
  strings (remove_where P n) = outside B n.
Proof.
  induction n as [s|s|i t cs ats ks IH] using node_induction; intros H;
    try reflexivity.
  cbn [remove_where strings outside]. cbn [children] in H.
  induction IH as [|k ks' Hk _ IHks]; [reflexivity|].
  cbn [flat_map] in *. rewrite flat_map_app, IHks.
  - f_equal. rewrite (H k).
    + destruct (B k); [reflexivity|]. cbn [flat_map]. rewrite app_nil_r.
      apply Hk. intros m Hm. apply H. apply in_or_app. left.
      destruct k; try contradiction. right. exact Hm.
    + apply in_or_app. left. destruct k; now left.
  - intros m Hm. apply H. apply in_or_app. now right.
Qed.

Lemma matches_image (anc : list node) (n : node) :
  matches [[Compound (Some IMG) [] []]] anc n = is_image n.
Proof.
  unfold is_image, matches, matches_complex. simpl. now rewrite !andb_true_r.
Qed.

Lemma is_image_elem (n : node) : is_image n = true -> exists i, node_id n = Some i.
Proof.
  intros H. destruct n; try (cbv in H; discriminate). simpl. eauto.
Qed.

(** X13: the signature text of a post is made of the text nodes of the
    signature block that lie in no image, each trimmed, the empty ones
    dropped, joined by newlines; the final trimming changes nothing. *)
Theorem signature_without_images (soup : node) (signature_div : nat)
        (anc : list node) (d : node) :
  NoDup (elem_ids soup) ->
  locate signature_div [] soup = Some (anc, d) ->
  signature_text soup signature_div = join NL (stripped (outside is_image d)).
Proof.
  intros ND H. unfold signature_text, find_all.
  assert (B : exists a',
             locate signature_div []
               (decompose_all (select [[Compound (Some IMG) [] []]] soup signature_div) soup)
             = Some (a', remove_where
                           (mem (select [[Compound (Some IMG) [] []]] soup signature_div)) d)).
  { rewrite decompose_all_mem.
    apply (@locate_remove_where _ signature_div soup [] [] anc d ND H).
    intros j Hj. apply mem_in in Hj. unfold select in Hj. rewrite H in Hj.
    rewrite <- (ids_of_descendants anc). apply ids_of_in in Hj as [p [Hp Ip]].
    apply filter_In in Hp as [Hp _]. apply ids_of_in. eauto. }
  destruct B as [a' B]. unfold get_text. rewrite B. rewrite node_text_trimmed.
  unfold node_text. f_equal. f_equal. apply strings_remove_outside.
  intros m Hm. unfold select. rewrite H.
  apply selected_elements; [exact matches_image | exact is_image_elem | | exact Hm].
  destruct (locate_subnode _ _ _ H) as [Hd _].
  pose proof (subnodes_nodup _ _ Hd ND) as NDd.
  destruct d; try (cbn; constructor).
  cbn [elem_ids] in NDd. now apply NoDup_cons_iff in NDd as [_ NDd].
Qed.

Lemma signature_without_images_witness :
  signature_text sample_post 11 = lit "sig".
Proof.
  refine (eq_trans (@signature_without_images sample_post 11
                      (skipn 0 [hd (Text []) (children sample_post); sample_post])
                      (Elem 11 (lit "div") [lit "signature"] []
                            [Text (lit "sig"); Elem 12 (lit "img") [] [] []]) _ _) _).
  - repeat constructor; simpl; intuition discriminate.
  - reflexivity.
  - reflexivity.
Defined.

(** The blocks that one post adds when its container and its signature
    block are found: the header, the signature when its text is not empty,
    the separator. *)
Lemma post_step_blocks (isdecimal : char -> bool) (soup : node) (acc : list str)
      (div post_wrap signature_div : nat) :
  find_parent DIV (Some POST_WRAP) soup div = Some post_wrap ->
  find_first DIV (Some SIGNATURE) (strip_blocks soup div) post_wrap
  = Some signature_div ->
  exists header,
    snd (post_step isdecimal (soup, acc) div)
    = acc ++ [header]
      ++ (if nonempty (signature_text (strip_blocks soup div) signature_div)
          then [signature_block (signature_text (strip_blocks soup div) signature_div)]
          else [])
      ++ [post_separator].
Proof.
  intros Hw Hs. unfold post_step. rewrite Hw, Hs. eexists.
  fold (signature_text (strip_blocks soup div) signature_div).
  destruct (nonempty (signature_text (strip_blocks soup div) signature_div));
    cbn [snd]; now rewrite <- ?app_assoc.
Qed.

(** ** The program *)

Section ProgramFacts.
Variable urljoin : str -> str -> str.
Variable isdecimal : char -> bool.
Variable isword : char -> bool.
Variable http_get : trace -> str -> response.
Variable os_makedirs : trace -> str -> bool.
Variable os_write : trace -> str -> str -> bool.

Lemma in_map_did (e : event) (t : trace) : In (Did e) (map Did t) -> In e t.
Proof.
  intros H. apply in_map_iff in H as (x & [= ->] & Hx). exact Hx.
Qed.

Lemma under_in (root : str) (seg : trace) (f c : str) (ok : bool) :
  forallb (under root) seg = true -> In (WriteFile f c ok) seg ->
  startswith root f = true.
Proof.
  rewrite forallb_forall. intros H Hin. exact (H _ Hin).
Qed.

End ProgramFacts.

(** X14: how the program fails at its start.  When the output directory
    cannot be created the [OSError] is not caught: the program dies before
    any request.  When the index page cannot be fetched the program exits
    normally after the three attempts, having written no file. *)
Theorem main_start_failures
    (urljoin : str -> str -> str) (isdecimal isword : char -> bool)
    (http_get : trace -> str -> response)
    (os_makedirs : trace -> str -> bool) (os_write : trace -> str -> str -> bool)
    (fuel : nat) :
  let run := main urljoin isdecimal isword http_get os_makedirs os_write fuel in
  let url := BASE_URL ++ INDEX_PHP in
  (os_makedirs [] OUTPUT_DIR = false ->
   run = Died_OSError [Said Starting; Did (MakeDirs OUTPUT_DIR false)])
  /\ (os_makedirs [] OUTPUT_DIR = true ->
      make_soup http_get url [MakeDirs OUTPUT_DIR true]
      = Ok None ([MakeDirs OUTPUT_DIR true] ++ three_failures url) ->
      run = Exited (Said Starting :: Did (MakeDirs OUTPUT_DIR true)
                    :: map Did (three_failures url) ++ [Said NoForumsFound])).
Proof.
  intros run url. unfold run, main. split.
  - intros ->. reflexivity.
  - intros -> H. unfold scrape_forum_index, bind. fold url. rewrite H.
    unfold ret. cbn [app map]. reflexivity.
Qed.

Lemma main_start_failures_witness :
  main sample_urljoin ascii_digit ascii_word dead_get fs_accepts fs_accepts_write 1
  = Exited (Said Starting :: Did (MakeDirs OUTPUT_DIR true)
            :: map Did (three_failures (BASE_URL ++ INDEX_PHP)) ++ [Said NoForumsFound]).
Proof.
  exact (proj2 (@main_start_failures sample_urljoin ascii_digit ascii_word dead_get
                  fs_accepts fs_accepts_write 1) eq_refl eq_refl).
Defined.

(** X15: provided the slash is no decimal digit, every file the program
    writes, however it ends, has a path that starts with [OUTPUT_DIR]. *)
Theorem main_writes_under
    (urljoin : str -> str -> str) (isdecimal isword : char -> bool)
    (http_get : trace -> str -> response)
    (os_makedirs : trace -> str -> bool) (os_write : trace -> str -> str -> bool)
    (fuel : nat) (f c : str) (ok : bool) :
  isdecimal SLASH = false ->
  In (Did (WriteFile f c ok))
     (output_of (main urljoin isdecimal isword http_get os_makedirs os_write fuel)) ->
  startswith OUTPUT_DIR f = true.
Proof.
  intros Hs. unfold main.
  destruct (os_makedirs [] OUTPUT_DIR).
  - pose proof (@scrape_forum_index_under urljoin isdecimal isword http_get
                  os_makedirs os_write Hs fuel (BASE_URL ++ INDEX_PHP) OUTPUT_DIR
                  [MakeDirs OUTPUT_DIR true]) as U.
    destruct (scrape_forum_index _ _ _ _ _ _ fuel _ OUTPUT_DIR _) as [all t1|e t1|];
      cbn [extends] in U.
    + destruct U as (seg & -> & U).
      assert (W : forall x, In (WriteFile f c ok) ([MakeDirs OUTPUT_DIR true] ++ seg ++ x) ->
                            forallb (under OUTPUT_DIR) x = true ->
                            startswith OUTPUT_DIR f = true).
      { intros x Hin Hx. cbn [app] in Hin. destruct Hin as [Hin|Hin]; [discriminate|].
        apply in_app_or in Hin as [Hin|Hin];
          [exact (@under_in OUTPUT_DIR seg f c ok U Hin)
          |exact (@under_in OUTPUT_DIR x f c ok Hx Hin)]. }
      destruct all as [|entry all].
      * cbn [output_of]. intros [Hin|Hin]; [discriminate|].
        apply in_app_or in Hin as [Hin|Hin].
        -- apply in_map_did in Hin. apply (W []); [now rewrite app_nil_r | reflexivity].
        -- destruct Hin as [Hin|[]]. discriminate.
      * pose proof (@write_to_file_under os_makedirs os_write OUTPUT_DIR
                      (path_join OUTPUT_DIR LISTING_TXT) (join NL (entry :: all))
                      ([MakeDirs OUTPUT_DIR true] ++ seg)
                      (path_join_extends OUTPUT_DIR LISTING_TXT eq_refl)) as X.
        destruct (write_to_file _ _ _ _ _) as [[] t2|e t2|]; cbn [extends] in X.
        -- destruct X as (s2 & -> & X). cbn [output_of].
           intros [Hin|Hin]; [discriminate|].
           apply in_app_or in Hin as [Hin|Hin].
           ++ apply in_map_did in Hin. rewrite <- app_assoc in Hin. now apply (W s2).
           ++ destruct Hin as [Hin|[Hin|[]]]; discriminate.
        -- destruct X as (s2 & -> & X). cbn [output_of].
           intros [Hin|Hin]; [discriminate|].
           apply in_map_did in Hin. rewrite <- app_assoc in Hin. now apply (W s2).
        -- intros [].
    + destruct U as (seg & -> & U). cbn [output_of].
      intros [Hin|Hin]; [discriminate|]. apply in_map_did in Hin.
      cbn [app] in Hin. destruct Hin as [Hin|Hin]; [discriminate|].
      exact (@under_in OUTPUT_DIR seg f c ok U Hin).
    + intros [].
  - cbn [output_of map]. intros [Hin|[Hin|[]]]; discriminate.
Qed.

Lemma main_writes_under_witness :
  startswith OUTPUT_DIR (lit "forums/listing.txt") = true.
Proof.
  apply (@main_writes_under sample_urljoin ascii_digit ascii_word archive_get
           fs_accepts fs_accepts_write 5 (lit "forums/listing.txt")
           (join NL sample_index_found) true).
  - reflexivity.
  - vm_compute. repeat (first [left; reflexivity | right]).
Defined.

(** ** Entries and crawls *)

Lemma paired_app (f1 f2 : list str) (c1 c2 : list (str * str)) :
  paired f1 c1 -> paired f2 c2 -> paired (f1 ++ f2) (c1 ++ c2).
Proof. apply Forall2_app. Qed.

Section PairFacts.
Variable urljoin : str -> str -> str.

Lemma plan_sub_paired (url fp : str) (soup : node) (p : plan) (link : nat) :
  paired (entries p) (calls p) ->
  paired (entries (plan_sub urljoin url fp soup p link))
         (calls (plan_sub urljoin url fp soup p link)).
Proof.
  intros H. unfold plan_sub.
  destruct (nonempty (get_text [] soup link)); [|exact H].
  cbn [entries calls]. apply paired_app; [exact H|].
  constructor; [|constructor].
  exists (SUB_INDENT ++ get_text [] soup link). cbn [fst]. now rewrite <- app_assoc.
Qed.

Lemma fold_paired (A : Type) (f : plan -> A -> plan) (xs : list A) :
  (forall p x, paired (entries p) (calls p) ->
               paired (entries (f p x)) (calls (f p x))) ->
  forall p, paired (entries p) (calls p) ->
            paired (entries (fold_left f xs p)) (calls (fold_left f xs p)).
Proof.
  intros Hf. induction xs as [|x xs IH]; intros p Hp; cbn [fold_left]; auto.
Qed.

Lemma plan_row_paired (url path : str) (soup : node) (p : plan) (row : nat) :
  paired (entries p) (calls p) ->
  paired (entries (plan_row urljoin url path soup p row))
         (calls (plan_row urljoin url path soup p row)).
Proof.
  intros H. unfold plan_row.
  destruct (select_one FORUM_LINK soup row) as [link|]; [|exact H].
  destruct (recorded _ p); [exact H|].
  apply fold_paired; [intros; now apply plan_sub_paired|].
  cbn [entries calls]. apply paired_app; [exact H|].
  constructor; [|constructor]. now exists (get_text [] soup link).
Qed.

Lemma index_plan_paired (url path : str) (soup : node) :
  paired (entries (index_plan urljoin url path soup))
         (calls (index_plan urljoin url path soup)).
Proof.
  unfold index_plan. apply fold_paired; [|constructor].
  intros p table Hp. apply fold_paired; [|exact Hp].
  intros; now apply plan_row_paired.
Qed.

End PairFacts.

(** X16: in every run of [scrape_forum_index] that returns, the entries
    returned and the crawls entered go by pairs, in order: each recorded
    forum or sub-forum is crawled once, at the URL its entry ends with, and
    nothing else is crawled. *)
Theorem scrape_forum_index_paired
    (urljoin : str -> str -> str) (isdecimal isword : char -> bool)
    (http_get : trace -> str -> response)
    (os_makedirs : trace -> str -> bool) (os_write : trace -> str -> str -> bool)
    (fuel : nat) (url current_path : str) (t t1 t' : trace) (soup : node)
    (found : list str) :
  make_soup http_get url t = Ok (Some soup) t1 ->
  scrape_forum_index urljoin isdecimal isword http_get os_makedirs os_write
                     fuel url current_path t = Ok found t' ->
  exists seg, t' = t1 ++ seg /\ paired found (crawls seg).
Proof.
  intros Hs Hr.
  pose proof (@scrape_forum_index_tracks urljoin isdecimal isword http_get
                os_makedirs os_write fuel url current_path t t1 soup Hs) as T.
  rewrite Hr in T. destruct T as (-> & seg & -> & C). exists seg.
  split; [reflexivity|]. cbn [calls empty_plan app] in C. rewrite <- C.
  apply index_plan_paired.
Qed.

Lemma scrape_forum_index_paired_witness :
  exists seg,
    sample_index_trace
    = (before_first (lit "http://a/index.php") ++ [Get (lit "http://a/index.php")]) ++ seg
    /\ paired sample_index_found (crawls seg).
Proof.
  apply (@scrape_forum_index_paired sample_urljoin ascii_digit ascii_word
           sample_get fs_accepts fs_accepts_write 5
           (lit "http://a/index.php") (lit "forums") []
           (before_first (lit "http://a/index.php") ++ [Get (lit "http://a/index.php")])
           sample_index_trace sample_index sample_index_found).
  - reflexivity.
  - vm_compute. reflexivity.
Defined.

(** ** Partial listing of a forum *)

(** X17: the listing of a forum keeps what was gathered.  When [n] pages
    of a forum were fetched and their rows processed, and the fetch of the
    next page fails, [scrape_topic_listing] goes on to the listing file:
    where the path of [listing.txt] and the lines are acceptable to the
    filesystem calls and the filesystem raises no error, the call returns
    after creating the directory and writing to [listing.txt] the lines
    gathered on those [n] pages, joined by newlines. *)
Theorem scrape_topic_listing_partial
    (urljoin : str -> str -> str) (isdecimal isword : char -> bool)
    (http_get : trace -> str -> response)
    (os_makedirs : trace -> str -> bool) (os_write : trace -> str -> str -> bool)
    (k : nat) (forum_url current_path : str) (t : trace)
    (n : nat) (tk : trace) (uk : str) (lk : list str) (t' : trace) :
  let listing_filepath := path_join current_path LISTING_TXT in
  let dir := dirname listing_filepath in
  let content := join NL lk in
  listing_pages urljoin isdecimal isword http_get os_makedirs os_write
                (S k) current_path (t ++ [Enter forum_url current_path]) forum_url []
                n tk uk lk ->
  nonempty uk = true ->
  make_soup http_get uk tk = Ok None t' ->
  valid_path listing_filepath = true ->
  encodable content = true ->
  os_makedirs t' dir = true ->
  os_write (t' ++ [MakeDirs dir true]) listing_filepath content = true ->
  scrape_topic_listing urljoin isdecimal isword http_get os_makedirs os_write
                       (n + S k) forum_url current_path t
  = Ok tt ((t' ++ [MakeDirs dir true]) ++ [WriteFile listing_filepath content true]).
Proof.
  intros lp dir content Hp Hu Hf V N Hm Hw.
  assert (He : listing_ends urljoin isdecimal isword http_get os_makedirs os_write
                            k current_path tk uk lk t' lk)
    by now apply ends_no_page.
  destruct (@scrape_topic_listing_run urljoin isdecimal isword http_get os_makedirs
              os_write k forum_url current_path t n tk uk lk t' lk Hp He) as [E _].
  rewrite E.
  now apply (write_to_file_cases os_makedirs os_write lp content t').
Qed.

Lemma scrape_topic_listing_partial_witness :
  scrape_topic_listing sample_urljoin ascii_digit ascii_word paged_get
    fs_accepts fs_accepts_write (1 + 4) (lit "http://a/?showforum=9")
    (lit "forums/Paged") []
  = Ok tt ((paged_end ++ [MakeDirs (lit "forums/Paged") true])
           ++ [WriteFile (lit "forums/Paged/listing.txt") (join NL paged_lines) true])
  /\ paged_lines = [lit "First: topic? | http://a/?showtopic=1"].
Proof.
  split; [|reflexivity].
  refine (@scrape_topic_listing_partial
            sample_urljoin ascii_digit ascii_word paged_get
            fs_accepts fs_accepts_write 3 (lit "http://a/?showforum=9")
            (lit "forums/Paged") [] 1 paged_rows
            (lit "http://a/?showforum=9&st=30") paged_lines paged_end
            _ _ _ _ _ _ _).
  - apply listed_page with (soup := sample_forum_paged) (t1 := paged_fetched)
                           (l1 := paged_lines) (t2 := paged_rows)
                           (u1 := lit "http://a/?showforum=9&st=30").
    + reflexivity.
    + vm_compute. reflexivity.
    + vm_compute. reflexivity.
    + vm_compute. reflexivity.
    + apply listed_none.
  - reflexivity.
  - vm_compute. reflexivity.
  - vm_compute. reflexivity.
  - vm_compute. reflexivity.
  - reflexivity.
  - reflexivity.
Defined.

(** ** Layout of the output *)

Lemma drop_while_all (p : char -> bool) (s rest : str) :
  Forall (fun c => p c = true) s -> drop_while p (s ++ rest) = drop_while p rest.
Proof.
  induction 1 as [|c s Hc _ IH]; [reflexivity|]. cbn [app drop_while].
  now rewrite Hc.
Qed.

(** The directory of a name joined to a path is the path: the round trip
    of [os.path.join] and [os.path.dirname]. *)
Lemma dirname_path_join (a b : str) (c : char) (r : str) :
  rev a = c :: r -> c <> SLASH ->
  Forall (fun x => x <> SLASH) b ->
  dirname (path_join a b) = a.
Proof.
  intros Ea Hc Hb.
  assert (Nc : char_eqb c SLASH = false).
  { destruct (char_eqb c SLASH) eqn:E; [|reflexivity].
    apply char_eqb_eq in E. contradiction. }
  assert (J : path_join a b = a ++ [SLASH] ++ b).
  { unfold path_join. rewrite Ea, Nc.
    destruct b as [|x b]; [reflexivity|]. inversion Hb as [|? ? Hx _]; subst.
    cbn [startswith]. unfold char_eqb at 1.
    destruct (N.eqb SLASH x) eqn:E; [|reflexivity].
    apply N.eqb_eq in E. congruence. }
  rewrite J. unfold dirname. rewrite !rev_app_distr. cbn [rev app].
  rewrite <- app_assoc. cbn [app].
  rewrite drop_while_all.
  - assert (R : char_eqb SLASH SLASH = true) by reflexivity.
    cbn [drop_while]. rewrite R. cbn [negb]. cbn [drop_while]. rewrite R.
    rewrite Ea. cbn [drop_while]. rewrite Nc.
    change (rev (c :: r) = a). rewrite <- Ea. apply rev_involutive.
  - apply Forall_rev. apply Forall_impl with (2 := Hb). intros x Hx.
    destruct (char_eqb x SLASH) eqn:E; [|reflexivity].
    apply char_eqb_eq in E. contradiction.
Qed.

Section LayoutFacts.
Variable isdecimal : char -> bool.
Variable isword : char -> bool.

Lemma word_run_words (s : str) :
  Forall (fun c => isword c = true) (firstn (word_run isword s) s).
Proof.
  induction s as [|c s IH]; [constructor|]. cbn [word_run].
  destruct (isword c) eqn:E; cbn [firstn]; constructor; assumption.
Qed.

Lemma word_run_length (s : str) : word_run isword s <= length s.
Proof.
  induction s as [|c s IH]; [reflexivity|]. cbn [word_run length].
  destruct (isword c); lia.
Qed.

Lemma try_word_found (k : nat) (r : str) (j : nat) :
  try_word isdecimal k r = Some j ->
  j <= k /\ exists w rest,
      skipn j r = w :: rest /\ isspace w = true /\ four_digits isdecimal rest = true.
Proof.
  induction k as [|k IH]; [discriminate|]. cbn [try_word].
  destruct (skipn (S k) r) as [|w rest] eqn:E.
  - intros H. destruct (IH H) as [Hj X]. split; [lia | exact X].
  - destruct (isspace w && four_digits isdecimal rest) eqn:C.
    + intros [= <-]. apply andb_true_iff in C as [C1 C2]. split; [lia|].
      exists w, rest. auto.
    + intros H. destruct (IH H) as [Hj X]. split; [lia | exact X].
Qed.

Lemma firstn_prefix_forall (P : char -> Prop) (j n : nat) (s : str) :
  j <= n -> Forall P (firstn n s) -> Forall P (firstn j s).
Proof.
  revert n s. induction j as [|j IH]; intros n s Hj H; [constructor|].
  destruct n as [|n]; [lia|]. destruct s as [|c s]; [constructor|].
  cbn [firstn] in *. inversion H; subst. constructor; [assumption|].
  apply (IH n); [lia | assumption].
Qed.

Lemma four_digits_chars (s : str) :
  four_digits isdecimal s = true ->
  Forall (fun c => date_char isdecimal isword c = true) (firstn 4 s).
Proof.
  unfold four_digits. destruct s as [|a [|b [|c [|d s]]]]; try discriminate.
  intros H. repeat (apply andb_true_iff in H as [H ?]).
  cbn [firstn]. unfold date_char.
  repeat constructor; match goal with
                      | E : isdecimal ?x = true |- context [isdecimal ?x] => now rewrite E
                      end.
Qed.

Lemma date_tail_chars (r : str) (n : nat) :
  date_tail isdecimal isword r = Some n ->
  Forall (fun c => date_char isdecimal isword c = true) (firstn n r).
Proof.
  unfold date_tail. destruct r as [|w r1]; [discriminate|].
  destruct (isspace w) eqn:Ew; [|discriminate].
  destruct (try_word isdecimal (word_run isword r1) r1) as [j|] eqn:E;
    [|discriminate].
  intros [= <-]. apply try_word_found in E as (Hj & w2 & rest & Es & Ew2 & Ed).
  cbn [Nat.add firstn]. constructor.
  { unfold date_char. now rewrite Ew, orb_true_r. }
  rewrite <- (firstn_skipn j r1) at 1. rewrite Es.
  assert (L : length (firstn j r1) = j).
  { apply firstn_length_le. pose proof (word_run_length r1). lia. }
  replace (j + 1 + 4) with (length (firstn j r1) + 5) by lia.
  rewrite firstn_app_2. apply Forall_app. split.
  - apply Forall_impl with (P := fun c => isword c = true).
    + intros c Hc. unfold date_char. now rewrite Hc, orb_true_r.
    + apply firstn_prefix_forall with (n := word_run isword r1); [exact Hj|].
      apply word_run_words.
  - cbn [firstn]. constructor.
    + unfold date_char. now rewrite Ew2, orb_true_r.
    + now apply four_digits_chars.
Qed.

Lemma date_at_chars (s : str) (n : nat) :
  date_at isdecimal isword s = Some n ->
  Forall (fun c => date_char isdecimal isword c = true) (firstn n s).
Proof.
  unfold date_at. destruct s as [|a r]; [discriminate|].
  assert (One : forall n,
             (if isdecimal a
              then option_map (Nat.add 1) (date_tail isdecimal isword r)
              else None) = Some n ->
             Forall (fun c => date_char isdecimal isword c = true) (firstn n (a :: r))).
  { intros m H. destruct (isdecimal a) eqn:D; [|discriminate].
    destruct (date_tail isdecimal isword r) as [j|] eqn:E; [|discriminate].
    injection H as <-. cbn [Nat.add firstn]. constructor.
    - unfold date_char. now rewrite D.
    - now apply date_tail_chars. }
  destruct r as [|b r']; [exact (One n)|].
  destruct (isdecimal a && isdecimal b) eqn:D2; [|exact (One n)].
  destruct (date_tail isdecimal isword r') as [j|] eqn:E; [|exact (One n)].
  intros [= <-]. apply andb_true_iff in D2 as [Da Db].
  cbn [Nat.add firstn]. constructor; [unfold date_char; now rewrite Da|].
  constructor; [unfold date_char; now rewrite Db|]. now apply date_tail_chars.
Qed.

Lemma search_date_chars (s m : str) :
  search_date isdecimal isword s = Some m ->
  Forall (fun c => date_char isdecimal isword c = true) m.
Proof.
  induction s as [|c s IH]; [discriminate|]. cbn [search_date].
  destruct (date_at isdecimal isword (c :: s)) as [n|] eqn:E; [|exact IH].
  intros [= <-]. now apply date_at_chars.
Qed.

Hypothesis slash_not_decimal : isdecimal SLASH = false.
Hypothesis slash_not_word : isword SLASH = false.

Lemma date_prefix_no_slash (s : str) :
  Forall (fun x => x <> SLASH) (date_prefix_of isdecimal isword s).
Proof.
  unfold date_prefix_of.
  destruct (search_date isdecimal isword s) as [m|] eqn:E.
  - apply search_date_chars in E. unfold replace_char.
    apply Forall_map. apply Forall_impl with (2 := E). intros c Hc.
    destruct (char_eqb c 32%N); [discriminate|]. intros ->.
    unfold date_char in Hc. rewrite slash_not_decimal, slash_not_word in Hc.
    discriminate.
  - repeat constructor; discriminate.
Qed.

End LayoutFacts.

Lemma sanitize_no_slash (name : str) :
  Forall (fun x => x <> SLASH) (sanitize_filename name).
Proof.
  apply Forall_impl with (2 := tidy_valid _ _ (sanitize_tidy name)).
  intros c Hc ->. discriminate.
Qed.

(** X18: the files of a forum lie in its directory.  For an output path
    that is not empty and does not end with a slash, and when the slash is
    neither a digit nor a word character, the directory that
    [write_to_file] creates for the listing and for every topic file is the
    output path itself. *)
Theorem forum_files_in_directory
    (isdecimal isword : char -> bool)
    (current_path : str) (c : char) (r : str) (last_post_date_str topic_title : str) :
  isdecimal SLASH = false ->
  isword SLASH = false ->
  rev current_path = c :: r -> c <> SLASH ->
  dirname (path_join current_path LISTING_TXT) = current_path
  /\ dirname (topic_filepath current_path
                (date_prefix_of isdecimal isword last_post_date_str) topic_title)
     = current_path.
Proof.
  intros Hd Hw Er Hc. split.
  - apply (dirname_path_join _ Er Hc). repeat constructor; discriminate.
  - unfold topic_filepath. apply (dirname_path_join _ Er Hc).
    repeat (apply Forall_app; split).
    + now apply date_prefix_no_slash.
    + repeat constructor; discriminate.
    + apply sanitize_no_slash.
    + repeat constructor; discriminate.
Qed.

Lemma forum_files_in_directory_witness :
  dirname (path_join (lit "forums/General") LISTING_TXT) = lit "forums/General"
  /\ dirname (topic_filepath (lit "forums/General")
                (date_prefix_of ascii_digit ascii_word (lit "Last post 12 May 2016 by bob"))
                (lit "First: topic?"))
     = lit "forums/General".
Proof.
  apply (@forum_files_in_directory ascii_digit ascii_word (lit "forums/General")
           108%N (rev (lit "forums/Genera"))).
  - reflexivity.
  - reflexivity.
  - reflexivity.
  - discriminate.
Defined.
